(** * exchangelib: field metamodel, protocol cache, session pool, retry loop,
      paging and query sets

    A shallow embedding of the parts of [exchangelib] (the EWS client
    library shipped under [src/py-exchange/exchangelib]) that carry its
    documented behaviour, together with the theorems that settle that
    behaviour.  Python objects that are mutated in place live in explicit
    stores; exceptions are values of a [result] type. *)

From Stdlib Require Import ZArith Lia Bool List Ascii String DecimalString DecimalZ.
From stdpp Require Import base option list gmap strings fin_maps.

Local Open Scope Z_scope.

(** ** Exceptions and results *)

(** The exception classes raised by the modelled code. *)
Inductive exn : Type :=
  | ValueError
  | TypeError
  | KeyError
  | AttributeError
  | InvalidTypeError
  | InvalidFieldForVersion
  | MalformedResponseError
  | SessionPoolMaxSizeReached
  | SessionPoolMinSizeReached
  | RateLimitError
  | RedirectError
  | UnauthorizedError
  | CASError
  | ErrorInvalidSchemaVersionForMailboxVersion
  | ConnectionError
  | TransportError (msg : string).

(** A call either returns a value or raises. *)
Inductive result (A : Type) : Type :=
  | Ok (a : A)
  | Raise (e : exn).
Arguments Ok {A} a.
Arguments Raise {A} e.

Definition bind {A B} (r : result A) (k : A -> result B) : result B :=
  match r with
  | Ok a => k a
  | Raise e => Raise e
  end.

Notation "'let*' x ':=' r 'in' k" := (bind r (fun x => k))
  (at level 10, x name, r at level 100, k at level 200).

(** ** Python text *)

(** [s.lower()] on ASCII letters.  It is used where the code compares the
    lower-cased text with ASCII text (in [xml_text_to_value] and in
    [FaultTolerance.may_retry_on_error]): no character of 8-bit text other
    than an ASCII capital is lower-cased to an ASCII character, so these
    comparisons come out as with [str.lower].  Where the lower-cased text
    itself is returned, [str.lower] is a parameter. *)
Definition ascii_lower (c : ascii) : ascii :=
  let n := nat_of_ascii c in
  if ((65 <=? n) && (n <=? 90))%nat then ascii_of_nat (n + 32) else c.

Fixpoint lower (s : string) : string :=
  match s with
  | EmptyString => EmptyString
  | String c s' => String (ascii_lower c) (lower s')
  end.

(** [needle in hay] for byte strings. *)
Fixpoint contains (needle hay : string) : bool :=
  String.prefix needle hay ||
  match hay with
  | EmptyString => false
  | String _ hay' => contains needle hay'
  end.

(** ** util.py: [chunkify] *)

Module Chunkify.

(** [range(start, stop, step)] for a positive step, as the list it iterates.
    The fuel bounds the number of elements; [stop - start] is always enough
    when the step is at least one. *)
Fixpoint range_from (fuel start stop step : nat) : list nat :=
  match fuel with
  | O => []
  | S k =>
      if (start <? stop)%nat
      then start :: range_from k (start + step) stop step
      else []
  end.

(** [range(0, stop, step)]: raises [ValueError] for a zero step and is empty
    for a negative one. *)
Definition py_range (stop : nat) (step : Z) : result (list nat) :=
  if step =? 0 then Raise ValueError
  else if step <? 0 then Ok []
  else Ok (range_from stop 0 stop (Z.to_nat step)).

(** The slice [xs[i : j]] for [0 <= i <= j]; Python clamps both ends to the
    length of the sequence. *)
Definition py_slice {A} (xs : list A) (i j : nat) : list A :=
  take (j - i) (drop i xs).

(** The sequence branch of [chunkify] (tuples and lists):
    [for i in range(0, len(iterable), chunksize): yield iterable[i : i + chunksize]].
    The result lists the chunks in the order the generator yields them. *)
Definition chunkify {A} (iterable : list A) (chunksize : Z) : result (list (list A)) :=
  let* idxs := py_range (length iterable) chunksize in
  Ok (map (fun i => py_slice iterable i (i + Z.to_nat chunksize)) idxs).

(** The generator branch of [chunkify] (generators, sets, maps and query
    sets): elements are appended to [chunk] and the chunk is yielded when its
    length equals [chunksize]; a non-empty rest is yielded at the end. *)
Fixpoint chunkify_gen {A} (iterable : list A) (chunksize : Z) (chunk : list A)
  : list (list A) :=
  match iterable with
  | [] => match chunk with [] => [] | _ => [chunk] end
  | i :: rest =>
      let chunk' := chunk ++ [i] in
      if Z.of_nat (length chunk') =? chunksize
      then chunk' :: chunkify_gen rest chunksize []
      else chunkify_gen rest chunksize chunk'
  end.

(** Every chunk but the last one has exactly [n] elements. *)
Fixpoint all_but_last_full {A} (n : nat) (chunks : list (list A)) : Prop :=
  match chunks with
  | [] => True
  | [_] => True
  | ch :: rest => length ch = n /\ all_but_last_full n rest
  end.

End Chunkify.

(** ** protocol.py: the session pool of [BaseProtocol] *)

Module SessionPool.

(** A [requests] session as the pool sees it. *)
Record Session := mkSession {
  session_id : Z;
  usage_count : Z;
}.

(** The attributes [BaseProtocol.__init__] sets, with [max_connections] read
    through [config].  [_session_pool] is a [LifoQueue]: its head is the
    session that [get] returns next. *)
Record BaseProtocol := mkProtocol {
  max_connections : option Z;
  _session_pool_size : Z;
  _session_pool_maxsize : Z;
  _session_pool : list Session;
}.

Definition SESSION_POOLSIZE : Z := 1.

(** [config.max_connections or self.SESSION_POOLSIZE]: [None] and [0] are
    both falsy. *)
Definition max_connections_or_default (mc : option Z) : Z :=
  match mc with
  | Some n => if n =? 0 then SESSION_POOLSIZE else n
  | None => SESSION_POOLSIZE
  end.

(** [BaseProtocol.__init__]. *)
Definition init (mc : option Z) : BaseProtocol :=
  {| max_connections := mc;
     _session_pool_size := 0;
     _session_pool_maxsize := max_connections_or_default mc;
     _session_pool := [] |}.

(** How a call on the pool ends: it returns, it raises, or it waits on the
    empty queue for a session that only another thread can release. *)
Inductive outcome (A : Type) : Type :=
  | Returns (a : A)
  | Raises (e : exn)
  | Blocks.
Arguments Returns {A} a.
Arguments Raises {A} e.
Arguments Blocks {A}.

(** [increase_poolsize].  [cs] is what [create_session()] does when it is
    reached: it returns a fresh session or raises.  The second test, under the
    lock, repeats the first. *)
Definition increase_poolsize (cs : result Session) (p : BaseProtocol)
  : BaseProtocol * outcome unit :=
  if _session_pool_size p >=? _session_pool_maxsize p
  then (p, Raises SessionPoolMaxSizeReached)
  else if _session_pool_size p >=? _session_pool_maxsize p
  then (p, Returns tt)
  else match cs with
       | Raise e => (p, Raises e)
       | Ok s =>
           ({| max_connections := max_connections p;
               _session_pool_size := _session_pool_size p + 1;
               _session_pool_maxsize := _session_pool_maxsize p;
               _session_pool := s :: _session_pool p |}, Returns tt)
       end.

Definition set_pool (q : list Session) (p : BaseProtocol) : BaseProtocol :=
  {| max_connections := max_connections p;
     _session_pool_size := _session_pool_size p;
     _session_pool_maxsize := _session_pool_maxsize p;
     _session_pool := q |}.

Definition use (s : Session) : Session :=
  {| session_id := session_id s; usage_count := usage_count s + 1 |}.

(** [get_session]: take a session from the queue; on an empty queue try to
    grow the pool, swallowing [SessionPoolMaxSizeReached], and wait for a
    session.  The session returned is the object taken from the queue, with
    its [usage_count] incremented in place; sessions are values here, which
    stands for the objects as long as no session object is in two places
    (see [proper_use]). *)
Definition get_session (cs : result Session) (p : BaseProtocol)
  : BaseProtocol * outcome Session :=
  match _session_pool p with
  | s :: q => (set_pool q p, Returns (use s))
  | [] =>
      match increase_poolsize cs p with
      | (p', Raises SessionPoolMaxSizeReached) | (p', Returns _) =>
          match _session_pool p' with
          | s :: q => (set_pool q p', Returns (use s))
          | [] => (p', Blocks)
          end
      | (p', Raises e) => (p', Raises e)
      | (p', Blocks) => (p', Blocks)
      end
  end.

(** [decrease_poolsize]; the session taken from the queue is closed and
    dropped. *)
Definition decrease_poolsize (cs : result Session) (p : BaseProtocol)
  : BaseProtocol * outcome unit :=
  if _session_pool_size p <=? 1
  then (p, Raises SessionPoolMinSizeReached)
  else if _session_pool_size p <=? 1
  then (p, Returns tt)
  else match get_session cs p with
       | (p', Returns _) =>
           ({| max_connections := max_connections p';
               _session_pool_size := _session_pool_size p' - 1;
               _session_pool_maxsize := _session_pool_maxsize p';
               _session_pool := _session_pool p' |}, Returns tt)
       | (p', Raises e) => (p', Raises e)
       | (p', Blocks) => (p', Blocks)
       end.

(** A call of one of the two methods, with the behaviour of
    [create_session] should the call reach it. *)
Inductive call : Type :=
  | Increase (cs : result Session)
  | Decrease (cs : result Session).

Definition step (c : call) (p : BaseProtocol) : BaseProtocol * outcome unit :=
  match c with
  | Increase cs => increase_poolsize cs p
  | Decrease cs => decrease_poolsize cs p
  end.

(** A sequence of calls by one caller that carries on after an exception; a
    call that blocks ends the sequence. *)
Fixpoint run (cs : list call) (p : BaseProtocol) : BaseProtocol :=
  match cs with
  | [] => p
  | c :: rest =>
      match step c p with
      | (p', Blocks) => p'
      | (p', _) => run rest p'
      end
  end.

(** The invariant of the pool: the size is never negative and exceeds the
    maximum only while it is zero. *)
Definition pool_inv (p : BaseProtocol) : Prop :=
  0 <= _session_pool_size p <= Z.max 0 (_session_pool_maxsize p).

(** The maximum as the documentation words it: [config.max_connections] if
    set, else [SESSION_POOLSIZE]. *)
Definition documented_maximum (mc : option Z) : Z :=
  match mc with
  | Some n => n
  | None => SESSION_POOLSIZE
  end.

(** [MAX_SESSION_USAGE_COUNT and session.usage_count >=
    MAX_SESSION_USAGE_COUNT]; the class attribute is [None] unless a
    subclass sets it, and [None] and [0] are falsy. *)
Definition usage_exceeded (max_usage : option Z) (session : Session) : bool :=
  match max_usage with
  | Some m => negb (m =? 0) && (usage_count session >=? m)
  | None => false
  end.

(** [renew_session]: the session is closed and what [create_session()]
    does is what the call does. *)
Definition renew_session (cs : result Session) (session : Session) : result Session := cs.

(** [release_session]; the queue has no bound, so [put] never fails. *)
Definition release_session (max_usage : option Z) (cs : result Session) (session : Session)
    (p : BaseProtocol) : BaseProtocol * outcome unit :=
  if usage_exceeded max_usage session
  then match renew_session cs session with
       | Ok s => (set_pool (s :: _session_pool p) p, Returns tt)
       | Raise e => (p, Raises e)
       end
  else (set_pool (session :: _session_pool p) p, Returns tt).

(** [retire_session]: the session is closed and a new one is released
    into the pool; [cs'] is what a second [create_session()] does, should
    [release_session] renew the new session. *)
Definition retire_session (max_usage : option Z) (cs cs' : result Session)
    (session : Session) (p : BaseProtocol) : BaseProtocol * outcome unit :=
  match cs with
  | Ok s => release_session max_usage cs' s p
  | Raise e => (p, Raises e)
  end.

(** The loop of [close]: every session taken from the queue is closed and
    the pool size is decreased by one, until the queue is empty. *)
Fixpoint close_loop (q : list Session) (size : Z) : Z :=
  match q with
  | [] => size
  | _ :: q' => close_loop q' (size - 1)
  end.

Definition close (p : BaseProtocol) : BaseProtocol :=
  {| max_connections := max_connections p;
     _session_pool_size := close_loop (_session_pool p) (_session_pool_size p);
     _session_pool_maxsize := _session_pool_maxsize p;
     _session_pool := [] |}.

(** A call on the pool by its one user. *)
Inductive pool_call : Type :=
  | GetSession (cs : result Session)
  | ReleaseSession (cs : result Session) (s : Session)
  | RetireSession (cs cs' : result Session) (s : Session)
  | IncreasePoolsize (cs : result Session)
  | DecreasePoolsize (cs : result Session)
  | Close.

(** The sessions that [create_session()] returns have [usage_count = 0]. *)
Definition created (cs : result Session) : Prop :=
  match cs with
  | Ok s => usage_count s = 0
  | Raise _ => True
  end.

Definition creates_new (c : pool_call) : Prop :=
  match c with
  | GetSession cs | ReleaseSession cs _ | IncreasePoolsize cs | DecreasePoolsize cs =>
      created cs
  | RetireSession cs cs' _ => created cs /\ created cs'
  | Close => True
  end.

(** A sequence of calls that carries on after an exception and ends when a
    call blocks; the result lists the sessions that [get_session] has
    returned to the caller. *)
Fixpoint run_calls (max_usage : option Z) (cs : list pool_call) (p : BaseProtocol)
  : BaseProtocol * list Session :=
  match cs with
  | [] => (p, [])
  | c :: rest =>
      match c with
      | GetSession cs =>
          match get_session cs p with
          | (p', Returns s) =>
              let '(p'', got) := run_calls max_usage rest p' in (p'', s :: got)
          | (p', Raises _) => run_calls max_usage rest p'
          | (p', Blocks) => (p', [])
          end
      | ReleaseSession cs s =>
          run_calls max_usage rest (release_session max_usage cs s p).1
      | RetireSession cs cs' s =>
          run_calls max_usage rest (retire_session max_usage cs cs' s p).1
      | IncreasePoolsize cs =>
          match increase_poolsize cs p with
          | (p', Blocks) => (p', [])
          | (p', _) => run_calls max_usage rest p'
          end
      | DecreasePoolsize cs =>
          match decrease_poolsize cs p with
          | (p', Blocks) => (p', [])
          | (p', _) => run_calls max_usage rest p'
          end
      | Close => run_calls max_usage rest (close p)
      end
  end.

(** The calls of a user that gives back only what it holds: a session is
    released or retired by the caller that [get_session] handed it to, and
    once; [held] lists the sessions the caller holds.  On a pool used in
    this way no session object is in two places, in the queue twice or in
    the queue and with a caller, so that [session.usage_count += 1], done in
    place on the object that [get_session] returns, gives the new value of
    that one session, which is what [use] computes. *)
Fixpoint proper_use (max_usage : option Z) (cs : list pool_call) (p : BaseProtocol)
    (held : list Session) : Prop :=
  match cs with
  | [] => True
  | c :: rest =>
      match c with
      | GetSession cs =>
          match get_session cs p with
          | (p', Returns s) => proper_use max_usage rest p' (s :: held)
          | (p', Raises _) => proper_use max_usage rest p' held
          | (p', Blocks) => True
          end
      | ReleaseSession cs s =>
          exists h1 h2,
            held = h1 ++ s :: h2
            /\ proper_use max_usage rest (release_session max_usage cs s p).1 (h1 ++ h2)
      | RetireSession cs cs' s =>
          exists h1 h2,
            held = h1 ++ s :: h2
            /\ proper_use max_usage rest (retire_session max_usage cs cs' s p).1 (h1 ++ h2)
      | IncreasePoolsize cs =>
          match increase_poolsize cs p with
          | (p', Blocks) => True
          | (p', _) => proper_use max_usage rest p' held
          end
      | DecreasePoolsize cs =>
          match decrease_poolsize cs p with
          | (p', Blocks) => True
          | (p', _) => proper_use max_usage rest p' held
          end
      | Close => proper_use max_usage rest (close p) held
      end
  end.

(** [get_session] called once for each of the sessions that
    [create_session()] would return, without a release in between. *)
Fixpoint get_sessions (ss : list Session) (p : BaseProtocol)
  : BaseProtocol * list (outcome Session) :=
  match ss with
  | [] => (p, [])
  | s :: ss' =>
      let '(p', o) := get_session (Ok s) p in
      let '(p'', os) := get_sessions ss' p' in
      (p'', o :: os)
  end.

End SessionPool.

(** ** protocol.py: the [CachingProtocol] metaclass *)

Module ProtocolCache.

Section Cache.
(** Credentials are compared the way [dict] compares keys, through
    [BaseCredentials.__hash__] and [__eq__]: by value. *)
Context {Credentials : Type} `{Countable Credentials}.

(** The attributes of [Configuration] that the cache reads. *)
Record Configuration := mkConfiguration {
  service_endpoint : option string;
  credentials : option Credentials;
}.

(** The [config] keyword argument: any object, or a [Configuration]. *)
Inductive config_arg : Type :=
  | NotAConfiguration
  | AConfiguration (c : Configuration).

(** A [Protocol] instance; [protocol_id] stands for the identity of the
    object. *)
Record Protocol := mkProtocol {
  protocol_id : nat;
  protocol_config : Configuration;
}.

(** What is stored under a key: a protocol or the exception its
    construction raised, paired with [datetime.datetime.now()]. *)
Inductive cached : Type :=
  | CachedProtocol (p : Protocol)
  | CachedException (e : exn).

(** What the call of [super().__call__] does when it is reached: it
    returns the new instance, raises [TransportError] (or a subclass), or
    raises something else. *)
Inductive init_outcome : Type :=
  | InitReturns
  | InitRaisesTransportError (e : exn)
  | InitRaisesOther (e : exn).

(** The class-level state: [_protocol_cache], the identity the next new
    object gets, and how often the constructor has run. *)
Record state := mkState {
  _protocol_cache : gmap (string * option Credentials) (cached * Z);
  next_id : nat;
  constructor_runs : nat;
}.

(** [not config.service_endpoint]: [None] and the empty string are falsy. *)
Definition endpoint_unset (c : Configuration) : bool :=
  match service_endpoint c with
  | None => true
  | Some s => String.eqb s ""
  end.

(** [_cache_key]; only reached with the endpoint set. *)
Definition _cache_key (c : Configuration) : string * option Credentials :=
  (default ""%string (service_endpoint c), credentials c).

(** The lookup [cls._protocol_cache[key]] with its [else] branch. *)
Definition lookup_cached (key : string * option Credentials) (st : state)
  : option (result Protocol) :=
  match _protocol_cache st !! key with
  | Some (CachedException e, _) => Some (Raise e)
  | Some (CachedProtocol p, _) => Some (Ok p)
  | None => None
  end.

(** [CachingProtocol.__call__] at time [now]; [kw] is
    [kwargs.get("config")]. *)
Definition construct (kw : option config_arg) (io : init_outcome) (now : Z) (st : state)
  : state * result Protocol :=
  match kw with
  | None => (st, Raise KeyError)
  | Some NotAConfiguration => (st, Raise InvalidTypeError)
  | Some (AConfiguration config) =>
      if endpoint_unset config then (st, Raise AttributeError)
      else
        let key := _cache_key config in
        match lookup_cached key st with
        | Some r => (st, r)
        | None =>
            (* with cls._protocol_cache_lock: *)
            match lookup_cached key st with
            | Some r => (st, r)
            | None =>
                match io with
                | InitReturns =>
                    let protocol := mkProtocol (next_id st) config in
                    (mkState (<[key := (CachedProtocol protocol, now)]> (_protocol_cache st))
                             (S (next_id st)) (S (constructor_runs st)),
                     Ok protocol)
                | InitRaisesTransportError e =>
                    (mkState (<[key := (CachedException e, now)]> (_protocol_cache st))
                             (next_id st) (S (constructor_runs st)),
                     Raise e)
                | InitRaisesOther e =>
                    (mkState (_protocol_cache st) (next_id st) (S (constructor_runs st)),
                     Raise e)
                end
            end
        end
  end.

(** [clear_cache]: the sessions of the cached protocols are closed and the
    dictionary is emptied. *)
Definition clear_cache (st : state) : state :=
  mkState ∅ (next_id st) (constructor_runs st).

(** [Protocol[config]] and [del Protocol[config]] ([__getitem__] and
    [__delitem__]).  No key of the cache has an endpoint that is [None]. *)
Definition getitem (c : Configuration) (st : state) : result (cached * Z) :=
  match service_endpoint c with
  | None => Raise KeyError
  | Some _ =>
      match _protocol_cache st !! _cache_key c with
      | Some v => Ok v
      | None => Raise KeyError
      end
  end.

Definition delitem (c : Configuration) (st : state) : state * result unit :=
  match getitem c st with
  | Ok _ =>
      (mkState (delete (_cache_key c) (_protocol_cache st)) (next_id st) (constructor_runs st),
       Ok tt)
  | Raise e => (st, Raise e)
  end.

(** Any number of further constructions, each with its own argument,
    constructor behaviour and clock reading. *)
Fixpoint constructions (cs : list (option config_arg * init_outcome * Z)) (st : state)
  : state :=
  match cs with
  | [] => st
  | (kw, io, now) :: rest => constructions rest (construct kw io now st).1
  end.

End Cache.

Arguments Configuration : clear implicits.
Arguments config_arg : clear implicits.
Arguments Protocol : clear implicits.
Arguments cached : clear implicits.
Arguments state Credentials {_ _}.

(** A configuration with [Credentials(username, password)], credentials
    being the pair of the two strings, and the state of a fresh process. *)
Definition example_config : Configuration (string * string) :=
  mkConfiguration (Some "https://mail.example.com/EWS/Exchange.asmx"%string)
                  (Some ("john@example.com", "MY_SECRET")%string).

Definition fresh_state : state (string * string) := mkState ∅ 0 0.

End ProtocolCache.

(** ** fields.py and properties.py: the field metamodel *)

Module Metamodel.

(** The values a modelled field holds: [None], [str], [bool], [int], and
    lists of these. *)
#[local] Set Warnings "-register-all".
Inductive value : Type :=
  | VNone
  | VStr (s : string)
  | VBool (b : bool)
  | VInt (z : Z)
  | VList (l : list value).

(** The classes that serve as [value_cls]. *)
Inductive cls : Type := ClsStr | ClsBool | ClsInt.

(** [isinstance(v, c)]; [bool] is a subclass of [int]. *)
Definition isinstance (v : value) (c : cls) : bool :=
  match v, c with
  | VStr _, ClsStr => true
  | VBool _, ClsBool => true
  | VBool _, ClsInt => true
  | VInt _, ClsInt => true
  | _, _ => false
  end.

Definition is_none (v : value) : bool :=
  match v with VNone => true | _ => false end.

(** The field classes of fields.py that are modelled, each a
    [FieldURIField]: [TextField], [CharField] with its [max_length],
    [BooleanField], and [IntegerField] with its [min] and [max]. *)
Inductive field_class : Type :=
  | TextField
  | CharField (max_length : nat)
  | BooleanField
  | IntegerField (min max : option Z).

(** *** XML elements (util.py)

    Text is modelled with 8-bit characters. *)

(** An [lxml] element: tag, attributes in insertion order, text and
    children. *)
Inductive element : Type :=
  | Element (tag : string) (attrib : list (string * string)) (text : option string)
            (children : list element).

Definition tag_of (e : element) : string := match e with Element t _ _ _ => t end.
Definition attrib_of (e : element) : list (string * string) :=
  match e with Element _ a _ _ => a end.
Definition text_of (e : element) : option string := match e with Element _ _ t _ => t end.
Definition children_of (e : element) : list element :=
  match e with Element _ _ _ c => c end.

Definition SOAPNS : string := "http://schemas.xmlsoap.org/soap/envelope/".
Definition MNS : string := "http://schemas.microsoft.com/exchange/services/2006/messages".
Definition TNS : string := "http://schemas.microsoft.com/exchange/services/2006/types".

(** [ns_translation]. *)
Definition ns_translation (ns : string) : option string :=
  if String.eqb ns "s" then Some SOAPNS
  else if String.eqb ns "m" then Some MNS
  else if String.eqb ns "t" then Some TNS
  else None.

(** [":" in s] and [s.split(":")]. *)
Fixpoint has_colon (s : string) : bool :=
  match s with
  | EmptyString => false
  | String c s' => Ascii.eqb c ":" || has_colon s'
  end.

Fixpoint split_colon (s : string) : list string :=
  match s with
  | EmptyString => [EmptyString]
  | String c s' =>
      if Ascii.eqb c ":" then EmptyString :: split_colon s'
      else match split_colon s' with
           | [] => [String c EmptyString]
           | h :: t => String c h :: t
           end
  end.

(** The characters of [_ILLEGAL_XML_CHARS_RE] that 8-bit text has:
    00-08, 0B, 0C and 0E-1F. *)
Definition illegal_xml_char (c : ascii) : bool :=
  let n := nat_of_ascii c in
  ((n <=? 8) || (n =? 11) || (n =? 12) || ((14 <=? n) && (n <=? 31)))%nat.

(** [safe_xml_value]. *)
Fixpoint safe_xml_value (s : string) : string :=
  match s with
  | EmptyString => EmptyString
  | String c s' => String (if illegal_xml_char c then "?"%char else c) (safe_xml_value s')
  end.

(** An insertion-ordered dictionary with string keys, as [attrs] and
    [elem.attrib] are. *)
Fixpoint attr_set (k v : string) (d : list (string * string)) : list (string * string) :=
  match d with
  | [] => [(k, v)]
  | (k', v') :: d' =>
      if String.eqb k' k then (k', v) :: d' else (k', v') :: attr_set k v d'
  end.

Fixpoint attr_get (k : string) (d : list (string * string)) : option string :=
  match d with
  | [] => None
  | (k', v') :: d' => if String.eqb k' k then Some v' else attr_get k d'
  end.

(** [create_element(name, attrs)], with the values of [attrs] strings
    already. *)
Definition create_element (name : string) (attrs : list (string * string)) : result element :=
  let* name :=
    if has_colon name
    then match split_colon name with
         | [ns; name] =>
             match ns_translation ns with
             | Some uri => Ok ("{" ++ uri ++ "}" ++ name)%string
             | None => Raise KeyError
             end
         | _ => Raise ValueError
         end
    else Ok name in
  Ok (Element name (fold_left (fun d kv => attr_set kv.1 kv.2 d) attrs []) None []).

(** [x or None] for a string. *)
Definition or_None (t : option string) : option string :=
  match t with
  | Some EmptyString => None
  | _ => t
  end.

(** [tree.find(name)] for a plain tag: the first child with that tag. *)
Fixpoint find (name : string) (children : list element) : option element :=
  match children with
  | [] => None
  | c :: children' => if String.eqb (tag_of c) name then Some c else find name children'
  end.

(** [get_xml_attr]. *)
Definition get_xml_attr (tree : element) (name : string) : option string :=
  match find name (children_of tree) with
  | None => None
  | Some elem => or_None (text_of elem)
  end.

(** [elem.append(child)]. *)
Definition append_child (elem child : element) : element :=
  match elem with
  | Element t a x c => Element t a x (c ++ [child])
  end.

Definition set_text (elem : element) (t : string) : element :=
  match elem with
  | Element tg a _ c => Element tg a (Some t) c
  end.

Section Fields.
(** [Build] and its comparisons come from version.py; instances of
    [Build] and of [Version] are truthy. *)
Context {Build : Type} (build_lt build_ge : Build -> Build -> bool).
(** [int] and [str] on integers are Python's. *)
Context (py_int : string -> option Z) (py_str : Z -> string).

Record Version := mkVersion {
  build : Build;
  api_version : string;
}.

(** The attributes [Field.__init__] and [FieldURIField.__init__] set. *)
Record Field := mkField {
  field_class_of : field_class;
  name : string;
  is_required : bool;
  is_read_only : bool;
  is_attribute : bool;
  default : value;
  supported_from : option Build;
  deprecated_from : option Build;
  field_uri : option string;
  namespace : string;
}.

Definition value_cls (f : Field) : cls :=
  match field_class_of f with
  | TextField | CharField _ => ClsStr
  | BooleanField => ClsBool
  | IntegerField _ _ => ClsInt
  end.

(** The class attribute [is_list]; none of the modelled classes sets it. *)
Definition is_list (f : Field) : bool := false.

(** [Field.supports_version]. *)
Definition supports_version (f : Field) (version : Version) : bool :=
  if match supported_from f with
     | Some b => build_lt (build version) b
     | None => false
     end
  then false
  else if match deprecated_from f with
          | Some b => build_ge (build version) b
          | None => false
          end
  then false
  else true.

(** [str] on a [Build] and on a [Version] are methods of version.py; they
    return a text or raise. *)
Context (Build_str : Build -> result string) (Version_str : Version -> result string).

(** [str(x)] for [x] that is [None] or an object of version.py. *)
Definition str_build (b : option Build) : result string :=
  match b with
  | Some b => Build_str b
  | None => Ok "None"%string
  end.

Definition str_version (version : option Version) : result string :=
  match version with
  | Some ver => Version_str ver
  | None => Ok "None"%string
  end.

(** The message of [InvalidFieldForVersion] is an f-string, evaluated
    before the exception is built: [{self.supported_from}] and then
    [{version}] are turned into text with [str], and an exception of [str]
    leaves [clean] in place of [InvalidFieldForVersion].  Exceptions carry
    no message here, so the text is not kept. *)
Definition format_message (f : Field) (version : option Version) : result unit :=
  let* _ := str_build (supported_from f) in
  let* _ := str_version version in
  Ok tt.

(** [Field.clean]. *)
Definition Field_clean (f : Field) (v : value) (version : option Version) : result value :=
  if match version with
     | Some ver => negb (supports_version f ver)
     | None => false
     end
  then let* _ := format_message f version in Raise InvalidFieldForVersion
  else match v with
       | VNone =>
           if is_required f && is_none (default f)
           then Raise ValueError
           else Ok (default f)
       | _ =>
           if is_list f
           then match v with
                | VList l =>
                    if forallb (fun x => isinstance x (value_cls f)) l
                    then Ok v else Raise TypeError
                | _ => Raise TypeError
                end
           else if isinstance v (value_cls f) then Ok v else Raise TypeError
       end.

(** *** Conversions between values and XML text (util.py) *)

(** [value_to_xml_text]; the test for [str] comes first, then the one for
    [bool], then the one for [int]. *)
Definition value_to_xml_text (v : value) : result string :=
  match v with
  | VStr s => Ok (safe_xml_value s)
  | VBool b => Ok (if b then "1" else "0")%string
  | VInt z => Ok (py_str z)
  | VNone | VList _ => Raise TypeError
  end.

(** [xml_text_to_value]. *)
Definition xml_text_to_value (t : string) (c : cls) : result value :=
  match c with
  | ClsStr => Ok (VStr t)
  | ClsBool =>
      let l := lower t in
      if String.eqb l "true" || String.eqb l "on" then Ok (VBool true)
      else if String.eqb l "false" || String.eqb l "off" then Ok (VBool false)
      else Ok VNone
  | ClsInt =>
      match py_int t with
      | Some z => Ok (VInt z)
      | None => Raise ValueError
      end
  end.

(** [set_xml_value(elem, value)] for the values of the modelled fields; a
    list is iterated, and [None] is an unsupported type. *)
Fixpoint set_xml_value (elem : element) (v : value) : result element :=
  match v with
  | VNone => Raise ValueError
  | VList l =>
      (fix each (l : list value) (elem : element) : result element :=
         match l with
         | [] => Ok elem
         | x :: l' => let* elem' := set_xml_value elem x in each l' elem'
         end) l elem
  | _ => let* t := value_to_xml_text v in Ok (set_text elem t)
  end.

(** *** [FieldURIField] and its subclasses (fields.py) *)

(** [field_uri_postfix], set in [FieldURIField.__init__]. *)
Definition field_uri_postfix (f : Field) : option string :=
  match field_uri f with
  | None => None
  | Some u =>
      if has_colon u
      then match split_colon u with
           | _ :: p :: _ => Some p
           | _ => None
           end
      else Some u
  end.

Definition missing (p : option string) : bool :=
  match p with
  | None | Some EmptyString => true
  | _ => false
  end.

(** [request_tag] and [response_tag]. *)
Definition request_tag (f : Field) : result string :=
  if missing (field_uri_postfix f) then Raise ValueError
  else Ok ("t:" ++ from_option id EmptyString (field_uri_postfix f))%string.

Definition response_tag (f : Field) : result string :=
  if missing (field_uri_postfix f) then Raise ValueError
  else Ok ("{" ++ namespace f ++ "}" ++ from_option id EmptyString (field_uri_postfix f))%string.

(** [FieldURIField._get_val_from_elem]. *)
Definition _get_val_from_elem (f : Field) (elem : element) : result (option string) :=
  if is_attribute f
  then match field_uri f with
       | None => Raise TypeError
       | Some u => Ok (or_None (attr_get u (attrib_of elem)))
       end
  else let* t := response_tag f in Ok (get_xml_attr elem t).

(** [FieldURIField.from_xml]. *)
Definition Field_from_xml (f : Field) (elem : element) : result value :=
  let* val := _get_val_from_elem f elem in
  match val with
  | Some t =>
      match xml_text_to_value t (value_cls f) with
      | Raise ValueError => Ok VNone
      | r => r
      end
  | None => Ok (default f)
  end.

(** [FieldURIField.to_xml]. *)
Definition Field_to_xml (f : Field) (v : value) : result element :=
  let* t := request_tag f in
  let* field_elem := create_element t [] in
  set_xml_value field_elem v.

(** [len(value)]. *)
Definition py_len (v : value) : result nat :=
  match v with
  | VStr s => Ok (String.length s)
  | VList l => Ok (length l)
  | _ => Raise TypeError
  end.

(** The integer that a value compares as with an [int]: [v < self.min] is
    a [TypeError] for a value that is no number. *)
Definition as_int (v : value) : result Z :=
  match v with
  | VInt z => Ok z
  | VBool b => Ok (if b then 1 else 0)
  | _ => Raise TypeError
  end.

(** [clean] as the class of the field has it: [CharField.clean] and
    [IntegerField.clean] call [Field.clean] and then check the length and
    the bounds; [IntegerField._clean_single_value] compares the value with a
    bound only when the bound is set. *)
Definition clean (f : Field) (v : value) (version : option Version) : result value :=
  let* v := Field_clean f v version in
  match field_class_of f with
  | TextField | BooleanField => Ok v
  | CharField max_length =>
      if is_none v then Ok v
      else let* n := py_len v in
           if (max_length <? n)%nat then Raise ValueError else Ok v
  | IntegerField min max =>
      if is_none v then Ok v
      else
        let* below := match min with
                      | Some m => let* z := as_int v in Ok (z <? m)
                      | None => Ok false
                      end in
        if below then Raise ValueError
        else
          let* above := match max with
                        | Some m => let* z := as_int v in Ok (z >? m)
                        | None => Ok false
                        end in
          if above then Raise ValueError else Ok v
  end.

(** *** [EWSElement] (properties.py) *)

(** A subclass of [EWSElement] as far as marshaling reads it. *)
Record EWSClass := mkClass {
  ELEMENT_NAME : option string;
  NAMESPACE : string;
  FIELDS : list Field;
}.

(** [EWSElement.__init__] with keyword arguments: every field gets its keyword
    argument or [None]; a keyword that is no field is an error. *)
Definition EWSElement_init (c : EWSClass) (kwargs : gmap string value)
  : result (gmap string value) :=
  if decide (dom kwargs ⊆ list_to_set (map name (FIELDS c)))
  then Ok (fold_left (fun self f => <[name f := from_option id VNone (kwargs !! name f)]> self)
                     (FIELDS c) ∅)
  else Raise AttributeError.

(** The loop of [EWSElement.clean]. *)
Fixpoint clean_fields (fs : list Field) (version : option Version) (self : gmap string value)
  : result (gmap string value) :=
  match fs with
  | [] => Ok self
  | f :: fs' =>
      if match version with
         | Some ver => negb (supports_version f ver)
         | None => false
         end
      then clean_fields fs' version self
      else match self !! name f with
           | None => Raise AttributeError
           | Some val =>
               let* val' := clean f val version in
               clean_fields fs' version (<[name f := val']> self)
           end
  end.

Definition EWSElement_clean (c : EWSClass) (version : option Version)
    (self : gmap string value) : result (gmap string value) :=
  clean_fields (FIELDS c) version self.

(** [EWSElement.request_tag]. *)
Definition class_request_tag (c : EWSClass) : result string :=
  match ELEMENT_NAME c with
  | None | Some EmptyString => Raise ValueError
  | Some n =>
      if String.eqb (NAMESPACE c) TNS then Ok ("t:" ++ n)%string
      else if String.eqb (NAMESPACE c) MNS then Ok ("m:" ++ n)%string
      else Raise KeyError
  end.

(** [f.supports_version(version)] where [version] may be [None]. *)
Definition supports_version_opt (f : Field) (version : option Version) : result bool :=
  match version with
  | Some ver => Ok (supports_version f ver)
  | None =>
      match supported_from f, deprecated_from f with
      | None, None => Ok true
      | _, _ => Raise AttributeError
      end
  end.

(** [attribute_fields] and [supported_fields]. *)
Definition attribute_fields (c : EWSClass) : list Field :=
  List.filter is_attribute (FIELDS c).

Fixpoint supported_among (fs : list Field) (version : option Version) : result (list Field) :=
  match fs with
  | [] => Ok []
  | f :: fs' =>
      if is_attribute f then supported_among fs' version
      else let* b := supports_version_opt f version in
           let* rest := supported_among fs' version in
           Ok (if b then f :: rest else rest)
  end.

Definition supported_fields (c : EWSClass) (version : option Version) : result (list Field) :=
  supported_among (FIELDS c) version.

(** The first loop of [to_xml]: the attributes.  [is_list] is [False] for
    the modelled classes, so a value is left out only when it is [None]. *)
Fixpoint collect_attrs (fs : list Field) (self : gmap string value)
    (attrs : list (string * string)) : result (list (string * string)) :=
  match fs with
  | [] => Ok attrs
  | f :: fs' =>
      if is_read_only f then collect_attrs fs' self attrs
      else match self !! name f with
           | None => Raise AttributeError
           | Some VNone => collect_attrs fs' self attrs
           | Some v =>
               let* t := value_to_xml_text v in
               match field_uri f with
               | None => Raise TypeError
               | Some u => collect_attrs fs' self (attr_set u t attrs)
               end
           end
  end.

(** The second loop of [to_xml]: the child elements. *)
Fixpoint add_elements (fs : list Field) (self : gmap string value) (elem : element)
  : result element :=
  match fs with
  | [] => Ok elem
  | f :: fs' =>
      if is_read_only f then add_elements fs' self elem
      else match self !! name f with
           | None => Raise AttributeError
           | Some VNone => add_elements fs' self elem
           | Some v =>
               let* child := Field_to_xml f v in
               add_elements fs' self (append_child elem child)
           end
  end.

(** [EWSElement.to_xml(version)]: the element, and the object as [clean]
    has left it. *)
Definition to_xml (c : EWSClass) (version : option Version) (self : gmap string value)
  : result (element * gmap string value) :=
  let* self := EWSElement_clean c version self in
  let* attrs := collect_attrs (attribute_fields c) self [] in
  let* t := class_request_tag c in
  let* elem := create_element t attrs in
  let* fs := supported_fields c version in
  let* elem := add_elements fs self elem in
  Ok (elem, self).

(** The dictionary comprehension of [from_xml]. *)
Fixpoint read_fields (fs : list Field) (elem : element) (kwargs : gmap string value)
  : result (gmap string value) :=
  match fs with
  | [] => Ok kwargs
  | f :: fs' =>
      let* v := Field_from_xml f elem in
      read_fields fs' elem (<[name f := v]> kwargs)
  end.

(** [EWSElement.from_xml(elem, account)]; the modelled fields do not read
    the account. *)
Definition from_xml (c : EWSClass) (elem : element) : result (gmap string value) :=
  let* kwargs := read_fields (FIELDS c) elem ∅ in
  EWSElement_init c kwargs.

(** What [EWSElement.__hash__] hashes: the values of the fields.
    [__eq__] compares the hashes; the hash is taken to tell these tuples
    apart. *)
Definition hash_key (c : EWSClass) (self : gmap string value) : list (option value) :=
  map (fun f => self !! name f) (FIELDS c).

Definition EWSElement_eq (c : EWSClass) (self other : gmap string value) : Prop :=
  hash_key c self = hash_key c other.

(** A field that marshals through a tag or attribute of its own in the
    types namespace, and whose default is of its value class. *)
Definition marshalable (c : EWSClass) (version : option Version) (f : Field) : Prop :=
  is_read_only f = false
  /\ supports_version_opt f version = Ok true
  /\ (exists u, field_uri f = Some u /\ has_colon u = false /\ u <> EmptyString)
  /\ namespace f = TNS
  /\ (default f = VNone \/ isinstance (default f) (value_cls f) = true).

(** A value that the XML text carries back: [None], a non-empty string
    without characters that are illegal in XML, or an integer. *)
Definition carried (v : value) : Prop :=
  match v with
  | VNone | VInt _ => True
  | VStr s => s <> EmptyString /\ safe_xml_value s = s
  | VBool _ | VList _ => False
  end.

(** The fields of a class marshal apart: no two have the same name, and
    no two attributes, and no two elements, have the same field URI. *)
Definition fields_apart (c : EWSClass) : Prop :=
  NoDup (map name (FIELDS c))
  /\ NoDup (map field_uri (List.filter is_attribute (FIELDS c)))
  /\ NoDup (map field_uri (List.filter (fun f => negb (is_attribute f)) (FIELDS c))).

(** What [clean] leaves in a field whose default is [None] or of the
    value class: [None] when that is the default, or an instance of the
    value class. *)
Definition typed (f : Field) (v : value) : Prop :=
  (v = VNone /\ default f = VNone) \/ isinstance v (value_cls f) = true.

(** The field URI and the text that the loops of [to_xml] write for a
    field, and all of them for a list of fields, in order. *)
Definition written (self : gmap string value) (f : Field) : option (string * string) :=
  match self !! name f, field_uri f with
  | Some v, Some u =>
      match value_to_xml_text v with
      | Ok t => Some (u, t)
      | Raise _ => None
      end
  | _, _ => None
  end.

Definition written_all (self : gmap string value) (fs : list Field)
  : list (string * string) :=
  omap (written self) fs.

(** The child element that carries a text under a field URI. *)
Definition child_of (ut : string * string) : element :=
  Element ("{" ++ TNS ++ "}" ++ ut.1) [] (Some ut.2) [].

(** A field that [to_xml] writes, or leaves out, without failing. *)
Definition writable (c : EWSClass) (version : option Version) (self : gmap string value)
    (f : Field) : Prop :=
  marshalable c version f /\ exists v, self !! name f = Some v /\ carried v.

(** The field holds a value that [to_xml] writes. *)
Definition holds_value (self : gmap string value) (f : Field) : bool :=
  match self !! name f with
  | None | Some VNone => false
  | Some _ => true
  end.

(** The tag of the child element that [to_xml] writes for a field. *)
Definition child_tag (f : Field) : string :=
  "{" ++ TNS ++ "}" ++ from_option id EmptyString (field_uri_postfix f).

(** The default of the field is [None] or an instance of its value
    class. *)
Definition default_typed (f : Field) : Prop :=
  default f = VNone \/ isinstance (default f) (value_cls f) = true.

End Fields.

Arguments Version : clear implicits.
Arguments Field : clear implicits.
Arguments EWSClass : clear implicits.

(** [str] and [int] on decimal numerals, from the Standard Library; [int]
    also accepts blanks around the numeral, a plus sign and underscores
    between digits, which this stand-in rejects. *)
Definition decimal_str (z : Z) : string := NilZero.string_of_int (Z.to_int z).
Definition decimal_int (s : string) : option Z :=
  option_map Z.of_int (NilZero.int_of_string s).

(** Stand-ins in examples, with builds standing as integers, for [str] on
    a build and on a version: [Version.__str__] names the version in full,
    and the full name is looked up by [api_version], a [KeyError] for an
    [api_version] that is not in the table. *)
Definition example_Build_str (b : Z) : result string := Ok (decimal_str b).

Definition example_Version_str (v : Version Z) : result string :=
  if String.eqb (api_version v) "Exchange2010"
  then Ok "Microsoft Exchange Server 2010"%string
  else if String.eqb (api_version v) "Exchange2013"
  then Ok "Microsoft Exchange Server 2013"%string
  else Raise KeyError.

(** A field declared with the defaults of [Field.__init__] and
    [FieldURIField.__init__]. *)
Definition declare {Build} (k : field_class) (n uri : string) : Field Build :=
  {| field_class_of := k;
     name := n;
     is_required := false;
     is_read_only := false;
     is_attribute := false;
     default := VNone;
     supported_from := None;
     deprecated_from := None;
     field_uri := Some uri;
     namespace := TNS |}.

(** The class [FailedMailbox] of properties.py. *)
Definition FailedMailbox : EWSClass Z :=
  {| ELEMENT_NAME := Some "FailedMailbox"%string;
     NAMESPACE := TNS;
     FIELDS := [declare (CharField 255) "mailbox" "Mailbox";
                declare (IntegerField None None) "error_code" "ErrorCode";
                declare (CharField 255) "error_message" "ErrorMessage";
                declare BooleanField "is_archive" "IsArchive"] |}.

(** A subclass of [EWSElement] with a read-only field, as the item classes
    have them:
    [class Probe(EWSElement): ELEMENT_NAME = "Probe";
       subject = CharField(field_uri="Subject");
       size = IntegerField(field_uri="Size", is_read_only=True)]. *)
Definition Probe : EWSClass Z :=
  {| ELEMENT_NAME := Some "Probe"%string;
     NAMESPACE := TNS;
     FIELDS := [declare (CharField 255) "subject" "Subject";
                {| field_class_of := IntegerField None None;
                   name := "size";
                   is_required := false;
                   is_read_only := true;
                   is_attribute := false;
                   default := VNone;
                   supported_from := None;
                   deprecated_from := None;
                   field_uri := Some "Size"%string;
                   namespace := TNS |}] |}.

(** Instances, as [__init__] builds them. *)
Definition instance (kwargs : list (string * value)) : gmap string value :=
  list_to_map kwargs.

(** [FailedMailbox(mailbox="a@b", error_code=12, error_message="oops")]
    and the element that [to_xml] builds from it. *)
Definition example_mailbox : gmap string value :=
  instance [("mailbox", VStr "a@b"); ("error_code", VInt 12);
            ("error_message", VStr "oops"); ("is_archive", VNone)]%string.

Definition example_mailbox_xml : element :=
  Element ("{" ++ TNS ++ "}FailedMailbox") [] None
    [Element ("{" ++ TNS ++ "}Mailbox") [] (Some "a@b") [];
     Element ("{" ++ TNS ++ "}ErrorCode") [] (Some "12") [];
     Element ("{" ++ TNS ++ "}ErrorMessage") [] (Some "oops") []]%string.

(** [FailedMailbox(mailbox="a@b", error_code=12, error_message="")], the
    element that [to_xml] builds from it, and the object that [from_xml]
    reads from that element. *)
Definition blank_message_mailbox : gmap string value :=
  instance [("mailbox", VStr "a@b"); ("error_code", VInt 12);
            ("error_message", VStr EmptyString); ("is_archive", VNone)]%string.

Definition blank_message_xml : element :=
  Element ("{" ++ TNS ++ "}FailedMailbox") [] None
    [Element ("{" ++ TNS ++ "}Mailbox") [] (Some "a@b") [];
     Element ("{" ++ TNS ++ "}ErrorCode") [] (Some "12") [];
     Element ("{" ++ TNS ++ "}ErrorMessage") [] (Some EmptyString) []]%string.

Definition blank_message_read : gmap string value :=
  instance [("mailbox", VStr "a@b"); ("error_code", VInt 12);
            ("error_message", VNone); ("is_archive", VNone)]%string.

(** [FailedMailbox(mailbox="a@b", error_code=12, error_message="oops",
    is_archive=True)], its element, and the object read from it. *)
Definition archive_mailbox : gmap string value :=
  instance [("mailbox", VStr "a@b"); ("error_code", VInt 12);
            ("error_message", VStr "oops"); ("is_archive", VBool true)]%string.

Definition archive_xml : element :=
  Element ("{" ++ TNS ++ "}FailedMailbox") [] None
    [Element ("{" ++ TNS ++ "}Mailbox") [] (Some "a@b") [];
     Element ("{" ++ TNS ++ "}ErrorCode") [] (Some "12") [];
     Element ("{" ++ TNS ++ "}ErrorMessage") [] (Some "oops") [];
     Element ("{" ++ TNS ++ "}IsArchive") [] (Some "1") []]%string.

Definition archive_read : gmap string value :=
  instance [("mailbox", VStr "a@b"); ("error_code", VInt 12);
            ("error_message", VStr "oops"); ("is_archive", VNone)]%string.

(** Exchange 2013, with builds standing as integers. *)
Definition example_version : option (Version Z) :=
  Some (mkVersion 15 "Exchange2013"%string).

(** A required [CharField] without default that Exchange supports from
    build 15 on, with builds standing as integers. *)
Definition example_gated_field : Field Z :=
  {| field_class_of := CharField 255;
     name := "reminder_text";
     is_required := true;
     is_read_only := false;
     is_attribute := false;
     default := VNone;
     supported_from := Some 15;
     deprecated_from := None;
     field_uri := Some "ReminderText"%string;
     namespace := "http://schemas.microsoft.com/exchange/services/2006/types" |}.

End Metamodel.

(** ** util.py and protocol.py: [post_ratelimited] and the retry policies *)

Module Retry.

(** A response as [post_ratelimited] and the policies read it.  Header names
    are looked up as given. *)
Record Response := mkResponse {
  status_code : Z;
  headers : list (string * string);
  content : string;
  url : string;
}.

(** [headers.get(key)]. *)
Fixpoint get (key : string) (hs : list (string * string)) : option string :=
  match hs with
  | [] => None
  | (k, v) :: hs' => if String.eqb k key then Some v else get key hs'
  end.

(** Truth value of [headers.get(key)]. *)
Definition truthy (v : option string) : bool :=
  match v with
  | Some s => negb (String.eqb s "")
  | None => false
  end.

(** [DummyResponse(url=url, headers=headers, status_code=status_code)]; a
    header that holds an exception object is kept as its class name. *)
Definition DummyResponse (url : string) (headers : list (string * string)) (status_code : Z)
  : Response :=
  mkResponse status_code headers "" url.

Definition RETRY_WAIT : Z := 10.
Definition MAX_REDIRECTS : Z := 10.
Definition DEFAULT_BACKOFF : Z := 60.

(** The interface [RetryPolicy]: the state of a policy is threaded through
    the calls; clock readings ([datetime.datetime.now()]) and waits are in
    seconds. *)
Class RetryPolicy (P : Type) := {
  fail_fast : P -> bool;
  back_off_until : Z -> P -> P * option Z;
  back_off : option Z -> Z -> P -> result P;
  may_retry_on_error : Response -> Z -> P -> result bool;
}.

(** [FailFast]. *)
Inductive FailFast : Type := mkFailFast.

#[global] Instance FailFast_policy : RetryPolicy FailFast := {
  fail_fast _ := true;
  back_off_until _ p := (p, None);
  back_off _ _ _ := Raise ValueError;
  may_retry_on_error _ _ _ := Ok false;
}.

(** [FaultTolerance]. *)
Record FaultTolerance := mkFaultTolerance {
  max_wait : Z;
  _back_off_until : option Z;
}.

Definition FaultTolerance_back_off_until (now : Z) (p : FaultTolerance)
  : FaultTolerance * option Z :=
  match _back_off_until p with
  | None => (p, None)
  | Some t =>
      if t <? now then (mkFaultTolerance (max_wait p) None, None)
      else (p, Some t)
  end.

Definition FaultTolerance_back_off (seconds : option Z) (now : Z) (p : FaultTolerance)
  : result FaultTolerance :=
  let seconds := match seconds with None => DEFAULT_BACKOFF | Some s => s end in
  Ok (mkFaultTolerance (max_wait p) (Some (now + seconds))).

Definition FaultTolerance_may_retry_on_error (response : Response) (wait : Z)
    (p : FaultTolerance) : result bool :=
  let sc := status_code response in
  if negb ((sc =? 301) || (sc =? 302) || (sc =? 401) || (sc =? 500) || (sc =? 503))
  then Ok false
  else if wait >? max_wait p then Raise RateLimitError
  else if sc =? 401 then Ok true
  else if match get "connection" (headers response) with
          | Some v => String.eqb v "close"
          | None => false
          end
  then Ok true
  else if (sc =? 302)
          && String.eqb (lower (default ""%string (get "location" (headers response))))
                        "/ews/genericerrorpage.htm?aspxerrorpath=/ews/exchange.asmx"
  then Ok true
  else if sc =? 503 then Ok true
  else if (sc =? 500) && contains "Server Error in '/EWS' Application" (content response)
  then Ok true
  else Ok false.

#[global] Instance FaultTolerance_policy : RetryPolicy FaultTolerance := {
  fail_fast _ := false;
  back_off_until := FaultTolerance_back_off_until;
  back_off := FaultTolerance_back_off;
  may_retry_on_error := FaultTolerance_may_retry_on_error;
}.

(** [is_xml(text)] with the default prefix; [BOM_UTF8] is the three bytes
    EF BB BF. *)
Definition BOM_UTF8 : string :=
  String (ascii_of_nat 239) (String (ascii_of_nat 187) (String (ascii_of_nat 191) EmptyString)).

Definition is_xml (text : string) : bool :=
  let bom_len := String.length BOM_UTF8 in
  let prefix_len := String.length "<?xml" in
  let prefix :=
    if String.eqb (substring 0 bom_len text) BOM_UTF8
    then substring bom_len prefix_len text
    else substring 0 prefix_len text in
  String.eqb prefix "<?xml".

(** What one turn of the [while True] loop reads from the outside world. *)
Inductive post_outcome : Type :=
  | PostReturns (r : Response)
  | PostTLSError (msg : string)
  | PostConnectionError
  | PostTokenExpired
  | PostKeyError (arg : string)
  | PostRaises (e : exn).

Record turn := mkTurn {
  now_until : Z;       (* the clock when back_off_until is read *)
  now_sleep : Z;       (* the clock in _back_off_if_needed *)
  post : post_outcome; (* what session.post does *)
  total_wait : Z;      (* time.monotonic() - t_start *)
  now_back_off : Z;    (* the clock in back_off *)
}.

(** What the function does that can be seen from outside. *)
Inductive event : Type :=
  | EvSleep (secs : Z)
  | EvRenewSession
  | EvPost (url : string)
  | EvRefreshCredentials
  | EvBackOff (r : Response) (seconds : Z)
  | EvRedirect (url : string)
  | EvRetireSession.

(** How a run ends; [Pending] is a run that has used up the turns it was
    given and is about to post again. *)
Inductive final : Type :=
  | Returned (r : Response)
  | Raised (e : exn)
  | Pending.

Section PostRatelimited.
(** [int] and [urllib.parse.urlparse] (through [split_url], which returns
    whether the scheme is https, the lower-cased netloc and the path) are
    Python's. *)
Context (py_int : string -> option Z).
Context (split_url : string -> bool * string * string).
Context {P : Type} `{RetryPolicy P}.

(** [_retry_after]. *)
Definition _retry_after (r : Response) (wait : Z) : Z :=
  match py_int (default "0"%string (get "Retry-After" (headers r))) with
  | None => wait
  | Some retry_after => if retry_after >? wait then retry_after else wait
  end.

(** [_need_new_credentials]. *)
Definition _need_new_credentials (response : Response) : bool :=
  (status_code response =? 401) && truthy (get "TokenExpiredError" (headers response)).

(** The exceptions of [get_redirect_url]: [RelativeRedirect] carries the
    URL, and is not among the exceptions that leave [post_ratelimited]. *)
Inductive redirect_result : Type :=
  | RedirectTo (url : string)
  | RelativeRedirect (url : string)
  | RedirectFails (e : exn).

Definition starts_with_slash (s : string) : bool :=
  match s with
  | String c _ => Ascii.eqb c "/"
  | EmptyString => false
  end.

(** [get_redirect_url(response, allow_relative, require_relative)];
    [response.history] is empty, as requests are sent with
    [allow_redirects=False]. *)
Definition get_redirect_url (response : Response) (allow_relative require_relative : bool)
  : redirect_result :=
  match get "location" (headers response) with
  | None | Some EmptyString => RedirectFails (TransportError "HTTP redirect but no location header")
  | Some redirect_url =>
      let '(redirect_has_ssl, redirect_server, redirect_path) := split_url redirect_url in
      let request_url := url response in
      let '(request_has_ssl, request_server, _) := split_url request_url in
      let '(response_has_ssl, response_server, response_path) := split_url (url response) in
      let '(redirect_server, redirect_has_ssl) :=
        if String.eqb redirect_server ""
        then (response_server, response_has_ssl)
        else (redirect_server, redirect_has_ssl) in
      let redirect_path :=
        if negb (starts_with_slash redirect_path)
        then ((if String.eqb response_path "" then "/" else response_path) ++ redirect_path)%string
        else redirect_path in
      let redirect_url :=
        ((if redirect_has_ssl then "https" else "http") ++ "://" ++ redirect_server
         ++ redirect_path)%string in
      if String.eqb redirect_url request_url
      then RedirectFails (TransportError "Redirect to same location")
      else if negb allow_relative
              && (Bool.eqb request_has_ssl response_has_ssl
                  && String.eqb request_server redirect_server)
      then RelativeRedirect redirect_url
      else if require_relative
              && (negb (Bool.eqb request_has_ssl response_has_ssl)
                  || negb (String.eqb request_server redirect_server))
      then RelativeRedirect redirect_url
      else RedirectTo redirect_url
  end.

(** [_redirect_or_fail]. *)
Definition _redirect_or_fail (response : Response) (redirects : Z) (allow_redirects : bool)
  : result (string * Z) :=
  match get_redirect_url response false false with
  | RelativeRedirect _ => Raise RedirectError
  | RedirectFails e => Raise e
  | RedirectTo redirect_url =>
      if negb allow_redirects
      then Raise (TransportError "Redirect not allowed but we were redirected")
      else
        let redirects := redirects + 1 in
        if redirects >? MAX_REDIRECTS
        then Raise (TransportError "Max redirect count exceeded")
        else Ok (redirect_url, redirects)
  end.

(** [RetryPolicy.raise_response_errors]; it always raises. *)
Definition raise_response_errors (p : P) (response : Response) : exn :=
  if truthy (get "X-CasErrorCode" (headers response)) then CASError
  else if (status_code response =? 500)
          && (contains "The specified server version is invalid" (content response)
              || contains "ErrorInvalidSchemaVersionForMailboxVersion" (content response))
  then ErrorInvalidSchemaVersionForMailboxVersion
  else if contains "The referenced account is currently locked out" (content response)
  then UnauthorizedError
  else if (status_code response =? 401) && fail_fast p then UnauthorizedError
  else match get "TimeoutException" (headers response) with
       | Some _ => ConnectionError
       | None => MalformedResponseError
       end.

(** The local variables of [post_ratelimited] that the loop changes. *)
Record locals := mkLocals {
  wait : Z;
  retry : Z;
  redirects : Z;
  cur_url : string;
  policy : P;
}.

(** What [session.post] leaves in [r], or the exception that leaves the
    [try]. *)
Definition posted (u : string) (o : post_outcome) : result Response :=
  match o with
  | PostReturns r => Ok r
  | PostTLSError msg => Raise (TransportError msg)
  | PostConnectionError =>
      Ok (DummyResponse u [("TimeoutException", "ConnectionError")]%string 503)
  | PostTokenExpired =>
      Ok (DummyResponse u [("TokenExpiredError", "TokenExpiredError")]%string 401)
  | PostKeyError arg =>
      if String.eqb arg "www-authenticate"
      then Ok (DummyResponse u [("KeyError", "KeyError")]%string 503)
      else Raise KeyError
  | PostRaises e => Raise e
  end.

(** The statements after the loop. *)
Definition after_loop (p : P) (r : Response) : list event * final :=
  if (status_code r =? 500) && negb (String.eqb (content r) "") && is_xml (content r)
  then ([], Returned r)
  else if negb (status_code r =? 200)
  then ([EvRetireSession], Raised (raise_response_errors p r))
  else ([], Returned r).

(** The [while True] loop, one turn of the outside world per iteration,
    followed by the exception handlers and the statements after the loop.
    An exception inside the loop retires the session and is raised again. *)
Fixpoint loop (allow_redirects : bool) (turns : list turn) (l : locals)
  : list event * final :=
  match turns with
  | [] => ([], Pending)
  | t :: turns' =>
      let '(p, until) := back_off_until (now_until t) (policy l) in
      let slept :=
        match until with
        | Some u => if u - now_sleep t >? 0 then [EvSleep (u - now_sleep t); EvRenewSession] else []
        | None => []
        end in
      let l := mkLocals (wait l) (retry l) (redirects l) (cur_url l) p in
      let continue (evs : list event) (l' : locals) :=
        let '(tr, f) := loop allow_redirects turns' l' in
        (slept ++ EvPost (cur_url l) :: evs ++ tr, f) in
      let stop (evs : list event) (f : final) :=
        (slept ++ EvPost (cur_url l) :: evs, f) in
      match posted (cur_url l) (post t) with
      | Raise e => stop [EvRetireSession] (Raised e)
      | Ok r =>
          if _need_new_credentials r
          then continue [EvRefreshCredentials] l
          else
            match may_retry_on_error r (total_wait t) p with
            | Raise e => stop [EvRetireSession] (Raised e)
            | Ok true =>
                let wait' := _retry_after r (wait l) in
                match back_off (Some wait') (now_back_off t) p with
                | Raise e => stop [EvBackOff r wait'; EvRetireSession] (Raised e)
                | Ok p' =>
                    continue [EvBackOff r wait']
                      (mkLocals (wait' * 2) (retry l + 1) (redirects l) (cur_url l) p')
                end
            | Ok false =>
                if (status_code r =? 301) || (status_code r =? 302)
                then match _redirect_or_fail r (redirects l) allow_redirects with
                     | Raise e => stop [EvRetireSession] (Raised e)
                     | Ok (u, n) =>
                         continue [EvRedirect u] (mkLocals (wait l) (retry l) n u p)
                     end
                else
                  let '(evs, f) := after_loop p r in
                  stop evs f
            end
      end
  end.

(** [post_ratelimited(protocol, session, url, headers, data, allow_redirects)]
    with [protocol.retry_policy = p]. *)
Definition post_ratelimited (p : P) (url : string) (allow_redirects : bool)
    (turns : list turn) : list event * final :=
  loop allow_redirects turns (mkLocals RETRY_WAIT 0 0 url p).

End PostRatelimited.

(** The waits handed to [back_off], each with the response that caused the
    retry. *)
Fixpoint back_offs (tr : list event) : list (Response * Z) :=
  match tr with
  | [] => []
  | EvBackOff r d :: tr' => (r, d) :: back_offs tr'
  | _ :: tr' => back_offs tr'
  end.

(** How often an event of a kind occurs. *)
Definition is_post (e : event) : bool := match e with EvPost _ => true | _ => false end.
Definition is_refresh (e : event) : bool :=
  match e with EvRefreshCredentials => true | _ => false end.
Definition is_redirect (e : event) : bool := match e with EvRedirect _ => true | _ => false end.
Fixpoint count (f : event -> bool) (tr : list event) : nat :=
  match tr with
  | [] => 0
  | e :: tr' => (if f e then 1 else 0) + count f tr'
  end.

(** The delays of an exponential back-off that starts at [w]: each delay is
    the current wait, or the Retry-After value when that parses as an integer
    above the current wait; the next wait is twice the delay. *)
Fixpoint doubling_chain (py_int : string -> option Z) (w : Z) (ds : list (Response * Z)) : Prop :=
  match ds with
  | [] => True
  | (r, d) :: ds' =>
      match py_int (default "0"%string (get "Retry-After" (headers r))) with
      | Some n => if n >? w then d = n else d = w
      | None => d = w
      end
      /\ w <= d
      /\ doubling_chain py_int (2 * d) ds'
  end.

Definition is_retire (e : event) : bool :=
  match e with EvRetireSession => true | _ => false end.

(** A response that [post_ratelimited] returns to its caller: status 200,
    or status 500 with content that looks like XML. *)
Definition useful (r : Response) : Prop :=
  status_code r = 200
  \/ (status_code r = 500 /\ content r <> EmptyString /\ is_xml (content r) = true).

(** The status codes that [FaultTolerance] hopes to recover from. *)
Definition recoverable (sc : Z) : Prop :=
  sc = 301 \/ sc = 302 \/ sc = 401 \/ sc = 500 \/ sc = 503.

(** The back-offs of retries in a row, in the words of the documentation:
    the delay starts at [w]; a Retry-After header whose integer value
    exceeds the current delay replaces it; the delay is doubled after the
    attempt. *)
Fixpoint documented_delays (py_int : string -> option Z) (w : Z) (rs : list Response)
  : list (Response * Z) :=
  match rs with
  | [] => []
  | r :: rs' =>
      let d := match py_int (default "0"%string (get "Retry-After" (headers r))) with
               | Some n => if n >? w then n else w
               | None => w
               end in
      (r, d) :: documented_delays py_int (2 * d) rs'
  end.

(** A turn at which [post_ratelimited] is to retry under [FaultTolerance]:
    the post to [u] leaves the response [r], which does not ask for new
    credentials and which [may_retry_on_error] accepts at the time waited
    so far. *)
Definition retried (p : FaultTolerance) (u : string) (t : turn) (r : Response) : Prop :=
  posted u (post t) = Ok r
  /\ _need_new_credentials r = false
  /\ FaultTolerance_may_retry_on_error r (total_wait t) p = Ok true.

End Retry.

(** ** queryset.py: chaining on [QuerySet] *)

Module QuerySets.

Inductive request_type_t : Type := ITEM | PERSONA.
Inductive return_format_t : Type := VALUES | VALUES_LIST | FLAT | NONE.

Section Store.
(** [Q] comes from restriction.py: [QVal] is the state of a [Q] object,
    [Q_empty] that of [Q()], [Q_never] that of [Q(conn_type=Q.NEVER)]; [&]
    and [~] return new objects.  [FieldPath] objects are never changed after
    they are built. *)
Context {QVal FieldPath : Type}.
Context (Q_empty Q_never : QVal) (Q_and : QVal -> QVal -> QVal) (Q_not : QVal -> QVal).
Context (Q_is_never : QVal -> bool).

(** A [FieldOrder] object; [reverse()] flips its [reverse] attribute in
    place. *)
Record FieldOrder := mkFieldOrder {
  field_path : FieldPath;
  reverse : bool;
}.

(** The attributes [QuerySet.__init__] sets.  [q] is the address of a [Q]
    object and [order_fields] a tuple of addresses of [FieldOrder] objects;
    [folder_collection] and [calendar_view] are the identities of objects
    that chaining shares. *)
Record QuerySet := mkQuerySet {
  folder_collection : nat;
  request_type : request_type_t;
  q : nat;
  only_fields : option (list FieldPath);
  order_fields : option (list nat);
  return_format : return_format_t;
  calendar_view : option nat;
  page_size : option Z;
  chunk_size : option Z;
  max_items : option Z;
  offset : Z;
  _depth : option string;
}.

(** The objects that chaining reads, creates and writes. *)
Record store := mkStore {
  qsets : gmap nat QuerySet;
  qobjs : gmap nat QVal;
  forders : gmap nat FieldOrder;
}.

(** A method runs on the store and returns or raises. *)
Definition M (A : Type) : Type := store -> store * result A.

Definition ret {A} (a : A) : M A := fun h => (h, Ok a).
Definition throw {A} (e : exn) : M A := fun h => (h, Raise e).
Definition mbind {A B} (m : M A) (k : A -> M B) : M B :=
  fun h => match m h with
           | (h', Ok a) => k a h'
           | (h', Raise e) => (h', Raise e)
           end.

Notation "'do' x '<-' m ';' k" := (mbind m (fun x => k))
  (at level 10, x name, m at level 100, k at level 200).

(** Object creation: the new object gets an address no object has. *)
Definition new_q (v : QVal) : M nat :=
  fun h => let a := fresh (dom (qobjs h)) in
           (mkStore (qsets h) (<[a := v]> (qobjs h)) (forders h), Ok a).

Definition new_forder (v : FieldOrder) : M nat :=
  fun h => let a := fresh (dom (forders h)) in
           (mkStore (qsets h) (qobjs h) (<[a := v]> (forders h)), Ok a).

Definition new_qset (v : QuerySet) : M nat :=
  fun h => let a := fresh (dom (qsets h)) in
           (mkStore (<[a := v]> (qsets h)) (qobjs h) (forders h), Ok a).

(** Attribute reads and writes through an address. *)
Definition get_qset (a : nat) : M QuerySet :=
  fun h => match qsets h !! a with
           | Some v => (h, Ok v)
           | None => (h, Raise AttributeError)
           end.

Definition get_q (a : nat) : M QVal :=
  fun h => match qobjs h !! a with
           | Some v => (h, Ok v)
           | None => (h, Raise AttributeError)
           end.

Definition get_forder (a : nat) : M FieldOrder :=
  fun h => match forders h !! a with
           | Some v => (h, Ok v)
           | None => (h, Raise AttributeError)
           end.

Definition set_qset (a : nat) (v : QuerySet) : M unit :=
  fun h => (mkStore (<[a := v]> (qsets h)) (qobjs h) (forders h), Ok tt).

Fixpoint mapM {A B} (f : A -> M B) (l : list A) : M (list B) :=
  match l with
  | [] => ret []
  | x :: l' => do y <- f x; do ys <- mapM f l'; ret (y :: ys)
  end.

(** [deepcopy] of a [Q] object and of a tuple of [FieldOrder] objects. *)
Definition deepcopy_q (a : nat) : M nat :=
  do v <- get_q a; new_q v.

Definition deepcopy_order_fields (l : list nat) : M (list nat) :=
  mapM (fun a => do v <- get_forder a; new_forder v) l.

Definition with_q (a : nat) (s : QuerySet) : QuerySet :=
  mkQuerySet (folder_collection s) (request_type s) a (only_fields s) (order_fields s)
    (return_format s) (calendar_view s) (page_size s) (chunk_size s) (max_items s)
    (offset s) (_depth s).

Definition with_only_fields (f : option (list FieldPath)) (s : QuerySet) : QuerySet :=
  mkQuerySet (folder_collection s) (request_type s) (q s) f (order_fields s)
    (return_format s) (calendar_view s) (page_size s) (chunk_size s) (max_items s)
    (offset s) (_depth s).

Definition with_order_fields (o : option (list nat)) (s : QuerySet) : QuerySet :=
  mkQuerySet (folder_collection s) (request_type s) (q s) (only_fields s) o
    (return_format s) (calendar_view s) (page_size s) (chunk_size s) (max_items s)
    (offset s) (_depth s).

(** [QuerySet.__init__(folder_collection, request_type)]. *)
Definition QuerySet_init (fc : nat) (rt : request_type_t) : M nat :=
  do qa <- new_q Q_empty;
  new_qset (mkQuerySet fc rt qa None None NONE None None None None 0 None).

(** [_copy_self]. *)
Definition _copy_self (self : nat) : M nat :=
  do s <- get_qset self;
  do new_qs <- QuerySet_init (folder_collection s) (request_type s);
  do n <- get_qset new_qs;
  do qa <- deepcopy_q (q s);
  do oa <- match order_fields s with
           | None => ret None
           | Some l => do l' <- deepcopy_order_fields l; ret (Some l')
           end;
  do _ <- set_qset new_qs
            (mkQuerySet (folder_collection n) (request_type n) qa (only_fields s) oa
               (return_format s) (calendar_view s) (page_size s) (chunk_size s)
               (max_items s) (offset s) (_depth s));
  ret new_qs.

(** [all]. *)
Definition all (self : nat) : M nat := _copy_self self.

(** [none]. *)
Definition none (self : nat) : M nat :=
  do new_qs <- _copy_self self;
  do qa <- new_q Q_never;
  do n <- get_qset new_qs;
  do _ <- set_qset new_qs (with_q qa n);
  ret new_qs.

(** [filter]; [args] is what building [Q] from the arguments gives. *)
Definition filter (args : result QVal) (self : nat) : M nat :=
  do new_qs <- _copy_self self;
  match args with
  | Raise e => throw e
  | Ok v =>
      do qa <- new_q v;
      do n <- get_qset new_qs;
      do v1 <- get_q (q n);
      do v2 <- get_q qa;
      do r <- new_q (Q_and v1 v2);
      do _ <- set_qset new_qs (with_q r n);
      ret new_qs
  end.

(** [exclude]. *)
Definition exclude (args : result QVal) (self : nat) : M nat :=
  do new_qs <- _copy_self self;
  match args with
  | Raise e => throw e
  | Ok v =>
      do qa0 <- new_q v;
      do v0 <- get_q qa0;
      do qa <- new_q (Q_not v0);
      do n <- get_qset new_qs;
      do v1 <- get_q (q n);
      do v2 <- get_q qa;
      do r <- new_q (Q_and v1 v2);
      do _ <- set_qset new_qs (with_q r n);
      ret new_qs
  end.

(** The [try] of [only] and [order_by]: a [ValueError] (with its
    subclasses, of which [InvalidField] is one) is raised anew as
    [ValueError]; other exceptions pass. *)
Fixpoint resolve_all {A} (l : list (result A)) : result (list A) :=
  match l with
  | [] => Ok []
  | Ok a :: l' => match resolve_all l' with Ok r => Ok (a :: r) | Raise e => Raise e end
  | Raise e :: _ => Raise e
  end.

(** [only]; [args] holds what [_get_field_path] gives for each argument. *)
Definition only (args : list (result FieldPath)) (self : nat) : M nat :=
  match resolve_all args with
  | Raise e => throw e
  | Ok only_fields =>
      do new_qs <- _copy_self self;
      do n <- get_qset new_qs;
      do _ <- set_qset new_qs (with_only_fields (Some only_fields) n);
      ret new_qs
  end.

(** [order_by]; [args] holds what [_get_field_order] gives for each
    argument, each a new [FieldOrder] object. *)
Definition order_by (args : list (result FieldOrder)) (self : nat) : M nat :=
  match resolve_all args with
  | Raise e => throw e
  | Ok fos =>
      do order_fields <- mapM new_forder fos;
      do new_qs <- _copy_self self;
      do n <- get_qset new_qs;
      do _ <- set_qset new_qs (with_order_fields (Some order_fields) n);
      ret new_qs
  end.

(** [__iter__], run to its end: nothing is fetched for a query that never
    matches; otherwise the server is queried ([_query]) and its results are
    yielded.  No attribute of the query set is assigned.  The number counts
    the queries sent so far. *)
Definition QuerySet_iter {Item : Type} (server : list Item) (self : nat) (queries : nat)
  : M (list Item * nat) :=
  do s <- get_qset self;
  do v <- get_q (q s);
  if Q_is_never v then ret ([], queries) else ret (server, S queries).

(** The chaining methods the documentation lists. *)
Inductive chain_call : Type :=
  | CallFilter (args : result QVal)
  | CallExclude (args : result QVal)
  | CallOnly (args : list (result FieldPath))
  | CallOrderBy (args : list (result FieldOrder))
  | CallNone
  | CallAll.

Definition chain (c : chain_call) (self : nat) : M nat :=
  match c with
  | CallFilter args => filter args self
  | CallExclude args => exclude args self
  | CallOnly args => only args self
  | CallOrderBy args => order_by args self
  | CallNone => none self
  | CallAll => all self
  end.

(** Every object of [h] is in [h'] as it was. *)
Definition preserved (h h' : store) : Prop :=
  qsets h ⊆ qsets h' /\ qobjs h ⊆ qobjs h' /\ forders h ⊆ forders h'.

(** From [h] to [h'] no query set has changed and no object has been lost
    or changed. *)
Definition grows (h h' : store) : Prop :=
  qsets h' = qsets h /\ qobjs h ⊆ qobjs h' /\ forders h ⊆ forders h'.

(** A property of the store that creating objects does not break. *)
Definition stable (P : store -> Prop) : Prop :=
  forall h h', P h -> grows h h' -> P h'.

(** A property of the store that does not look at the query sets. *)
Definition qsets_free (P : store -> Prop) : Prop :=
  forall h qs, P h -> P (mkStore qs (qobjs h) (forders h)).

(** [triple h0 P m Q E]: run from a store that has the objects of [h0] as
    they are in [h0] and satisfies [P], the method [m] keeps the objects of
    [h0] as they are, and it returns a value and a store that satisfy [Q], or
    raises an exception that satisfies [E]. *)
Definition triple (h0 : store) (P : store -> Prop) {A} (m : M A)
    (Q : A -> store -> Prop) (E : exn -> Prop) : Prop :=
  forall h, preserved h0 h -> P h ->
    preserved h0 (m h).1
    /\ match (m h).2 with
       | Ok a => Q a (m h).1
       | Raise e => E e
       end.

(** The receiver of a call is an object of the store, and so are the [Q]
    object and the [FieldOrder] objects it points to. *)
Definition receiver_ok (h : store) (self : nat) (s : QuerySet) : Prop :=
  qsets h !! self = Some s
  /\ is_Some (qobjs h !! q s)
  /\ forall l, order_fields s = Some l -> Forall (fun a => is_Some (forders h !! a)) l.

(** The query set at [new] is a new object whose [Q] object and
    [FieldOrder] objects are new as well. *)
Definition new_object (h h' : store) (new : nat) : Prop :=
  qsets h !! new = None
  /\ exists s', qsets h' !! new = Some s'
       /\ qobjs h !! q s' = None
       /\ is_Some (qobjs h' !! q s')
       /\ forall l, order_fields s' = Some l ->
            Forall (fun a => forders h !! a = None /\ is_Some (forders h' !! a)) l.

(** The exceptions that the arguments of a call hold. *)
Definition raised_by_args (c : chain_call) (e : exn) : Prop :=
  match c with
  | CallFilter args | CallExclude args => args = Raise e
  | CallOnly args => In (Raise e) args
  | CallOrderBy args => In (Raise e) args
  | CallNone | CallAll => False
  end.

(** What [_copy_self] leaves at the address it returns. *)
Definition copied (h0 : store) (s : QuerySet) (new : nat) (h : store) : Prop :=
  exists qa oa,
    qsets h !! new
    = Some (mkQuerySet (folder_collection s) (request_type s) qa (only_fields s) oa
              (return_format s) (calendar_view s) (page_size s) (chunk_size s)
              (max_items s) (offset s) (_depth s))
    /\ qobjs h0 !! qa = None
    /\ (forall l, oa = Some l -> Forall (fun a => forders h0 !! a = None) l)
    /\ is_Some (qobjs h !! qa)
    /\ (forall l, oa = Some l -> Forall (fun a => is_Some (forders h !! a)) l).

(** Reading the copy back: its [Q] object and [FieldOrder] objects are new
    objects of the store. *)
Definition fields_ok (h0 h : store) (n : QuerySet) : Prop :=
  is_Some (qobjs h !! q n)
  /\ forall l, order_fields n = Some l ->
       Forall (fun a => forders h0 !! a = None /\ is_Some (forders h !! a)) l.

(** The state of a query set that a query is built from: the [Q] object
    and the [FieldOrder] objects it points to, read through the store. *)
Definition query_state (h : store) (self : nat)
  : option (option QVal * option (list FieldPath) * option (list (option FieldOrder))) :=
  match qsets h !! self with
  | None => None
  | Some s =>
      Some (qobjs h !! q s, only_fields s,
            option_map (map (fun a => forders h !! a)) (order_fields s))
  end.

(** [not self.order_fields]: [None] and the empty tuple are falsy. *)
Definition no_order (s : QuerySet) : bool :=
  match order_fields s with
  | None | Some [] => true
  | Some (_ :: _) => false
  end.

(** [f.reverse = not f.reverse] on the [FieldOrder] object at an
    address. *)
Definition flipped (v : FieldOrder) : FieldOrder :=
  mkFieldOrder (field_path v) (negb (reverse v)).

Definition flip (a : nat) : M unit :=
  fun h => match forders h !! a with
           | Some v =>
               (mkStore (qsets h) (qobjs h) (<[a := flipped v]> (forders h)), Ok tt)
           | None => (h, Raise AttributeError)
           end.

(** [QuerySet.reverse]. *)
Definition QuerySet_reverse (self : nat) : M nat :=
  do s <- get_qset self;
  if no_order s then throw ValueError
  else
    do new_qs <- _copy_self self;
    do n <- get_qset new_qs;
    do _ <- mapM flip (from_option id [] (order_fields n));
    ret new_qs.

(** What a chaining call makes of the query state of its receiver: the
    restriction, the fields to fetch and the ordering of the query set it
    returns. *)
Definition chained_state (c : chain_call)
    (st : option QVal * option (list FieldPath) * option (list (option FieldOrder)))
  : result (option QVal * option (list FieldPath) * option (list (option FieldOrder))) :=
  let '(qv, only, order) := st in
  match c with
  | CallFilter args =>
      let* v := args in Ok ((fun v0 => Q_and v0 v) <$> qv, only, order)
  | CallExclude args =>
      let* v := args in Ok ((fun v0 => Q_and v0 (Q_not v)) <$> qv, only, order)
  | CallOnly args =>
      let* fps := resolve_all args in Ok (qv, Some fps, order)
  | CallOrderBy args =>
      let* fos := resolve_all args in Ok (qv, only, Some (map Some fos))
  | CallNone => Ok (Some Q_never, only, order)
  | CallAll => Ok (qv, only, order)
  end.

(** How the ordering of a copy relates to the ordering it was copied
    from: the copies are new objects, distinct from each other, that hold
    what the originals hold. *)
Definition order_copied (h : store) (fo' : gmap nat FieldOrder)
    (o o' : option (list nat)) : Prop :=
  match o, o' with
  | None, None => fo' = forders h
  | Some l, Some l' =>
      Forall (fun a' => forders h !! a' = None) l'
      /\ NoDup l'
      /\ map (fun a' => fo' !! a') l' = map (fun a => forders h !! a) l
  | _, _ => False
  end.

End Store.

Arguments QuerySet : clear implicits.
Arguments FieldOrder : clear implicits.
Arguments store : clear implicits.

(** A stand-in for restriction.py in examples: a [Q] object is the text of
    its expression, a field path the name of the field. *)
Definition text_and (a b : string) : string := ("(" ++ a ++ " AND " ++ b ++ ")")%string.
Definition text_not (a : string) : string := ("NOT " ++ a)%string.
Definition text_is_never (a : string) : bool := String.eqb a "NEVER".

(** The store after [QuerySet(folder_collection)] in a fresh process; the
    query set is at address 0, its [Q] object at address 0. *)
Definition example_store : store string string :=
  (QuerySet_init "Q()"%string 7 ITEM (mkStore ∅ ∅ ∅)).1.

Definition example_queryset : QuerySet string :=
  mkQuerySet 7 ITEM 0 None None NONE None None None None 0 None.

(** The store after [order_by('subject')] on the query set of
    [example_store]; the new query set is at address 1. *)
Definition example_ordered_store : store string string :=
  (chain "Q()"%string "NEVER"%string text_and text_not
     (CallOrderBy [Ok (mkFieldOrder "subject"%string false)]) 0 example_store).1.

Definition example_ordered_queryset : QuerySet string :=
  mkQuerySet 7 ITEM 2 None (Some [0%nat]) NONE None None None None 0 None.

End QuerySets.

(** ** services/common.py: paging in [EWSPagingService] *)

Module Paging.

(** What [_paged_call] yields: a response element or an exception object. *)
Inductive yielded : Type :=
  | Elem (e : nat)
  | Exc (e : exn).

Definition is_elem (y : yielded) : bool :=
  match y with Elem _ => true | Exc _ => false end.

(** A response message of a page: an error that [_get_element_container]
    returns as an exception object, or the paging container with its three
    attributes and the children of its element container, if it has one. *)
Record container := mkContainer {
  IndexedPagingOffset : option string;
  TotalItemsInView : option string;
  IncludesLastItemInRange : option string;
  elements : option (list nat);
}.

Inductive message : Type :=
  | MsgException (e : exn)
  | MsgContainer (c : container).

(** The values of [paging_infos]. *)
Record paging_info := mkInfo {
  item_count : Z;
  next_offset : option Z;
}.

(** [max_items and total_item_count >= max_items]. *)
Definition reached (max_items : option Z) (total_item_count : Z) : bool :=
  match max_items with
  | Some m => negb (m =? 0) && (total_item_count >=? m)
  | None => false
  end.

(** [not paging_info["next_offset"]]. *)
Definition falsy (o : option Z) : bool :=
  match o with
  | Some n => n =? 0
  | None => true
  end.

(** The ordered dictionary [paging_infos], keyed by folder. *)
Fixpoint dict_set (f : nat) (v : paging_info) (d : list (nat * paging_info))
  : list (nat * paging_info) :=
  match d with
  | [] => [(f, v)]
  | (k, w) :: d' => if Nat.eqb k f then (k, v) :: d' else (k, w) :: dict_set f v d'
  end.

Fixpoint dict_get (f : nat) (d : list (nat * paging_info)) : option paging_info :=
  match d with
  | [] => None
  | (k, w) :: d' => if Nat.eqb k f then Some w else dict_get f d'
  end.

Fixpoint dict_del (f : nat) (d : list (nat * paging_info)) : list (nat * paging_info) :=
  match d with
  | [] => []
  | (k, w) :: d' => if Nat.eqb k f then d' else (k, w) :: dict_del f d'
  end.

(** [{f: dict(item_count=0, next_offset=None) for f in folders}]. *)
Definition init_infos (folders : list nat) : list (nat * paging_info) :=
  fold_left (fun d f => dict_set f (mkInfo 0 None) d) folders [].

(** [_get_next_offset]: the lowest of the next offsets that are not
    [None]. *)
Definition _get_next_offset (infos : list paging_info) : option Z :=
  fold_left (fun acc p =>
               match next_offset p, acc with
               | Some n, Some m => Some (Z.min m n)
               | Some n, None => Some n
               | None, _ => acc
               end) infos None.

Section PagedCall.
(** [int] and [str.lower] are Python's. *)
Context (py_int : string -> option Z) (py_lower : string -> string).

(** [_get_paging_values]. *)
Definition _get_paging_values (elem : container) : result (Z * option Z) :=
  let* next_offset :=
    match IndexedPagingOffset elem with
    | None => Ok None
    | Some a => match py_int a with Some n => Ok (Some n) | None => Raise ValueError end
    end in
  let* item_count :=
    match TotalItemsInView elem with
    | None => Raise TypeError
    | Some a => match py_int a with Some n => Ok n | None => Raise ValueError end
    end in
  let* is_last_page :=
    match IncludesLastItemInRange elem with
    | None => Raise AttributeError
    | Some a => Ok (String.eqb (py_lower a) "true" || String.eqb (py_lower a) "0")
    end in
  let next_offset :=
    match next_offset with
    | None => if negb is_last_page then Some 1 else None
    | Some _ => next_offset
    end in
  let next_offset :=
    match next_offset with
    | Some _ => if is_last_page then None else next_offset
    | None => None
    end in
  let next_offset :=
    if (item_count =? 0) && negb is_last_page then None else next_offset in
  let next_offset :=
    match next_offset with
    | Some 0 => if negb (item_count =? 0) then None else next_offset
    | _ => next_offset
    end in
  Ok (item_count, next_offset).

(** A page as [_get_page] returns it, next to the next offset: an exception
    object, [None], or the paging container. *)
Inductive page : Type :=
  | PageException (e : exn)
  | PageNone
  | PageElem (c : container).

(** [_get_page]. *)
Definition _get_page (m : message) : result (page * option Z) :=
  match m with
  | MsgException e => Ok (PageException e, None)
  | MsgContainer c =>
      let* v := _get_paging_values c in
      let '(item_count, next_offset) := v in
      if item_count =? 0 then Ok (PageNone, next_offset) else Ok (PageElem c, next_offset)
  end.

Fixpoint get_all_pages (response : list message) : result (list (page * option Z)) :=
  match response with
  | [] => Ok []
  | m :: response' =>
      let* p := _get_page m in
      let* ps := get_all_pages response' in
      Ok (p :: ps)
  end.

(** [_get_pages]: the response of the server to one request, parsed. *)
Definition _get_pages (response : list message) (expected_message_count : nat)
  : result (list (page * option Z)) :=
  let* page_elems := get_all_pages response in
  if negb (Nat.eqb (length page_elems) expected_message_count)
  then Raise MalformedResponseError
  else Ok page_elems.

(** The loop of [_get_elems_from_page]: [total_item_count] is the value the
    caller had when it made the generator. *)
Fixpoint elems_loop (es : list nat) (max_items : option Z) (total_item_count : Z)
  : list nat :=
  match es with
  | [] => []
  | e :: es' =>
      if reached max_items total_item_count then []
      else e :: elems_loop es' max_items total_item_count
  end.

(** [_get_elems_from_page]. *)
Definition _get_elems_from_page (elem : container) (max_items : option Z)
    (total_item_count : Z) : result (list nat) :=
  match elements elem with
  | None => Raise MalformedResponseError
  | Some es => Ok (elems_loop es max_items total_item_count)
  end.

(** How the [for] loop over the pages of one response ends. *)
Inductive for_end : Type :=
  | ForDone
  | ForBreak
  | ForRaise (e : exn).

(** The local variables that the loops of [_paged_call] change. *)
Record locals := mkLocals {
  paging_infos : list (nat * paging_info);
  total_item_count : Z;
}.

Definition set_next_offset (f : nat) (o : option Z) (d : list (nat * paging_info))
  : list (nat * paging_info) :=
  match dict_get f d with
  | Some i => dict_set f (mkInfo (item_count i) o) d
  | None => d
  end.

Definition add_item_count (f : nat) (n : Z) (d : list (nat * paging_info))
  : list (nat * paging_info) :=
  match dict_get f d with
  | Some i => dict_set f (mkInfo (item_count i + n) (next_offset i)) d
  | None => d
  end.

(** The [for] loop over [zip(pages, list(paging_infos.items()))]. *)
Fixpoint for_pages (max_items : option Z) (zipped : list ((page * option Z) * nat))
    (l : locals) : list yielded * locals * for_end :=
  match zipped with
  | [] => ([], l, ForDone)
  | ((pg, next), f) :: zipped' =>
      let infos := set_next_offset f next (paging_infos l) in
      let done_with (ys : list yielded) (l' : locals) :=
        (* if not paging_info["next_offset"]: del paging_infos[f] *)
        let l'' := if falsy next
                   then mkLocals (dict_del f (paging_infos l')) (total_item_count l')
                   else l' in
        let '(ys', l3, e) := for_pages max_items zipped' l'' in
        (ys ++ ys', l3, e) in
      match pg with
      | PageException e =>
          let '(ys', l3, e') :=
            for_pages max_items zipped' (mkLocals (dict_del f infos) (total_item_count l)) in
          (Exc e :: ys', l3, e')
      | PageNone => done_with [] (mkLocals infos (total_item_count l))
      | PageElem c =>
          match _get_elems_from_page c max_items (total_item_count l) with
          | Raise e => ([], mkLocals infos (total_item_count l), ForRaise e)
          | Ok es =>
              let n := Z.of_nat (length es) in
              let l' := mkLocals (add_item_count f n infos) (total_item_count l + n) in
              if reached max_items (total_item_count l')
              then (map Elem es, l', ForBreak)
              else done_with (map Elem es) l'
          end
      end
  end.

(** How a run of [_paged_call] ends; [Pending] is a run that has used up
    the responses it was given and is about to request another page. *)
Inductive final : Type :=
  | Finished
  | Raised (e : exn)
  | Pending.

(** The [while True] loop; each iteration sends one request, recorded with
    its offset and folders, and reads one response of the server. *)
Fixpoint while_loop (max_items : option Z) (responses : list (list message))
    (common_next_offset : Z) (l : locals)
  : list yielded * list (Z * list nat) * final :=
  match paging_infos l with
  | [] => ([], [], Finished)
  | _ =>
      match responses with
      | [] => ([], [], Pending)
      | response :: responses' =>
          let request := (common_next_offset, map fst (paging_infos l)) in
          match _get_pages response (length (paging_infos l)) with
          | Raise e => ([], [request], Raised e)
          | Ok pages =>
              let zipped := combine pages (map fst (paging_infos l)) in
              let '(ys, l', e) := for_pages max_items zipped l in
              match e with
              | ForRaise e => (ys, [request], Raised e)
              | _ =>
                  if reached max_items (total_item_count l')
                  then (ys, [request], Finished)
                  else
                    match _get_next_offset (map snd (paging_infos l')) with
                    | None => (ys, [request], Finished)
                    | Some o =>
                        let '(ys', rs, fin) := while_loop max_items responses' o l' in
                        (ys ++ ys', request :: rs, fin)
                    end
              end
          end
      end
  end.

(** [_paged_call(payload_func, max_items, folders, offset=offset)] against a
    server that answers the requests with [responses], in this order. *)
Definition _paged_call (max_items : option Z) (folders : list nat) (offset : Z)
    (responses : list (list message)) : list yielded * list (Z * list nat) * final :=
  while_loop max_items responses offset (mkLocals (init_infos folders) 0).

(** Paging is done for the folder of a page: the page is an exception, or
    it came without a next offset. *)
Definition paging_done (p : page * option Z) : bool :=
  match p.1 with
  | PageException _ => true
  | _ => falsy p.2
  end.

(** The requests of a run, each next to the response that answered it: a
    folder for which paging is done after a response is not among the
    folders of the next request, and the folders of the next request are
    among those of this one, in the same order. *)
Fixpoint folders_retired (responses : list (list message)) (requests : list (Z * list nat))
  : Prop :=
  match responses, requests with
  | response :: responses', (_, fs) :: requests' =>
      match requests' with
      | (_, fs') :: _ =>
          sublist fs' fs
          /\ (forall pages i p f,
                get_all_pages response = Ok pages ->
                pages !! i = Some p -> fs !! i = Some f ->
                paging_done p = true -> f ∉ fs')
      | [] => True
      end
      /\ folders_retired responses' requests'
  | _, _ => True
  end.

End PagedCall.

(** The number of response elements among what was yielded. *)
Fixpoint count_elems (ys : list yielded) : Z :=
  match ys with
  | [] => 0
  | y :: ys' => (if is_elem y then 1 else 0) + count_elems ys'
  end.

(** Stand-ins for [int] and [str.lower] on the attribute values of the
    examples. *)
Definition example_int (a : string) : option Z :=
  if String.eqb a "0" then Some 0
  else if String.eqb a "1" then Some 1
  else if String.eqb a "2" then Some 2
  else None.

Definition example_lower (a : string) : string := a.

(** The last page of a folder that holds two items, both on the page. *)
Definition two_item_page : message :=
  MsgContainer (mkContainer (Some "2") (Some "2") (Some "true") (Some [11; 12]%nat))%string.

(** A first page of one item, with more to come. *)
Definition one_item_page : message :=
  MsgContainer (mkContainer (Some "1") (Some "2") (Some "false") (Some [11%nat]))%string.

End Paging.

(** ** properties.py: the collection type [Fields] *)

Module FieldList.

Section Fields.
(** The fields of the collection: [fname] is [f.name], and [feq] is
    [Field.__eq__], which [list.remove] compares with. *)
Context {F : Type} (fname : F -> string) (feq : F -> F -> bool).

(** A [Fields] object: the list it is, and its [_dict]. *)
Record Fields := mkFields {
  items : list F;
  _dict : gmap string F;
}.

(** The loop of [Fields.__init__]. *)
Fixpoint index_names (fs : list F) (d : gmap string F) : result (gmap string F) :=
  match fs with
  | [] => Ok d
  | f :: fs' =>
      if decide (is_Some (d !! fname f)) then Raise ValueError
      else index_names fs' (<[fname f := f]> d)
  end.

(** [Fields.__init__] with the fields as its arguments. *)
Definition Fields_init (fs : list F) : result Fields :=
  let* d := index_names fs ∅ in Ok (mkFields fs d).

(** [fields[name]] for a string. *)
Definition getitem (n : string) (l : Fields) : result F :=
  match _dict l !! n with
  | Some f => Ok f
  | None => Raise KeyError
  end.

(** [name in fields]. *)
Definition contains_name (n : string) (l : Fields) : bool :=
  bool_decide (is_Some (_dict l !! n)).

(** [index_by_name]. *)
Fixpoint index_from (i : nat) (fs : list F) (n : string) : result nat :=
  match fs with
  | [] => Raise ValueError
  | f :: fs' => if String.eqb (fname f) n then Ok i else index_from (S i) fs' n
  end.

Definition index_by_name (n : string) (l : Fields) : result nat :=
  index_from 0 (items l) n.

(** [insert(index, field)] for an index that is not negative; an index
    beyond the end appends. *)
Definition insert (index : nat) (field : F) (l : Fields) : result Fields :=
  if decide (is_Some (_dict l !! fname field)) then Raise ValueError
  else Ok (mkFields (take index (items l) ++ field :: drop index (items l))
                    (<[fname field := field]> (_dict l))).

(** [append(field)]; it does not look for a duplicate. *)
Definition append (field : F) (l : Fields) : Fields :=
  mkFields (items l ++ [field]) (<[fname field := field]> (_dict l)).

(** [list.remove(field)]: the first item equal to [field] is removed. *)
Fixpoint list_remove (field : F) (fs : list F) : option (list F) :=
  match fs with
  | [] => None
  | f :: fs' =>
      if feq f field then Some fs'
      else option_map (cons f) (list_remove field fs')
  end.

(** [remove(field)]: the list is changed before the dictionary is. *)
Definition remove (field : F) (l : Fields) : Fields * result unit :=
  match list_remove field (items l) with
  | None => (l, Raise ValueError)
  | Some fs =>
      match _dict l !! fname field with
      | Some _ => (mkFields fs (delete (fname field) (_dict l)), Ok tt)
      | None => (mkFields fs (_dict l), Raise KeyError)
      end
  end.

(** [EWSElement.add_field(field, insert_after)] and
    [EWSElement.remove_field(field)] on the [FIELDS] of the class. *)
Definition add_field (field : F) (insert_after : string) (l : Fields) : result Fields :=
  let* idx := index_by_name insert_after l in
  insert (idx + 1) field l.

Definition remove_field (field : F) (l : Fields) : Fields * result unit :=
  remove field l.

(** The dictionary indexes the list: no two items have the same name, and
    a name is a key of the dictionary, with the item as its value, exactly
    when the item is in the list. *)
Definition indexed (l : Fields) : Prop :=
  NoDup (map fname (items l))
  /\ forall n f, _dict l !! n = Some f <-> f ∈ items l /\ fname f = n.

End Fields.

Arguments Fields : clear implicits.

(** [Field.__eq__] on [FieldURIField]s: the hashes of the field URIs are
    compared, and the hash is taken to tell field URIs apart. *)
Definition Field_eq {Build} (f g : Metamodel.Field Build) : bool :=
  bool_decide (Metamodel.field_uri f = Metamodel.field_uri g).

(** The [FIELDS] of [FailedMailbox], and a field to add to them. *)
Definition example_fields : Fields (Metamodel.Field Z) :=
  mkFields (Metamodel.FIELDS Metamodel.FailedMailbox)
    (list_to_map (map (fun f => (Metamodel.name f, f))
                      (Metamodel.FIELDS Metamodel.FailedMailbox))).

Definition example_new_field : Metamodel.Field Z :=
  Metamodel.declare (Metamodel.CharField 255) "reason" "Reason".

End FieldList.

(** ** util.py: further helpers *)

Module Util.

(** [s.split(sep)] for a separator of one character. *)
Fixpoint split_on (sep : ascii) (s : string) : list string :=
  match s with
  | EmptyString => [EmptyString]
  | String c s' =>
      if Ascii.eqb c sep then EmptyString :: split_on sep s'
      else match split_on sep s' with
           | [] => [String c EmptyString]
           | h :: t => String c h :: t
           end
  end.

(** [sep in s]. *)
Fixpoint has_char (sep : ascii) (s : string) : bool :=
  match s with
  | EmptyString => false
  | String c s' => Ascii.eqb c sep || has_char sep s'
  end.

(** [get_domain(email)] for a string: [email.split("@")[1].lower()], with
    the [IndexError] turned into [ValueError]; [str.lower] is Python's. *)
Definition get_domain (py_lower : string -> string) (email : string) : result string :=
  match split_on "@" email with
  | _ :: d :: _ => Ok (py_lower d)
  | _ => Raise ValueError
  end.

(** No character of the text is illegal in XML. *)
Fixpoint legal_xml (s : string) : Prop :=
  match s with
  | EmptyString => True
  | String c s' => Metamodel.illegal_xml_char c = false /\ legal_xml s'
  end.

End Util.

(** * Theorems *)

(** ** [chunkify] partitions a sequence *)

Section ChunkifyFacts.
Import Chunkify.
Context {A : Type}.
Implicit Types (xs : list A) (n i fuel : nat).

Lemma py_slice_length xs i n :
  length (py_slice xs i (i + n)) = Nat.min n (length xs - i).
Proof.
  unfold py_slice. rewrite length_take, length_drop. f_equal. lia.
Qed.

Lemma py_slice_drop xs i n :
  py_slice xs i (i + n) ++ drop (i + n) xs = drop i xs.
Proof.
  unfold py_slice. replace (i + n - i)%nat with n by lia.
  rewrite <- drop_drop. apply take_drop.
Qed.

(** The chunks cut from offset [i] on: they concatenate to the rest of the
    sequence, none is empty or longer than [n], and all but the last are
    full. *)
Lemma chunks_from xs n fuel i :
  (1 <= n)%nat ->
  (length xs - i <= fuel)%nat ->
  let chunks := map (fun j => py_slice xs j (j + n)) (range_from fuel i (length xs) n) in
  concat chunks = drop i xs
  /\ Forall (fun ch => (1 <= length ch <= n)%nat) chunks
  /\ all_but_last_full n chunks.
Proof.
  intros Hn. revert i. induction fuel as [|fuel IH]; intros i Hfuel; simpl.
  - rewrite drop_ge by lia. auto.
  - destruct (Nat.ltb_spec i (length xs)) as [Hlt|Hge]; simpl.
    + destruct (IH (i + n)%nat) as (Hcat & Hall & Hfull); [lia|].
      split; [|split].
      * rewrite Hcat. apply py_slice_drop.
      * constructor; [|exact Hall]. rewrite py_slice_length. lia.
      * destruct fuel as [|fuel']; simpl; [exact I|].
        simpl in Hfull.
        destruct (Nat.ltb_spec (i + n) (length xs)) as [Hlt'|Hge']; simpl; [|exact I].
        split; [rewrite py_slice_length; lia|].
        exact Hfull.
    + rewrite drop_ge by lia. auto.
Qed.

(** C10. For every list [xs] and every chunk size [c >= 1], [chunkify]
    returns chunks whose concatenation is [xs]; every chunk except possibly
    the last has exactly [c] elements, the last has between 1 and [c]
    elements, no chunk is empty, and an empty input yields no chunks. *)
Theorem chunkify_partitions xs (c : Z) :
  1 <= c ->
  exists chunks,
    chunkify xs c = Ok chunks
    /\ concat chunks = xs
    /\ all_but_last_full (Z.to_nat c) chunks
    /\ (forall ch, last chunks = Some ch -> 1 <= Z.of_nat (length ch) <= c)
    /\ Forall (fun ch => ch <> []) chunks
    /\ (xs = [] -> chunks = []).
Proof.
  intros Hc. unfold chunkify, py_range.
  destruct (Z.eqb_spec c 0) as [->|_]; [lia|].
  destruct (Z.ltb_spec c 0) as [?|_]; [lia|]. simpl.
  eexists; split; [reflexivity|].
  destruct (chunks_from xs (Z.to_nat c) (length xs) 0) as (Hcat & Hall & Hfull);
    [lia | lia |].
  rewrite drop_0 in Hcat.
  split; [exact Hcat|]. split; [exact Hfull|]. split; [|split].
  - intros ch Hlast. apply last_Some_elem_of in Hlast.
    rewrite Forall_forall in Hall. apply Hall in Hlast. lia.
  - eapply Forall_impl; [exact Hall|]. intros ch Hch ->. simpl in Hch. lia.
  - intros ->. reflexivity.
Qed.

End ChunkifyFacts.

(** The hypothesis of [chunkify_partitions] at a list of five elements cut
    in chunks of two. *)
Lemma chunkify_partitions_witness :
  exists chunks,
    Chunkify.chunkify [1; 2; 3; 4; 5] 2 = Ok chunks
    /\ concat chunks = [1; 2; 3; 4; 5]
    /\ Chunkify.all_but_last_full (Z.to_nat 2) chunks
    /\ (forall ch, last chunks = Some ch -> 1 <= Z.of_nat (length ch) <= 2)
    /\ Forall (fun ch => ch <> []) chunks
    /\ ([1; 2; 3; 4; 5] = [] -> chunks = []).
Proof. apply (chunkify_partitions [1; 2; 3; 4; 5] 2). lia. Defined.

(** ** The session pool stays within its bounds *)

Section SessionPoolFacts.
Import SessionPool.

Lemma init_inv mc : pool_inv (init mc).
Proof. unfold pool_inv, init; simpl. lia. Qed.

Lemma increase_poolsize_frame cs p :
  _session_pool_maxsize (increase_poolsize cs p).1 = _session_pool_maxsize p
  /\ max_connections (increase_poolsize cs p).1 = max_connections p.
Proof.
  unfold increase_poolsize.
  destruct (_session_pool_size p >=? _session_pool_maxsize p); [done|].
  destruct cs; done.
Qed.

Lemma increase_poolsize_inv cs p :
  pool_inv p -> pool_inv (increase_poolsize cs p).1.
Proof.
  unfold pool_inv, increase_poolsize. intros Hp.
  destruct (Z.geb_spec (_session_pool_size p) (_session_pool_maxsize p)); [done|].
  destruct cs; simpl; lia.
Qed.

Lemma get_session_size cs p :
  let p' := (get_session cs p).1 in
  _session_pool_maxsize p' = _session_pool_maxsize p
  /\ (_session_pool_size p' = _session_pool_size p
      \/ (_session_pool_size p' = _session_pool_size p + 1
          /\ _session_pool_size p < _session_pool_maxsize p)).
Proof.
  unfold get_session. destruct (_session_pool p) as [|s q] eqn:Hq; simpl; [|auto].
  unfold increase_poolsize.
  destruct (Z.geb_spec (_session_pool_size p) (_session_pool_maxsize p)); simpl.
  - rewrite Hq; simpl; auto.
  - destruct cs as [s|e]; simpl; [split; [done|right; lia]|].
    destruct e; simpl; auto; rewrite Hq; simpl; auto.
Qed.

Lemma decrease_poolsize_inv cs p :
  pool_inv p -> pool_inv (decrease_poolsize cs p).1.
Proof.
  unfold pool_inv, decrease_poolsize. intros Hp.
  destruct (Z.leb_spec (_session_pool_size p) 1); [done|].
  pose proof (get_session_size cs p) as [Hmax Hsize]. simpl in Hmax, Hsize.
  destruct (get_session cs p) as [p' [s|e|]]; simpl in *; lia.
Qed.

Lemma step_inv c p : pool_inv p -> pool_inv (step c p).1.
Proof. destruct c; [apply increase_poolsize_inv | apply decrease_poolsize_inv]. Qed.

Lemma decrease_poolsize_frame cs p :
  _session_pool_maxsize (decrease_poolsize cs p).1 = _session_pool_maxsize p.
Proof.
  unfold decrease_poolsize.
  destruct (_session_pool_size p <=? 1); [done|].
  pose proof (get_session_size cs p) as [Hmax _]. simpl in Hmax.
  destruct (get_session cs p) as [p' [s|e|]]; simpl in *; done.
Qed.

Lemma step_maxsize c p :
  _session_pool_maxsize (step c p).1 = _session_pool_maxsize p.
Proof.
  destruct c; [apply increase_poolsize_frame | apply decrease_poolsize_frame].
Qed.

Lemma run_inv cs p :
  pool_inv p ->
  pool_inv (run cs p) /\ _session_pool_maxsize (run cs p) = _session_pool_maxsize p.
Proof.
  revert p. induction cs as [|c cs IH]; intros p Hp; simpl; [done|].
  pose proof (step_inv c p Hp) as Hstep.
  pose proof (step_maxsize c p) as Hmax.
  destruct (step c p) as [p' [[]|e|]]; simpl in *; [| |by rewrite <- Hmax].
  - destruct (IH p' Hstep) as [? ->]. done.
  - destruct (IH p' Hstep) as [? ->]. done.
Qed.

(** C5, as the code has it.  After every sequence of [increase_poolsize]
    and [decrease_poolsize] calls on a fresh [BaseProtocol] the pool size
    lies between 0 and the larger of 0 and the maximum
    [config.max_connections or SESSION_POOLSIZE] (so between 0 and the
    maximum whenever that is not negative); [increase_poolsize] raises
    [SessionPoolMaxSizeReached] exactly when the size has reached the
    maximum, and [decrease_poolsize] raises [SessionPoolMinSizeReached]
    exactly when at most one session is in the pool; both leave the pool as
    it was when they raise. *)
Theorem session_pool_bounded (mc : option Z) (calls : list call) (cs : result Session) :
  let p := run calls (init mc) in
  let maximum := max_connections_or_default mc in
  0 <= _session_pool_size p <= Z.max 0 maximum
  /\ _session_pool_maxsize p = maximum
  /\ (maximum <= _session_pool_size p ->
      increase_poolsize cs p = (p, Raises SessionPoolMaxSizeReached))
  /\ (_session_pool_size p < maximum ->
      forall s, exists p',
        increase_poolsize (Ok s) p = (p', Returns tt)
        /\ _session_pool_size p' = _session_pool_size p + 1)
  /\ (_session_pool_size p <= 1 ->
      decrease_poolsize cs p = (p, Raises SessionPoolMinSizeReached)).
Proof.
  intros p maximum.
  destruct (run_inv calls (init mc) (init_inv mc)) as [Hinv Hmax].
  fold p in Hinv, Hmax. simpl in Hmax. fold maximum in Hmax.
  unfold pool_inv in Hinv. rewrite Hmax in Hinv.
  split; [exact Hinv|]. split; [exact Hmax|]. split; [|split].
  - intros Hge. unfold increase_poolsize. rewrite Hmax.
    destruct (Z.geb_spec (_session_pool_size p) maximum); [done|lia].
  - intros Hlt s. unfold increase_poolsize. rewrite Hmax.
    destruct (Z.geb_spec (_session_pool_size p) maximum); [lia|].
    eexists; split; [reflexivity|done].
  - intros Hle. unfold decrease_poolsize.
    destruct (Z.leb_spec (_session_pool_size p) 1); [done|lia].
Qed.

(** C5 as stated fails: [Configuration(max_connections=-1)] is accepted,
    and the fresh protocol built from it has pool size 0 and maximum -1. *)
Lemma session_pool_negative_maximum :
  let p := init (Some (-1)) in
  _session_pool_size p = 0
  /\ _session_pool_maxsize p = -1
  /\ documented_maximum (Some (-1)) = -1
  /\ ~ (0 <= _session_pool_size p <= documented_maximum (max_connections p)).
Proof. simpl. repeat split; lia. Qed.

End SessionPoolFacts.

(** ** Protocol instances are cached per endpoint and credentials *)

Section ProtocolCacheFacts.
Import ProtocolCache.
Context {Credentials : Type} `{Countable Credentials}.
Implicit Types (st : state Credentials) (c : Configuration Credentials).
Implicit Types (cs : list (option (config_arg Credentials) * init_outcome * Z)).

(** A construction never changes or removes what is cached. *)
Lemma construct_keeps_entry kw io now st key v :
  _protocol_cache st !! key = Some v ->
  _protocol_cache (construct kw io now st).1 !! key = Some v.
Proof.
  intros Hkey. unfold construct.
  destruct kw as [[|config]|]; simpl; try done.
  destruct (endpoint_unset config); simpl; [done|].
  destruct (lookup_cached (_cache_key config) st) as [r|] eqn:Hlook; simpl; [done|].
  assert (_cache_key config <> key) as Hne.
  { intros <-. unfold lookup_cached in Hlook. rewrite Hkey in Hlook.
    destruct v as [[p|e] t]; discriminate. }
  destruct io; simpl; rewrite ?lookup_insert_ne; done.
Qed.

Lemma constructions_keep_entry cs st key v :
  _protocol_cache st !! key = Some v ->
  _protocol_cache (constructions cs st) !! key = Some v.
Proof.
  revert st. induction cs as [|[[kw io] now] cs IH]; intros st Hkey; simpl; [done|].
  apply IH, construct_keeps_entry, Hkey.
Qed.

(** A construction that finds its key in the cache answers from the cache
    and leaves the state alone. *)
Lemma construct_hit c io now st v :
  endpoint_unset c = false ->
  _protocol_cache st !! _cache_key c = Some v ->
  construct (Some (AConfiguration c)) io now st
  = (st, match v.1 with CachedProtocol p => Ok p | CachedException e => Raise e end).
Proof.
  intros Hset Hkey. unfold construct, lookup_cached. rewrite Hset, Hkey.
  destruct v as [[p|e] t]; reflexivity.
Qed.

(** A construction that returns a protocol leaves it in the cache. *)
Lemma construct_returns_cached c io now st st' p :
  construct (Some (AConfiguration c)) io now st = (st', Ok p) ->
  endpoint_unset c = false /\
  exists t, _protocol_cache st' !! _cache_key c = Some (CachedProtocol p, t).
Proof.
  unfold construct, lookup_cached.
  destruct (endpoint_unset c); [discriminate|]. intros Hc. split; [done|].
  destruct (_protocol_cache st !! _cache_key c) as [[[q|e] t]|] eqn:Hlook.
  - inversion Hc; subst. eauto.
  - discriminate.
  - destruct io; inversion Hc; subst; simpl.
    rewrite lookup_insert_eq. eauto.
Qed.

(** C2.  When a construction of [Protocol] has returned an instance [p],
    then after any further constructions a construction with a
    configuration of equal (service_endpoint, credentials) returns the same
    instance [p] and changes nothing, so the constructor does not run.  A
    configuration whose service endpoint is unset raises [AttributeError],
    and a [config] that is not a [Configuration] raises
    [InvalidTypeError]. *)
Theorem protocol_instance_cached c1 c2 io1 io2 now1 now2 cs st st1 p :
  construct (Some (AConfiguration c1)) io1 now1 st = (st1, Ok p) ->
  endpoint_unset c2 = false ->
  _cache_key c1 = _cache_key c2 ->
  let st2 := constructions cs st1 in
  construct (Some (AConfiguration c2)) io2 now2 st2 = (st2, Ok p)
  /\ (forall c io now st',
        endpoint_unset c = true ->
        construct (Some (AConfiguration c)) io now st' = (st', Raise AttributeError))
  /\ (forall io now st',
        construct (Some NotAConfiguration) io now st' = (st', Raise InvalidTypeError)).
Proof.
  intros Hfirst Hset Hkeys st2. split; [|split].
  - apply construct_returns_cached in Hfirst as [_ [t Hcached]].
    rewrite Hkeys in Hcached.
    apply (constructions_keep_entry cs) in Hcached.
    apply (construct_hit c2 io2 now2) in Hcached; done.
  - intros c io now st' Hunset. unfold construct. by rewrite Hunset.
  - reflexivity.
Qed.

(** C9.  When the constructor raises [TransportError] on a cache miss, the
    exception is stored under the key and raised; after any further
    constructions, every construction with an equal key raises the stored
    exception and changes nothing, so no new [Protocol] is built; once
    [clear_cache] has run, the constructor runs again. *)
Theorem transport_error_cached c1 c2 e io2 now1 now2 cs st :
  endpoint_unset c1 = false ->
  endpoint_unset c2 = false ->
  _cache_key c1 = _cache_key c2 ->
  _protocol_cache st !! _cache_key c1 = None ->
  let r1 := construct (Some (AConfiguration c1)) (InitRaisesTransportError e) now1 st in
  let st2 := constructions cs r1.1 in
  r1.2 = Raise e
  /\ _protocol_cache r1.1 !! _cache_key c1 = Some (CachedException e, now1)
  /\ construct (Some (AConfiguration c2)) io2 now2 st2 = (st2, Raise e)
  /\ _protocol_cache (clear_cache st2) = ∅
  /\ constructor_runs
       (construct (Some (AConfiguration c2)) io2 now2 (clear_cache st2)).1
     = S (constructor_runs st2).
Proof.
  intros Hset1 Hset2 Hkeys Hmiss r1 st2.
  assert (r1 = (mkState (<[_cache_key c1 := (CachedException e, now1)]> (_protocol_cache st))
                        (next_id st) (S (constructor_runs st)), Raise e)) as Hr1.
  { unfold r1, construct, lookup_cached. by rewrite Hset1, Hmiss. }
  assert (_protocol_cache r1.1 !! _cache_key c1 = Some (CachedException e, now1)) as Hstored.
  { rewrite Hr1. simpl. apply lookup_insert_eq. }
  split; [by rewrite Hr1|]. split; [exact Hstored|]. split; [|split].
  - apply (constructions_keep_entry cs) in Hstored. rewrite Hkeys in Hstored.
    apply (construct_hit c2 io2 now2) in Hstored; done.
  - reflexivity.
  - unfold construct, lookup_cached. rewrite Hset2. simpl.
    rewrite lookup_empty. destruct io2; reflexivity.
Qed.

End ProtocolCacheFacts.

(** [protocol_instance_cached] at two constructions with [example_config] in
    a fresh process. *)
Lemma protocol_instance_cached_witness :
  let st1 := (ProtocolCache.construct
                (Some (ProtocolCache.AConfiguration ProtocolCache.example_config))
                ProtocolCache.InitReturns 0 ProtocolCache.fresh_state).1 in
  ProtocolCache.construct
    (Some (ProtocolCache.AConfiguration ProtocolCache.example_config))
    ProtocolCache.InitReturns 1 st1
  = (st1, Ok (ProtocolCache.mkProtocol 0 ProtocolCache.example_config))
  /\ ProtocolCache.constructor_runs st1 = 1%nat.
Proof.
  split; [|reflexivity].
  apply (protocol_instance_cached
           ProtocolCache.example_config ProtocolCache.example_config
           ProtocolCache.InitReturns ProtocolCache.InitReturns 0 1 []
           ProtocolCache.fresh_state); reflexivity.
Defined.

(** [transport_error_cached] at a construction with [example_config] whose
    constructor raises [TransportError]. *)
Lemma transport_error_cached_witness :
  let r1 := ProtocolCache.construct
              (Some (ProtocolCache.AConfiguration ProtocolCache.example_config))
              (ProtocolCache.InitRaisesTransportError (TransportError "bogus endpoint"))
              0 ProtocolCache.fresh_state in
  r1.2 = Raise (TransportError "bogus endpoint")
  /\ ProtocolCache.construct
       (Some (ProtocolCache.AConfiguration ProtocolCache.example_config))
       ProtocolCache.InitReturns 1 r1.1
     = (r1.1, Raise (TransportError "bogus endpoint")).
Proof.
  pose proof (transport_error_cached
                ProtocolCache.example_config ProtocolCache.example_config
                (TransportError "bogus endpoint") ProtocolCache.InitReturns 0 1 []
                ProtocolCache.fresh_state eq_refl eq_refl eq_refl eq_refl)
    as (Hraise & _ & Hagain & _).
  split; [exact Hraise | exact Hagain].
Defined.

(** ** Version gating and defaults of [Field] *)

Section FieldFacts.
Import Metamodel.
Context {Build : Type} (build_lt build_ge : Build -> Build -> bool).
Context (Build_str : Build -> result string)
        (Version_str : Metamodel.Version Build -> result string).
(** [Build.__ge__] is the negation of [Build.__lt__]. *)
Hypothesis build_ge_not_lt : forall a b, build_ge a b = negb (build_lt a b).

Abbreviation supports_version := (supports_version build_lt build_ge).
Abbreviation Field_clean := (Field_clean build_lt build_ge Build_str Version_str).

Lemma not_below_supported_from (sf : option Build) (v : Build) :
  match sf with Some b => build_lt v b | None => false end = false
  <-> (sf = None \/ exists b, sf = Some b /\ build_ge v b = true).
Proof.
  destruct sf as [b|]; [|by split; [left|]].
  split.
  - intros Hlt. right. exists b. by rewrite build_ge_not_lt, Hlt.
  - intros [Hnone|(b' & Hb & Hge)]; [discriminate|].
    injection Hb as <-. rewrite build_ge_not_lt in Hge.
    by destruct (build_lt v b).
Qed.

Lemma below_deprecated_from (df : option Build) (v : Build) :
  match df with Some b => build_ge v b | None => false end = false
  <-> (df = None \/ exists b, df = Some b /\ build_lt v b = true).
Proof.
  destruct df as [b|]; [|by split; [left|]].
  rewrite build_ge_not_lt. split.
  - intros Hge. right. exists b. by destruct (build_lt v b).
  - intros [Hnone|(b' & Hb & Hlt)]; [discriminate|].
    injection Hb as <-. by rewrite Hlt.
Qed.

(** C6, as the code behaves.  [supports_version] is true exactly when
    [supported_from] is unset or not above the build and [deprecated_from]
    is unset or above the build.  For a version the field does not support,
    [clean] never returns: it raises [InvalidFieldForVersion] when the text
    of its message can be built, and otherwise the exception that [str] of
    [supported_from] or of the version raises, so not
    [InvalidFieldForVersion] for every such version.  For a supported (or
    no) version and the value [None] it raises [ValueError] when the field
    is required and has no default, and returns the default otherwise. *)
Theorem field_version_gating_and_defaults (f : Field Build) (version : Version Build) :
  (supports_version f version = true <->
     (supported_from f = None
      \/ exists b, supported_from f = Some b /\ build_ge (build version) b = true)
     /\ (deprecated_from f = None
         \/ exists b, deprecated_from f = Some b /\ build_lt (build version) b = true))
  /\ (supports_version f version = false ->
      forall v,
        Field_clean f v (Some version)
        = match str_build Build_str (supported_from f), Version_str version with
          | Ok _, Ok _ => Raise InvalidFieldForVersion
          | Ok _, Raise e => Raise e
          | Raise e, _ => Raise e
          end)
  /\ (forall ver : option (Version Build),
        match ver with Some ver' => supports_version f ver' = true | None => True end ->
        Field_clean f VNone ver
        = if is_required f && is_none (default f) then Raise ValueError else Ok (default f)).
Proof.
  split; [|split].
  - rewrite <- not_below_supported_from, <- below_deprecated_from.
    unfold Metamodel.supports_version.
    destruct (match supported_from f with Some b => build_lt _ b | None => false end);
      destruct (match deprecated_from f with Some b => build_ge _ b | None => false end);
      intuition congruence.
  - intros Hno v. unfold Field_clean, format_message, str_version. rewrite Hno. simpl.
    destruct (str_build Build_str (supported_from f)) as [s|e]; simpl; [|done].
    by destruct (Version_str version).
  - intros [ver'|] Hver; unfold Field_clean; [rewrite Hver|]; reflexivity.
Qed.

End FieldFacts.

Lemma Z_geb_not_ltb (a b : Z) : (a >=? b) = negb (a <? b).
Proof. rewrite Z.geb_leb, Z.ltb_antisym. by destruct (b <=? a). Qed.

(** [field_version_gating_and_defaults] with integers for builds, at
    [example_gated_field], which build 14 does not support, and a version
    whose [api_version] has no full name: [clean] raises the [KeyError] of
    [str(version)], where C6 says [InvalidFieldForVersion]. *)
Lemma field_version_gating_and_defaults_witness :
  Metamodel.supports_version Z.ltb Z.geb Metamodel.example_gated_field
    (Metamodel.mkVersion 14 "Exchange2099") = false
  /\ Metamodel.Field_clean Z.ltb Z.geb Metamodel.example_Build_str
       Metamodel.example_Version_str Metamodel.example_gated_field
       (Metamodel.VStr "call") (Some (Metamodel.mkVersion 14 "Exchange2099"))
     = Raise KeyError
  /\ Metamodel.Field_clean Z.ltb Z.geb Metamodel.example_Build_str
       Metamodel.example_Version_str Metamodel.example_gated_field Metamodel.VNone None
     = Raise ValueError.
Proof.
  pose proof (field_version_gating_and_defaults Z.ltb Z.geb
                Metamodel.example_Build_str Metamodel.example_Version_str Z_geb_not_ltb
                Metamodel.example_gated_field (Metamodel.mkVersion 14 "Exchange2099"))
    as (_ & Hgate & Hnone).
  split; [reflexivity|]. split.
  - apply Hgate. reflexivity.
  - apply (Hnone None). exact I.
Defined.

(** The same field and build with a version whose [api_version] has a full
    name: [clean] raises [InvalidFieldForVersion]. *)
Example unsupported_known_version :
  Metamodel.Field_clean Z.ltb Z.geb Metamodel.example_Build_str
    Metamodel.example_Version_str Metamodel.example_gated_field
    (Metamodel.VStr "call") (Some (Metamodel.mkVersion 14 "Exchange2010"))
  = Raise InvalidFieldForVersion.
Proof. reflexivity. Qed.

(** ** Marshaling to XML and back *)

Section MarshalFacts.
Import Metamodel.
Context {Build : Type} (build_lt build_ge : Build -> Build -> bool).
Context (py_int : string -> option Z) (py_str : Z -> string).
Context (Build_str : Build -> result string)
        (Version_str : Metamodel.Version Build -> result string).
(** [int(str(z))] is [z], and [str(z)] is not empty. *)
Hypothesis py_int_str : forall z, py_int (py_str z) = Some z.
Hypothesis py_str_nonempty : forall z, py_str z <> EmptyString.

Abbreviation Field := (Field Build).
Abbreviation EWSClass := (EWSClass Build).
Abbreviation Version := (Version Build).
Abbreviation Field_clean := (Field_clean build_lt build_ge Build_str Version_str).
Abbreviation clean := (clean build_lt build_ge Build_str Version_str).
Abbreviation clean_fields := (clean_fields build_lt build_ge Build_str Version_str).
Abbreviation to_xml := (to_xml build_lt build_ge py_str Build_str Version_str).
Abbreviation supports_version_opt := (supports_version_opt build_lt build_ge).
Abbreviation marshalable := (marshalable build_lt build_ge).
Abbreviation written := (written py_str).
Abbreviation written_all := (written_all py_str).
Abbreviation writable := (writable build_lt build_ge).

Implicit Types (f g : Field) (fs : list Field) (self : gmap string value) (v : value).

(** *** Dictionaries of attributes *)

Lemma attr_get_set_eq k t d : attr_get k (attr_set k t d) = Some t.
Proof.
  induction d as [|[k' t'] d IH]; simpl.
  - by rewrite String.eqb_refl.
  - destruct (String.eqb_spec k' k) as [->|Hne]; simpl.
    + by rewrite String.eqb_refl.
    + by destruct (String.eqb_spec k' k).
Qed.

Lemma attr_get_set_ne k k' t d : k <> k' -> attr_get k' (attr_set k t d) = attr_get k' d.
Proof.
  intros Hne. induction d as [|[k0 t0] d IH]; simpl.
  - by destruct (String.eqb_spec k k').
  - destruct (String.eqb_spec k0 k) as [->|Hne0]; simpl.
    + by destruct (String.eqb_spec k k').
    + destruct (String.eqb_spec k0 k'); [done|]. exact IH.
Qed.

Lemma attr_set_fresh k t d : attr_get k d = None -> attr_set k t d = d ++ [(k, t)].
Proof.
  induction d as [|[k0 t0] d IH]; simpl; [done|].
  destruct (String.eqb_spec k0 k); [done|]. intros Hd. by rewrite IH.
Qed.

(** Setting the entries of a dictionary anew, in order, gives it back. *)
Lemma attr_rebuild d acc :
  NoDup (map fst d) ->
  (forall k, k ∈ map fst d -> attr_get k acc = None) ->
  fold_left (fun d kv => attr_set kv.1 kv.2 d) d acc = acc ++ d.
Proof.
  revert acc. induction d as [|[k t] d IH]; intros acc Hnd Hacc; simpl.
  - by rewrite app_nil_r.
  - inversion Hnd as [|? ? Hk Hnd']; subst.
    rewrite attr_set_fresh by (apply Hacc; left).
    rewrite IH; [by rewrite <- app_assoc|done|].
    intros k' Hk'. rewrite <- attr_set_fresh by (apply Hacc; left).
    rewrite attr_get_set_ne; [apply Hacc; by right|].
    intros ->. by apply Hk.
Qed.

Lemma attr_get_None_keys k d : attr_get k d = None <-> k ∉ map fst d.
Proof.
  induction d as [|[k0 t0] d IH]; simpl.
  - split; [intros _ Hin; inversion Hin | done].
  - destruct (String.eqb_spec k0 k) as [->|Hne].
    + split; [done|]. intros Hnot. exfalso. apply Hnot. left.
    + rewrite IH. split.
      * intros Hnot Hin. inversion Hin; subst; [done|]. by apply Hnot.
      * intros Hnot Hin. apply Hnot. by right.
Qed.

Lemma attr_set_NoDup k t d : NoDup (map fst d) -> NoDup (map fst (attr_set k t d)).
Proof.
  induction d as [|[k0 t0] d IH]; simpl; intros Hnd.
  - constructor; [|done]. intros Hin; inversion Hin.
  - inversion Hnd as [|? ? Hk Hnd']; subst.
    destruct (String.eqb_spec k0 k) as [->|Hne]; simpl; [by constructor|].
    constructor; [|by apply IH].
    rewrite <- attr_get_None_keys. rewrite attr_get_set_ne by done.
    by rewrite attr_get_None_keys.
Qed.


(** *** Tags *)

Lemma split_colon_no_colon (u : string) : has_colon u = false -> split_colon u = [u].
Proof.
  induction u as [|c u IH]; simpl; [done|].
  destruct (Ascii.eqb c ":"); [done|]. simpl. intros Hu. by rewrite IH.
Qed.

Lemma append_inj_r (p a b : string) : (p ++ a = p ++ b)%string -> a = b.
Proof. induction p as [|c p IH]; simpl; [done|]. intros [= H]. by apply IH. Qed.

Lemma create_element_t (u : string) :
  has_colon u = false ->
  create_element ("t:" ++ u) [] = Ok (Element ("{" ++ TNS ++ "}" ++ u) [] None []).
Proof.
  intros Hu. unfold create_element.
  change ("t:" ++ u)%string with (String "t" (String ":" u)).
  cbn [has_colon split_colon Ascii.eqb Bool.eqb orb].
  rewrite (split_colon_no_colon u Hu). reflexivity.
Qed.

Lemma create_element_shape (t : string) attrs e :
  create_element t attrs = Ok e ->
  attrib_of e = fold_left (fun d kv => attr_set kv.1 kv.2 d) attrs []
  /\ children_of e = [].
Proof.
  unfold create_element.
  destruct (has_colon t); simpl.
  - destruct (split_colon t) as [|ns [|n [|]]]; simpl; try done.
    destruct (ns_translation ns); simpl; [|done]. by intros [= <-].
  - by intros [= <-].
Qed.

(** *** One field *)

Lemma isinstance_not_None v c : isinstance v c = true -> v <> VNone.
Proof. by destruct v. Qed.

Lemma Field_clean_typed f v version v' :
  (default f = VNone \/ isinstance (default f) (value_cls f) = true) ->
  Field_clean f v version = Ok v' ->
  typed f v'.
Proof.
  intros Hdef. unfold Field_clean.
  destruct (match version with Some ver => _ | None => false end);
    [by destruct (format_message _ _ _ _)|].
  destruct v; unfold is_list.
  - destruct (is_required f && is_none (default f)); [done|]. intros [= <-].
    destruct Hdef as [Hd|Hd]; [by left | by right].
  - destruct (isinstance (VStr s) _) eqn:Hi; [|done]. intros [= <-]. by right.
  - destruct (isinstance (VBool b) _) eqn:Hi; [|done]. intros [= <-]. by right.
  - destruct (isinstance (VInt z) _) eqn:Hi; [|done]. intros [= <-]. by right.
  - destruct (isinstance (VList l) _) eqn:Hi; [|done]. intros [= <-]. by right.
Qed.

Lemma clean_typed f v version v' :
  (default f = VNone \/ isinstance (default f) (value_cls f) = true) ->
  clean f v version = Ok v' ->
  typed f v'.
Proof.
  intros Hdef. unfold Metamodel.clean.
  destruct (Field_clean f v version) as [w|e] eqn:Hw; [|done].
  apply Field_clean_typed in Hw; [|done]. simpl.
  destruct (field_class_of f) as [|n| |lo hi].
  - by intros [= <-].
  - destruct (is_none w); [by intros [= <-]|].
    destruct (py_len w) as [k|]; simpl; [|done].
    destruct (n <? k)%nat; [done|]. by intros [= <-].
  - by intros [= <-].
  - destruct (is_none w); [by intros [= <-]|].
    destruct lo as [m|], hi as [m'|]; simpl; destruct (as_int w) as [z|]; simpl; try done;
      repeat match goal with
             | |- context [if ?c then _ else _] => destruct c; simpl; try done
             end;
      by intros [= <-].
Qed.

(** The text that a carried value of a field is written as, and read back
    from. *)
Lemma value_round_trip f v :
  typed f v -> carried v -> v <> VNone ->
  exists t, value_to_xml_text py_str v = Ok t
            /\ t <> EmptyString
            /\ xml_text_to_value py_int t (value_cls f) = Ok v.
Proof.
  intros [[-> _]|Hi] Hc Hv; [done|].
  destruct v as [|s|b|z|l]; simpl in Hc; try done.
  - destruct Hc as [Hs Hsafe]. exists s. simpl. rewrite Hsafe. split_and!; [done|done|].
    by destruct (value_cls f).
  - exists (py_str z). simpl. split_and!; [done|apply py_str_nonempty|].
    destruct (value_cls f); try done. simpl. by rewrite py_int_str.
Qed.


(** *** The loops of [clean] and [supported_fields] *)

Lemma marshalable_guard (c : EWSClass) version f :
  marshalable c version f ->
  match version with
  | Some ver => negb (supports_version build_lt build_ge f ver)
  | None => false
  end = false.
Proof.
  intros (_ & Hsup & _). destruct version as [ver|]; [|done].
  simpl in Hsup. injection Hsup as ->. done.
Qed.

Lemma clean_fields_spec (c : EWSClass) version fs self self' :
  clean_fields fs version self = Ok self' ->
  NoDup (map name fs) ->
  Forall (marshalable c version) fs ->
  (forall f, f ∈ fs -> exists v, self' !! name f = Some v /\ typed f v)
  /\ (forall n, n ∉ map name fs -> self' !! n = self !! n).
Proof.
  revert self. induction fs as [|f fs IH]; intros self Hclean Hnd Hfs; simpl in *.
  { injection Hclean as <-. split; [|done]. intros f Hf. inversion Hf. }
  inversion Hnd as [|? ? Hf Hnd']; subst.
  inversion Hfs as [|? ? Hm Hfs']; subst.
  rewrite (marshalable_guard c version f Hm) in Hclean.
  destruct (self !! name f) as [val|] eqn:Hval; [|done].
  destruct (clean f val version) as [val'|e] eqn:Hval'; [|done]. simpl in Hclean.
  destruct (IH _ Hclean Hnd' Hfs') as [Hin Hout].
  split.
  - intros g Hg. inversion Hg as [|? ? ? Hg']; subst; [|by apply Hin].
    exists val'. split.
    + rewrite Hout by done. apply lookup_insert_eq.
    + eapply clean_typed; [|exact Hval']. by destruct Hm as (_ & _ & _ & _ & ?).
  - intros n Hn. rewrite Hout.
    + apply lookup_insert_ne. intros <-. apply Hn. left.
    + intros Hn'. apply Hn. by right.
Qed.

Lemma supported_among_all (c : EWSClass) version fs :
  Forall (marshalable c version) fs ->
  supported_among build_lt build_ge fs version
  = Ok (List.filter (fun f => negb (is_attribute f)) fs).
Proof.
  induction fs as [|f fs IH]; intros Hfs; simpl; [done|].
  inversion Hfs as [|? ? Hm Hfs']; subst.
  rewrite (IH Hfs'). destruct (is_attribute f); simpl; [done|].
  destruct Hm as (_ & -> & _). done.
Qed.

(** *** Writing one field as an element *)

Lemma marshalable_tags (c : EWSClass) version f u :
  marshalable c version f -> field_uri f = Some u ->
  request_tag f = Ok ("t:" ++ u)%string
  /\ response_tag f = Ok ("{" ++ TNS ++ "}" ++ u)%string
  /\ has_colon u = false.
Proof.
  intros (_ & _ & (u' & Hu' & Hcolon & Hne) & Hns & _) Hu.
  rewrite Hu in Hu'. injection Hu' as <-.
  unfold request_tag, response_tag, field_uri_postfix. rewrite Hu, Hcolon, Hns. simpl.
  by destruct u.
Qed.

Lemma Field_to_xml_text (c : EWSClass) version f u v t :
  marshalable c version f -> field_uri f = Some u ->
  value_to_xml_text py_str v = Ok t ->
  Field_to_xml py_str f v = Ok (Element ("{" ++ TNS ++ "}" ++ u) [] (Some t) []).
Proof.
  intros Hm Hu Ht. unfold Field_to_xml.
  destruct (marshalable_tags c version f u Hm Hu) as (-> & _ & Hcolon). simpl.
  rewrite (create_element_t u Hcolon). simpl.
  destruct v; simpl in *; try done; by injection Ht as <-.
Qed.


(** *** What [to_xml] writes *)

Lemma written_uri self f u t : written self f = Some (u, t) -> field_uri f = Some u.
Proof.
  unfold Metamodel.written. destruct (self !! name f); [|done].
  destruct (field_uri f); [|done]. destruct (value_to_xml_text _ _); [|done].
  by intros [= -> _].
Qed.

Lemma written_keys self fs k :
  k ∈ map fst (written_all self fs) -> Some k ∈ map field_uri fs.
Proof.
  induction fs as [|f fs IH]; simpl; [intros Hk; inversion Hk|].
  unfold Metamodel.written_all. simpl. destruct (written self f) as [[u t]|] eqn:Hw; simpl.
  - intros Hk. inversion Hk; subst.
    + apply written_uri in Hw. rewrite Hw. left.
    + right. by apply IH.
  - intros Hk. right. by apply IH.
Qed.

Lemma written_NoDup self fs :
  NoDup (map field_uri fs) -> NoDup (map fst (written_all self fs)).
Proof.
  induction fs as [|f fs IH]; simpl; intros Hnd; [constructor|].
  inversion Hnd as [|? ? Hf Hnd']; subst.
  unfold Metamodel.written_all. simpl. destruct (written self f) as [[u t]|] eqn:Hw; simpl;
    [|by apply IH].
  constructor; [|by apply IH].
  intros Hin. apply written_keys in Hin. apply written_uri in Hw. by rewrite Hw in Hf.
Qed.

Lemma attr_get_written self fs f u :
  NoDup (map field_uri fs) -> f ∈ fs -> field_uri f = Some u ->
  attr_get u (written_all self fs) = snd <$> written self f.
Proof.
  induction fs as [|g fs IH]; intros Hnd Hf Hu; [inversion Hf|].
  inversion Hnd as [|? ? Hg Hnd']; subst.
  unfold Metamodel.written_all. simpl.
  apply elem_of_cons in Hf as [->|Hf'].
  - destruct (written self g) as [[u' t]|] eqn:Hw; simpl.
    + pose proof (written_uri _ _ _ _ Hw) as Hu'. rewrite Hu in Hu'. injection Hu' as <-.
      by rewrite String.eqb_refl.
    + apply attr_get_None_keys. intros Hin. apply written_keys in Hin.
      by rewrite Hu in Hg.
  - destruct (written self g) as [[u' t]|] eqn:Hw; simpl; [|by apply IH].
    destruct (String.eqb_spec u' u) as [->|Hne]; [|by apply IH].
    exfalso. apply Hg. apply written_uri in Hw. rewrite Hw, <- Hu.
    change (field_uri f ∈ field_uri <$> fs). by apply list_elem_of_fmap_2.
Qed.

Lemma find_prefixed (p : string) (W : list (string * string)) u :
  find (p ++ u) (map (fun ut => Element (p ++ ut.1) [] (Some ut.2) []) W)
  = (fun t => Element (p ++ u) [] (Some t) []) <$> attr_get u W.
Proof.
  induction W as [|[k t] W IH]; [done|].
  cbn [map find attr_get tag_of fst snd].
  destruct (String.eqb_spec k u) as [->|Hne].
  - by rewrite String.eqb_refl.
  - destruct (String.eqb_spec (p ++ k) (p ++ u)) as [Heq|_]; [|exact IH].
    exfalso. apply Hne. by apply append_inj_r in Heq.
Qed.

Lemma find_children (W : list (string * string)) u :
  find ("{" ++ TNS ++ "}" ++ u) (map child_of W)
  = (fun t => child_of (u, t)) <$> attr_get u W.
Proof.
  exact (find_prefixed (String "{" (TNS ++ "}")) W u).
Qed.

Lemma writable_written (c : EWSClass) version self f v :
  writable c version self f -> self !! name f = Some v -> v <> VNone ->
  exists u t, field_uri f = Some u /\ value_to_xml_text py_str v = Ok t
              /\ written self f = Some (u, t).
Proof.
  intros [Hm (v' & Hv' & Hc)] Hv Hne. rewrite Hv in Hv'. injection Hv' as <-.
  destruct Hm as (_ & _ & (u & Hu & _) & _).
  assert (exists t, value_to_xml_text py_str v = Ok t) as [t Ht].
  { destruct v; simpl in *; try done; eauto. }
  exists u, t. split_and!; try done. unfold Metamodel.written. by rewrite Hv, Hu, Ht.
Qed.

Lemma collect_attrs_spec (c : EWSClass) version self fs acc r :
  collect_attrs py_str fs self acc = Ok r ->
  Forall (writable c version self) fs ->
  r = fold_left (fun d kv => attr_set kv.1 kv.2 d) (written_all self fs) acc.
Proof.
  revert acc. induction fs as [|f fs IH]; intros acc Hr Hfs; simpl in *.
  { by injection Hr as <-. }
  inversion Hfs as [|? ? Hf Hfs']; subst.
  destruct Hf as [Hm (v & Hv & Hc)].
  pose proof Hm as (Hro & _). rewrite Hro, Hv in Hr.
  unfold Metamodel.written_all. simpl.
  assert (v = VNone \/ v <> VNone) as [->|Hne]
    by (destruct v; first [by left|by right]).
  - unfold Metamodel.written. rewrite Hv. simpl.
    destruct (field_uri f); by apply IH.
  - destruct (writable_written c version self f v) as (u & t & Hu & Ht & Hw);
      [by split; eauto|done|done|].
    rewrite Hw. simpl. apply IH; [|done].
    rewrite Ht, Hu in Hr. simpl in Hr. by destruct v.
Qed.

Lemma add_elements_spec (c : EWSClass) version self fs e e' :
  add_elements py_str fs self e = Ok e' ->
  Forall (writable c version self) fs ->
  e' = Element (tag_of e) (attrib_of e) (text_of e)
         (children_of e ++ map child_of (written_all self fs)).
Proof.
  revert e. induction fs as [|f fs IH]; intros e He Hfs; simpl in *.
  { injection He as <-. destruct e. simpl. by rewrite app_nil_r. }
  inversion Hfs as [|? ? Hf Hfs']; subst.
  destruct Hf as [Hm (v & Hv & Hc)].
  pose proof Hm as (Hro & _). rewrite Hro, Hv in He.
  unfold Metamodel.written_all. simpl.
  assert (v = VNone \/ v <> VNone) as [->|Hne]
    by (destruct v; first [by left|by right]).
  - unfold Metamodel.written. rewrite Hv. simpl.
    destruct (field_uri f); by apply IH.
  - destruct (writable_written c version self f v) as (u & t & Hu & Ht & Hw);
      [by split; eauto|done|done|].
    rewrite Hw. simpl.
    rewrite (Field_to_xml_text c version f u v t Hm Hu Ht) in He.
    assert (add_elements py_str fs self
              (append_child e (Element ("{" ++ TNS ++ "}" ++ u) [] (Some t) [])) = Ok e')
      as He' by (by destruct v).
    rewrite (IH _ He' Hfs'). destruct e. simpl. by rewrite <- app_assoc.
Qed.


(** *** Reading one field back *)

Lemma written_value (c : EWSClass) version self f v :
  marshalable c version f -> self !! name f = Some v -> typed f v -> carried v ->
  match snd <$> written self f with
  | Some t => t <> EmptyString /\ xml_text_to_value py_int t (value_cls f) = Ok v
  | None => v = VNone /\ default f = VNone
  end.
Proof.
  intros Hm Hv Ht Hc.
  assert (v = VNone \/ v <> VNone) as [->|Hne]
    by (destruct v; first [by left|by right]).
  - unfold Metamodel.written. rewrite Hv. simpl. destruct Ht as [[_ Hd]|Hi]; [|done].
    by destruct (field_uri f).
  - destruct (value_round_trip f v Ht Hc Hne) as (t & Hw & Ht0 & Hr).
    destruct Hm as (_ & _ & (u & Hu & _) & _).
    unfold Metamodel.written. by rewrite Hv, Hu, Hw.
Qed.

Lemma Field_from_xml_written (c : EWSClass) version self f v tag text :
  fields_apart c -> f ∈ FIELDS c ->
  marshalable c version f -> self !! name f = Some v -> typed f v -> carried v ->
  Field_from_xml py_int f
    (Element tag (written_all self (attribute_fields c)) text
       (map child_of
          (written_all self (List.filter (fun f => negb (is_attribute f)) (FIELDS c)))))
  = Ok v.
Proof.
  intros (_ & Hattr & Helem) Hf Hm Hv Ht Hc.
  pose proof (written_value c version self f v Hm Hv Ht Hc) as Hw.
  pose proof Hm as (_ & _ & (u & Hu & _) & _).
  assert (_get_val_from_elem f
            (Element tag (written_all self (attribute_fields c)) text
               (map child_of
                  (written_all self
                     (List.filter (fun f => negb (is_attribute f)) (FIELDS c)))))
          = Ok (or_None (snd <$> written self f))) as Hval.
  { unfold _get_val_from_elem. destruct (is_attribute f) eqn:Ha.
    - rewrite Hu. simpl. f_equal. f_equal. apply attr_get_written; [done| |done].
      apply list_elem_of_In, filter_In. split; [by apply list_elem_of_In|done].
    - destruct (marshalable_tags c version f u Hm Hu) as (_ & -> & _). simpl.
      unfold get_xml_attr. simpl. rewrite find_children.
      rewrite (attr_get_written self _ f u); [|done| |done].
      + by destruct (written self f) as [[u' t]|].
      + apply list_elem_of_In, filter_In. split; [by apply list_elem_of_In|by rewrite Ha]. }
  unfold Field_from_xml. rewrite Hval. simpl.
  destruct (snd <$> written self f) as [t|]; simpl.
  - destruct Hw as [Ht0 Hr]. destruct t; [done|]. simpl. by rewrite Hr.
  - destruct Hw as [-> ->]. done.
Qed.

(** *** The loops of [from_xml] and [__init__] *)

Lemma read_fields_spec (g : Field -> value) fs elem kwargs :
  (forall f, f ∈ fs -> Field_from_xml py_int f elem = Ok (g f)) ->
  read_fields py_int fs elem kwargs
  = Ok (fold_left (fun kw f => <[name f := g f]> kw) fs kwargs).
Proof.
  revert kwargs. induction fs as [|f fs IH]; intros kwargs Hg; simpl; [done|].
  rewrite Hg by left. simpl. apply IH. intros f' Hf'. apply Hg. by right.
Qed.

Lemma fold_insert_lookup_ne (g : Field -> value) fs (m : gmap string value) n :
  n ∉ map name fs ->
  fold_left (fun kw f => <[name f := g f]> kw) fs m !! n = m !! n.
Proof.
  revert m. induction fs as [|f fs IH]; intros m Hn; simpl; [done|].
  rewrite IH.
  - apply lookup_insert_ne. intros <-. apply Hn. left.
  - intros Hin. apply Hn. by right.
Qed.

Lemma fold_insert_lookup (g : Field -> value) fs (m : gmap string value) f :
  NoDup (map name fs) -> f ∈ fs ->
  fold_left (fun kw f => <[name f := g f]> kw) fs m !! name f = Some (g f).
Proof.
  revert m. induction fs as [|f0 fs IH]; intros m Hnd Hf; [inversion Hf|].
  inversion Hnd as [|? ? Hf0 Hnd']; subst. simpl.
  apply elem_of_cons in Hf as [->|Hf].
  - rewrite fold_insert_lookup_ne by done. apply lookup_insert_eq.
  - by apply IH.
Qed.

Lemma fold_insert_dom (g : Field -> value) fs (m : gmap string value) :
  dom (fold_left (fun kw f => <[name f := g f]> kw) fs m)
  ⊆ dom m ∪ list_to_set (map name fs).
Proof.
  intros n Hn. apply elem_of_dom in Hn.
  destruct (decide (n ∈ map name fs)) as [Hin|Hout].
  - apply elem_of_union_r. by apply elem_of_list_to_set.
  - apply elem_of_union_l. apply elem_of_dom.
    by rewrite fold_insert_lookup_ne in Hn.
Qed.


(** *** The element that [to_xml] builds *)

Lemma to_xml_shape (c : EWSClass) version self elem self' :
  fields_apart c ->
  Forall (marshalable c version) (FIELDS c) ->
  to_xml c version self = Ok (elem, self') ->
  (forall f v, f ∈ FIELDS c -> self' !! name f = Some v -> carried v) ->
  (forall f, f ∈ FIELDS c -> exists v, self' !! name f = Some v /\ typed f v)
  /\ exists tag text,
       elem = Element tag (written_all self' (attribute_fields c)) text
                (map child_of
                   (written_all self'
                      (List.filter (fun f => negb (is_attribute f)) (FIELDS c)))).
Proof.
  intros (Hnames & Hattr & Helem) Hfs Hto Hc. unfold Metamodel.to_xml in Hto.
  unfold EWSElement_clean in Hto.
  destruct (clean_fields (FIELDS c) version self) as [s1|] eqn:Hclean; [|done].
  simpl in Hto.
  destruct (collect_attrs py_str (attribute_fields c) s1 []) as [attrs|] eqn:Hattrs; [|done].
  simpl in Hto.
  destruct (class_request_tag c) as [t|]; [|done]. simpl in Hto.
  destruct (create_element t attrs) as [e0|] eqn:He0; [|done]. simpl in Hto.
  unfold supported_fields in Hto. rewrite (supported_among_all c version _ Hfs) in Hto.
  simpl in Hto.
  destruct (add_elements py_str _ s1 e0) as [e1|] eqn:He1; [|done].
  simpl in Hto. injection Hto as <- <-.
  destruct (clean_fields_spec c version _ _ _ Hclean Hnames Hfs) as [Htyped _].
  split; [exact Htyped|].
  assert (Forall (writable c version s1) (FIELDS c)) as Hw.
  { apply Forall_forall. intros f Hf. split.
    - by eapply (proj1 (Forall_forall _ _) Hfs).
    - destruct (Htyped f Hf) as (v & Hv & _). exists v. split; [done|]. by eapply Hc. }
  assert (forall p, Forall (writable c version s1) (List.filter p (FIELDS c))) as Hwp.
  { intros p. apply Forall_forall. intros f Hf.
    apply list_elem_of_In, filter_In in Hf as [Hf _].
    by eapply (proj1 (Forall_forall _ _) Hw), list_elem_of_In. }
  pose proof (collect_attrs_spec c version _ _ _ _ Hattrs (Hwp _)) as ->.
  pose proof (add_elements_spec c version _ _ _ _ He1 (Hwp _)) as ->.
  destruct (create_element_shape _ _ _ He0) as [Ha Hch].
  exists (tag_of e0), (text_of e0). rewrite Ha, Hch. simpl. f_equal.
  rewrite !attr_rebuild; try done.
  - by apply written_NoDup.
  - rewrite attr_rebuild; [by apply written_NoDup|by apply written_NoDup|done].
Qed.

(** C1, as the code has it.  An object all of whose fields marshal
    through a tag or attribute of their own, none of them read-only or
    outside the version, and whose values after [clean] are [None],
    non-empty strings of legal XML characters, or integers, is read back
    by [from_xml] from the element that [to_xml] built as an object
    equal to it. *)
Theorem marshal_round_trip (c : EWSClass) version self elem self' :
  fields_apart c ->
  Forall (marshalable c version) (FIELDS c) ->
  to_xml c version self = Ok (elem, self') ->
  (forall f v, f ∈ FIELDS c -> self' !! name f = Some v -> carried v) ->
  exists other, from_xml py_int c elem = Ok other /\ EWSElement_eq c other self'.
Proof.
  intros Hapart Hfs Hto Hc.
  destruct (to_xml_shape c version self elem self' Hapart Hfs Hto Hc)
    as (Htyped & tag & text & ->).
  pose (g := fun f : Field => from_option id VNone (self' !! name f)).
  assert (forall f, f ∈ FIELDS c -> self' !! name f = Some (g f)) as Hg.
  { intros f Hf. destruct (Htyped f Hf) as (v & Hv & _). unfold g. by rewrite Hv. }
  unfold Metamodel.from_xml.
  rewrite (read_fields_spec g).
  2:{ intros f Hf. destruct (Htyped f Hf) as (v & Hv & Ht).
      rewrite (Hg f Hf) in Hv. injection Hv as <-.
      apply (Field_from_xml_written c version); try done.
      - by eapply (proj1 (Forall_forall _ _) Hfs).
      - by apply Hg.
      - eapply Hc; [done|]. by apply Hg. }
  simpl. unfold EWSElement_init.
  destruct (decide _) as [_|Hno].
  2:{ exfalso. apply Hno. etrans; [apply fold_insert_dom|].
      by rewrite dom_empty_L, (left_id_L ∅ (∪)). }
  eexists. split; [done|].
  unfold EWSElement_eq, hash_key. apply map_ext_in. intros f Hf.
  apply list_elem_of_In in Hf. destruct Hapart as (Hnames & _).
  rewrite fold_insert_lookup by done.
  rewrite fold_insert_lookup by done. simpl.
  by rewrite (Hg f Hf).
Qed.

End MarshalFacts.

Lemma decimal_int_str (z : Z) : Metamodel.decimal_int (Metamodel.decimal_str z) = Some z.
Proof.
  unfold Metamodel.decimal_int, Metamodel.decimal_str.
  rewrite NilZero.isi.
  - simpl. by rewrite DecimalZ.of_to.
  - destruct z as [|p|p]; simpl; [done| |done].
    intros [= Hp]. by apply (DecimalPos.Unsigned.to_uint_nonnil p).
  - destruct z as [|p|p]; simpl; [done|done|].
    intros [= Hp]. by apply (DecimalPos.Unsigned.to_uint_nonnil p).
Qed.

Lemma decimal_str_nonempty (z : Z) : Metamodel.decimal_str z <> EmptyString.
Proof.
  intros Hz. pose proof (decimal_int_str z) as Hr. by rewrite Hz in Hr.
Qed.

(** The hypotheses of [marshal_round_trip] at a [FailedMailbox] for
    Exchange 2013 whose mailbox is "a@b", error code 12 and error message
    "oops", and whose archive flag is not set. *)
Lemma marshal_round_trip_witness :
  Metamodel.fields_apart Metamodel.FailedMailbox
  /\ Forall (Metamodel.marshalable Z.ltb Z.geb Metamodel.FailedMailbox
               Metamodel.example_version)
       (Metamodel.FIELDS Metamodel.FailedMailbox)
  /\ Metamodel.to_xml Z.ltb Z.geb Metamodel.decimal_str
      Metamodel.example_Build_str Metamodel.example_Version_str
      Metamodel.FailedMailbox
       Metamodel.example_version Metamodel.example_mailbox
     = Ok (Metamodel.example_mailbox_xml, Metamodel.example_mailbox)
  /\ (forall f v, f ∈ Metamodel.FIELDS Metamodel.FailedMailbox ->
        Metamodel.example_mailbox !! Metamodel.name f = Some v -> Metamodel.carried v)
  /\ exists other,
       Metamodel.from_xml Metamodel.decimal_int Metamodel.FailedMailbox
         Metamodel.example_mailbox_xml = Ok other
       /\ Metamodel.EWSElement_eq Metamodel.FailedMailbox other Metamodel.example_mailbox.
Proof.
  assert (Metamodel.fields_apart Metamodel.FailedMailbox) as Hapart.
  { unfold Metamodel.fields_apart.
    split_and!; apply (bool_decide_unpack _); vm_compute; exact I. }
  assert (Forall (Metamodel.marshalable Z.ltb Z.geb Metamodel.FailedMailbox
                    Metamodel.example_version)
            (Metamodel.FIELDS Metamodel.FailedMailbox)) as Hfs.
  { repeat apply Forall_cons_2; try apply Forall_nil_2;
      (split_and!; [reflexivity|reflexivity|by eexists|reflexivity|by left]). }
  assert (Metamodel.to_xml Z.ltb Z.geb Metamodel.decimal_str
      Metamodel.example_Build_str Metamodel.example_Version_str
      Metamodel.FailedMailbox
            Metamodel.example_version Metamodel.example_mailbox
          = Ok (Metamodel.example_mailbox_xml, Metamodel.example_mailbox)) as Hto
    by reflexivity.
  assert (forall f v, f ∈ Metamodel.FIELDS Metamodel.FailedMailbox ->
            Metamodel.example_mailbox !! Metamodel.name f = Some v -> Metamodel.carried v)
    as Hc.
  { intros f v Hf Hv. simpl in Hf.
    repeat (apply elem_of_cons in Hf as [->|Hf]); [| | | |by inversion Hf];
      vm_compute in Hv; injection Hv as <-; by simpl. }
  split; [exact Hapart|]. split; [exact Hfs|]. split; [exact Hto|]. split; [exact Hc|].
  exact (marshal_round_trip Z.ltb Z.geb Metamodel.decimal_int Metamodel.decimal_str
           Metamodel.example_Build_str Metamodel.example_Version_str
           decimal_int_str decimal_str_nonempty
           Metamodel.FailedMailbox Metamodel.example_version Metamodel.example_mailbox
           Metamodel.example_mailbox_xml Metamodel.example_mailbox Hapart Hfs Hto Hc).
Defined.

(** C1 as the specification has it does not hold.  A [FailedMailbox]
    whose error message is the empty string passes [clean] and is written
    by [to_xml]; [from_xml] reads [None] for the error message from the
    element, and the object it returns is not equal to the one written.
    The same holds of a [FailedMailbox] whose archive flag is [True]:
    the flag is written as "1", which [from_xml] reads as [None]. *)
Lemma marshal_round_trip_drops_values :
  (Metamodel.to_xml Z.ltb Z.geb Metamodel.decimal_str
      Metamodel.example_Build_str Metamodel.example_Version_str
      Metamodel.FailedMailbox
     Metamodel.example_version Metamodel.blank_message_mailbox
   = Ok (Metamodel.blank_message_xml, Metamodel.blank_message_mailbox)
   /\ Metamodel.from_xml Metamodel.decimal_int Metamodel.FailedMailbox
        Metamodel.blank_message_xml
      = Ok Metamodel.blank_message_read
   /\ ~ Metamodel.EWSElement_eq Metamodel.FailedMailbox Metamodel.blank_message_read
          Metamodel.blank_message_mailbox)
  /\ (Metamodel.to_xml Z.ltb Z.geb Metamodel.decimal_str
      Metamodel.example_Build_str Metamodel.example_Version_str
      Metamodel.FailedMailbox
        Metamodel.example_version Metamodel.archive_mailbox
      = Ok (Metamodel.archive_xml, Metamodel.archive_mailbox)
      /\ Metamodel.from_xml Metamodel.decimal_int Metamodel.FailedMailbox
           Metamodel.archive_xml
         = Ok Metamodel.archive_read
      /\ ~ Metamodel.EWSElement_eq Metamodel.FailedMailbox Metamodel.archive_read
             Metamodel.archive_mailbox).
Proof.
  split; (split; [reflexivity|]; split; [reflexivity|]);
    unfold Metamodel.EWSElement_eq, Metamodel.hash_key; simpl; intros [= Heq].
Qed.

(** A field that is read-only is not written: of a [Probe] whose size is
    5, [to_xml] writes the subject only, and [from_xml] reads [None] for
    the size. *)
Example read_only_field_not_written :
  exists elem other,
    Metamodel.to_xml Z.ltb Z.geb Metamodel.decimal_str
        Metamodel.example_Build_str Metamodel.example_Version_str
        Metamodel.Probe
      Metamodel.example_version
      (Metamodel.instance [("subject", Metamodel.VStr "hi");
                           ("size", Metamodel.VInt 5)]%string)
    = Ok (elem, Metamodel.instance [("subject", Metamodel.VStr "hi");
                                    ("size", Metamodel.VInt 5)]%string)
    /\ Metamodel.children_of elem
       = [Metamodel.Element ("{" ++ Metamodel.TNS ++ "}Subject") []
            (Some "hi"%string) []]
    /\ Metamodel.from_xml Metamodel.decimal_int Metamodel.Probe elem = Ok other
    /\ other !! "size"%string = Some Metamodel.VNone.
Proof.
  exists (Metamodel.Element ("{" ++ Metamodel.TNS ++ "}Probe") [] None
            [Metamodel.Element ("{" ++ Metamodel.TNS ++ "}Subject") []
               (Some "hi"%string) []]),
         (Metamodel.instance [("subject", Metamodel.VStr "hi");
                              ("size", Metamodel.VNone)]%string).
  split_and!; reflexivity.
Qed.

(** ** The retry loop of [post_ratelimited] *)

Section RetryFacts.
Import Retry.
Context (py_int : string -> option Z).
Context (split_url : string -> bool * string * string).

Abbreviation _retry_after := (_retry_after py_int).

Lemma back_offs_app tr1 tr2 : back_offs (tr1 ++ tr2) = back_offs tr1 ++ back_offs tr2.
Proof.
  induction tr1 as [|e tr1 IH]; simpl; [done|].
  destruct e; simpl; by rewrite ?IH.
Qed.

Lemma count_app f tr1 tr2 : count f (tr1 ++ tr2) = (count f tr1 + count f tr2)%nat.
Proof. induction tr1 as [|e tr1 IH]; simpl; [done|]. rewrite IH. lia. Qed.

Lemma _retry_after_ge r w : w <= _retry_after r w.
Proof.
  unfold Retry._retry_after.
  destruct (py_int _) as [n|]; [|lia].
  destruct (Z.gtb_spec n w); lia.
Qed.

Lemma _retry_after_chain r w ds :
  doubling_chain py_int (2 * _retry_after r w) ds ->
  doubling_chain py_int w ((r, _retry_after r w) :: ds).
Proof.
  intros Hds. simpl. split; [|split; [apply _retry_after_ge | exact Hds]].
  unfold Retry._retry_after.
  destruct (py_int _) as [n|]; [|done].
  by destruct (n >? w).
Qed.

(** The events of one turn before the post never include a back-off. *)
Ltac turn_cases :=
  repeat match goal with
         | |- context [let '(_, _) := ?x in _] => destruct x eqn:?
         | |- context [match ?x with _ => _ end] => destruct x eqn:?
         end.

Section AnyPolicy.
Context {P : Type} `{RetryPolicy P}.

Lemma loop_doubling_chain allow turns (l : locals) :
  doubling_chain py_int (wait l) (back_offs (loop py_int split_url allow turns l).1).
Proof.
  revert l. induction turns as [|t turns IH]; intros l; simpl; [done|].
  destruct (back_off_until (now_until t) (policy l)) as [p until].
  set (slept := match until with
                | Some u => if u - now_sleep t >? 0
                            then [EvSleep (u - now_sleep t); EvRenewSession] else []
                | None => []
                end).
  assert (back_offs slept = []) as Hslept.
  { unfold slept. destruct until as [u|]; [|done]. by destruct (u - now_sleep t >? 0). }
  destruct (posted (cur_url l) (post t)) as [r|e]; simpl;
    [|by rewrite back_offs_app, Hslept].
  destruct (_need_new_credentials r).
  { specialize (IH (mkLocals (wait l) (retry l) (redirects l) (cur_url l) p)).
    destruct (loop _ _ _ _ _) as [tr f]. simpl in *.
    by rewrite back_offs_app, Hslept. }
  destruct (may_retry_on_error r (total_wait t) p) as [[|]|e]; simpl;
    [| |by rewrite back_offs_app, Hslept].
  - destruct (back_off (Some (_retry_after r (wait l))) (now_back_off t) p)
      as [p'|e]; simpl.
    + specialize (IH (mkLocals (_retry_after r (wait l) * 2) (retry l + 1)
                               (redirects l) (cur_url l) p')).
      destruct (loop _ _ _ _ _) as [tr f]. simpl in *.
      rewrite back_offs_app, Hslept. simpl.
      apply _retry_after_chain. by rewrite Z.mul_comm.
    + rewrite back_offs_app, Hslept. simpl.
      split; [|split; [apply _retry_after_ge | done]].
      unfold Retry._retry_after.
      destruct (py_int _) as [n|]; [|done].
      by destruct (n >? wait l).
  - destruct ((status_code r =? 301) || (status_code r =? 302)).
    + destruct (_redirect_or_fail split_url r (redirects l) allow) as [[u n]|e]; simpl;
        [|by rewrite back_offs_app, Hslept].
      specialize (IH (mkLocals (wait l) (retry l) n u p)).
      destruct (loop _ _ _ _ _) as [tr f]. simpl in *.
      by rewrite back_offs_app, Hslept.
    + destruct (after_loop p r) as [evs f] eqn:Hafter. simpl.
      rewrite back_offs_app, Hslept. simpl.
      unfold after_loop in Hafter.
      repeat match type of Hafter with
             | (if ?c then _ else _) = _ => destruct c
             end; by inversion Hafter.
Qed.

End AnyPolicy.

(** What [FaultTolerance] answers depends on its [max_wait] only, which
    no method changes. *)
Lemma may_retry_max_wait r w (p p' : FaultTolerance) :
  max_wait p' = max_wait p ->
  FaultTolerance_may_retry_on_error r w p' = FaultTolerance_may_retry_on_error r w p.
Proof. intros Hmax. unfold FaultTolerance_may_retry_on_error. by rewrite Hmax. Qed.

Lemma back_off_until_max_wait now (p : FaultTolerance) :
  max_wait (FaultTolerance_back_off_until now p).1 = max_wait p.
Proof.
  unfold FaultTolerance_back_off_until.
  destruct (_back_off_until p) as [t|]; [|done]. by destruct (t <? now).
Qed.

(** Turns that are all to be retried: each is followed by one back-off and
    one more turn of the loop. *)
Lemma fault_tolerance_retries allow turns rs (l : locals (P := FaultTolerance)) p u :
  max_wait (policy l) = max_wait p ->
  cur_url l = u ->
  Forall2 (retried p u) turns rs ->
  let run := loop py_int split_url allow turns l in
  back_offs run.1 = documented_delays py_int (wait l) rs
  /\ count is_post run.1 = length turns
  /\ run.2 = Pending.
Proof.
  intros Hmax Hurl Hturns. revert l Hmax Hurl.
  induction Hturns as [|t r turns rs (Hpost & Hcred & Hretry) Hturns IH];
    intros l Hmax Hurl.
  { by simpl. }
  pose proof (back_off_until_max_wait (now_until t) (policy l)) as Hp1.
  cbn [loop]. cbn [back_off_until FaultTolerance_policy].
  destruct (FaultTolerance_back_off_until (now_until t) (policy l)) as [p1 until].
  cbn [fst] in Hp1. cbn [cur_url wait retry redirects policy].
  set (slept := match until with
                | Some b => if b - now_sleep t >? 0
                            then [EvSleep (b - now_sleep t); EvRenewSession] else []
                | None => []
                end).
  assert (back_offs slept = [] /\ count is_post slept = 0%nat) as [Hslept Hposts].
  { unfold slept. destruct until as [b|]; [|done]. by destruct (b - now_sleep t >? 0). }
  rewrite Hurl, Hpost, Hcred. cbn [may_retry_on_error back_off FaultTolerance_policy].
  rewrite (may_retry_max_wait r (total_wait t) p p1) by congruence.
  rewrite Hretry. unfold FaultTolerance_back_off.
  match goal with
  | |- context [loop py_int split_url allow turns ?l'] =>
      specialize (IH l'); destruct (loop py_int split_url allow turns l') as [tr f]
  end.
  cbn [fst snd wait policy cur_url max_wait] in *.
  destruct IH as (Hb & Hc & Hf); [congruence|done|].
  split_and!.
  - rewrite back_offs_app, Hslept. cbn [app back_offs]. rewrite Hb.
    cbn [documented_delays]. unfold Retry._retry_after. by rewrite Z.mul_comm.
  - rewrite count_app, Hposts. simpl. by rewrite Hc.
  - done.
Qed.


(** Under [FailFast] a turn neither sleeps nor backs off, and every post
    but the last is followed by a token refresh or a followed redirect. *)
Lemma fail_fast_loop allow turns (l : locals (P := FailFast)) :
  0 <= redirects l <= MAX_REDIRECTS ->
  let run := loop py_int split_url allow turns l in
  back_offs run.1 = []
  /\ (count is_post run.1 <= 1 + count is_refresh run.1 + count is_redirect run.1)%nat
  /\ (run.2 <> Pending ->
      count is_post run.1 = (1 + count is_refresh run.1 + count is_redirect run.1)%nat)
  /\ redirects l + Z.of_nat (count is_redirect run.1) <= MAX_REDIRECTS
  /\ (allow = false -> count is_redirect run.1 = 0%nat).
Proof.
  revert l. induction turns as [|t turns IH]; intros l Hred; simpl.
  { simpl. split_and!; try done; lia. }
  destruct (posted (cur_url l) (post t)) as [r|e]; simpl.
  2:{ simpl. split_and!; try done; lia. }
  destruct (_need_new_credentials r).
  { specialize (IH (mkLocals (wait l) (retry l) (redirects l) (cur_url l) (policy l)) Hred).
    destruct (loop _ _ _ _ _) as [tr f]. simpl in *.
    destruct IH as (Hb & Hle & Heq & Hmax & Hno).
    simpl. split_and!; try done; try lia.
    intros Hf. specialize (Heq Hf). lia. }
  destruct ((status_code r =? 301) || (status_code r =? 302)).
  - unfold _redirect_or_fail.
    destruct (get_redirect_url split_url r false false) as [u|u|e]; simpl;
      try (simpl; split_and!; try done; lia).
    destruct allow; simpl;
      try (simpl; split_and!; try done; lia).
    destruct (Z.gtb_spec (redirects l + 1) MAX_REDIRECTS) as [Hgt|Hle]; simpl;
      try (simpl; split_and!; try done; lia).
    specialize (IH (mkLocals (wait l) (retry l) (redirects l + 1) u (policy l))).
    simpl in IH. destruct (loop _ _ _ _ _) as [tr f]. simpl in *.
    destruct IH as (Hb & Hposts & Heq & Hmax & Hno); [lia|].
    simpl. split_and!; try done; try lia.
    intros Hf. specialize (Heq Hf). lia.
  - destruct (after_loop (policy l) r) as [evs f] eqn:Hafter. simpl.
    unfold after_loop in Hafter.
    repeat match type of Hafter with
           | (if ?c then _ else _) = _ => destruct c
           end; inversion Hafter; subst;
      simpl; split_and!; try done; lia.
Qed.

(** C4, as the code has it.  [FailFast.may_retry_on_error] returns [False],
    [FailFast.back_off_until] is [None] and [FailFast.back_off] raises
    [ValueError], whatever the arguments; under [FailFast],
    [post_ratelimited] never backs off, and it posts once, plus once for
    every refresh of an expired OAuth token and for every redirect it
    follows, of which there are at most [MAX_REDIRECTS] and none unless
    [allow_redirects] is set. *)
Theorem fail_fast_never_retries (url : string) (allow_redirects : bool) (turns : list turn) :
  (forall r w p, may_retry_on_error (P := FailFast) r w p = Ok false)
  /\ (forall now p, back_off_until (P := FailFast) now p = (p, None))
  /\ (forall seconds now p, back_off (P := FailFast) seconds now p = Raise ValueError)
  /\ let tr := (post_ratelimited py_int split_url mkFailFast url allow_redirects turns).1 in
     back_offs tr = []
     /\ (count is_post tr <= 1 + count is_refresh tr + count is_redirect tr)%nat
     /\ Z.of_nat (count is_redirect tr) <= MAX_REDIRECTS
     /\ (allow_redirects = false -> count is_redirect tr = 0%nat).
Proof.
  repeat (split; [done|]).
  pose proof (fail_fast_loop allow_redirects turns (mkLocals RETRY_WAIT 0 0 url mkFailFast))
    as Hloop.
  unfold post_ratelimited. simpl in Hloop.
  destruct Hloop as (Hb & Hposts & _ & Hmax & Hno); [unfold MAX_REDIRECTS; lia|].
  split_and!; done.
Qed.

End RetryFacts.

(** C4 as stated fails: the session raises [TokenExpiredError] at the first
    post, the credentials are refreshed, and the second post returns 200;
    under [FailFast] that run posts twice before it returns. *)
Lemma fail_fast_posts_twice :
  let ok := Retry.mkResponse 200 [] "<?xml" "https://mail.example.com/EWS/Exchange.asmx" in
  let turns := [Retry.mkTurn 0 0 Retry.PostTokenExpired 0 0;
                Retry.mkTurn 1 1 (Retry.PostReturns ok) 1 1] in
  let run := Retry.post_ratelimited (fun _ => None) (fun _ => (true, "", ""))%string
               Retry.mkFailFast "https://mail.example.com/EWS/Exchange.asmx"
               false turns in
  run.2 = Retry.Returned ok
  /\ Retry.count Retry.is_post run.1 = 2%nat
  /\ ~ (Retry.count Retry.is_post run.1 <= 1)%nat.
Proof. split_and!; [reflexivity | reflexivity | simpl; lia]. Qed.


(** ** Chaining on [QuerySet] leaves the receiver unchanged *)

Section QuerySetFacts.
Import QuerySets.
Context {QVal FieldPath : Type}.
Context (Q_empty Q_never : QVal) (Q_and : QVal -> QVal -> QVal) (Q_not : QVal -> QVal).
Context (Q_is_never : QVal -> bool).

Abbreviation store := (store QVal FieldPath).
Abbreviation M := (@M QVal FieldPath).
Implicit Types (h : store) (P : store -> Prop) (E : exn -> Prop).

Lemma preserved_refl h : preserved h h.
Proof. by split_and!. Qed.

Lemma grows_preserved h0 h h' : preserved h0 h -> grows h h' -> preserved h0 h'.
Proof.
  intros (Hs & Hq & Hf) (Hs' & Hq' & Hf'). split_and!.
  - by rewrite Hs'.
  - by trans (qobjs h).
  - by trans (forders h).
Qed.

Lemma triple_ret h0 P {A} (a : A) E :
  triple h0 P (ret a) (fun b h => b = a /\ P h) E.
Proof. intros h Hh HP. simpl. done. Qed.

Lemma triple_throw h0 P {A} e (Q : A -> store -> Prop) E :
  E e -> triple h0 P (throw e) Q E.
Proof. intros He h Hh HP. simpl. done. Qed.

Lemma triple_bind h0 P {A B} (m : M A) (k : A -> M B) Q R E :
  triple h0 P m Q E ->
  (forall a, triple h0 (Q a) (k a) R E) ->
  triple h0 P (mbind m k) R E.
Proof.
  intros Hm Hk h Hh HP. unfold mbind.
  destruct (Hm h Hh HP) as [Hpres Hpost].
  destruct (m h) as [h' [a|e]]; simpl in *; [|done].
  by apply Hk.
Qed.

Lemma triple_conseq h0 P P' {A} (m : M A) (Q Q' : A -> store -> Prop) E E' :
  triple h0 P m Q E ->
  (forall h, P' h -> P h) ->
  (forall a h, Q a h -> Q' a h) ->
  (forall e, E e -> E' e) ->
  triple h0 P' m Q' E'.
Proof.
  intros Hm HP HQ HE h Hh HP'.
  destruct (Hm h Hh (HP _ HP')) as [Hpres Hpost]. split; [done|].
  destruct (m h).2; auto.
Qed.

Lemma triple_post h0 P {A} (m : M A) (Q Q' : A -> store -> Prop) E :
  triple h0 P m Q E ->
  (forall a h, Q a h -> Q' a h) ->
  triple h0 P m Q' E.
Proof. intros Hm HQ. by apply (triple_conseq h0 P P m Q Q' E E). Qed.

Lemma fresh_lookup_None {V} (m0 m : gmap nat V) :
  m0 ⊆ m -> m0 !! fresh (dom m) = None.
Proof.
  intros Hsub. apply not_elem_of_dom. intros Hin.
  apply (is_fresh (dom m)). by apply (subseteq_dom m0 m).
Qed.

Lemma triple_new_q h0 P v E :
  stable P ->
  triple h0 P (new_q v)
    (fun a h => qobjs h0 !! a = None /\ qobjs h !! a = Some v /\ P h) E.
Proof.
  intros HP h (Hs & Hq & Hf) Hh. unfold new_q. simpl.
  assert (qobjs h !! fresh (dom (qobjs h)) = None) as Hfresh
    by (apply fresh_lookup_None; done).
  split; [split_and!|split_and!]; simpl; try done.
  - by apply insert_subseteq_r; [apply fresh_lookup_None|].
  - by apply fresh_lookup_None.
  - apply lookup_insert_eq.
  - apply (HP h); [done|]. split_and!; simpl; try done. by apply insert_subseteq.
Qed.

Lemma triple_new_forder h0 P v E :
  stable P ->
  triple h0 P (new_forder v)
    (fun a h => forders h0 !! a = None /\ forders h !! a = Some v /\ P h) E.
Proof.
  intros HP h (Hs & Hq & Hf) Hh. unfold new_forder. simpl.
  assert (forders h !! fresh (dom (forders h)) = None) as Hfresh
    by (apply fresh_lookup_None; done).
  split; [split_and!|split_and!]; simpl; try done.
  - by apply insert_subseteq_r; [apply fresh_lookup_None|].
  - by apply fresh_lookup_None.
  - apply lookup_insert_eq.
  - apply (HP h); [done|]. split_and!; simpl; try done. by apply insert_subseteq.
Qed.

Lemma triple_new_qset h0 P P' v E :
  (forall h qs, P h -> P' (mkStore qs (qobjs h) (forders h))) ->
  triple h0 P (new_qset v)
    (fun a h => qsets h0 !! a = None /\ qsets h !! a = Some v /\ P' h) E.
Proof.
  intros HP h (Hs & Hq & Hf) Hh. unfold new_qset. simpl.
  split; [split_and!|split_and!]; simpl; try done.
  - by apply insert_subseteq_r; [apply fresh_lookup_None|].
  - by apply fresh_lookup_None.
  - apply lookup_insert_eq.
  - by apply HP.
Qed.

Lemma triple_set_qset h0 P P' a v E :
  qsets h0 !! a = None ->
  (forall h qs, P h -> P' (mkStore qs (qobjs h) (forders h))) ->
  triple h0 P (set_qset a v) (fun _ h => qsets h !! a = Some v /\ P' h) E.
Proof.
  intros Ha HP h (Hs & Hq & Hf) Hh. unfold set_qset. simpl.
  split; [split_and!|split_and!]; simpl; try done.
  - by apply insert_subseteq_r.
  - apply lookup_insert_eq.
  - by apply HP.
Qed.

Lemma triple_get_qset h0 P a v E :
  (forall h, P h -> qsets h !! a = Some v) ->
  triple h0 P (get_qset a) (fun b h => b = v /\ P h) E.
Proof.
  intros Ha h Hh HP. unfold get_qset. rewrite (Ha h HP). simpl. done.
Qed.

Lemma triple_get_q h0 P a v E :
  (forall h, P h -> qobjs h !! a = Some v) ->
  triple h0 P (get_q a) (fun b h => b = v /\ P h) E.
Proof.
  intros Ha h Hh HP. unfold get_q. rewrite (Ha h HP). simpl. done.
Qed.

Lemma triple_get_forder h0 P a v E :
  (forall h, P h -> forders h !! a = Some v) ->
  triple h0 P (get_forder a) (fun b h => b = v /\ P h) E.
Proof.
  intros Ha h Hh HP. unfold get_forder. rewrite (Ha h HP). simpl. done.
Qed.


(** Derived rules: a primitive followed by the rest of the method. *)
Lemma triple_get_qset_bind h0 P a v {B} (k : _ -> M B) R E :
  (forall h, preserved h0 h -> P h -> qsets h !! a = Some v) ->
  triple h0 P (k v) R E ->
  triple h0 P (mbind (get_qset a) k) R E.
Proof.
  intros Ha Hk h Hh HP. unfold mbind, get_qset.
  rewrite (Ha h Hh HP). by apply Hk.
Qed.

Lemma triple_get_q_bind h0 P a {B} (k : _ -> M B) R E :
  (forall h, preserved h0 h -> P h -> is_Some (qobjs h !! a)) ->
  (forall v, triple h0 P (k v) R E) ->
  triple h0 P (mbind (get_q a) k) R E.
Proof.
  intros Ha Hk h Hh HP. unfold mbind, get_q.
  destruct (Ha h Hh HP) as [v ->]. by apply Hk.
Qed.

Lemma triple_get_forder_bind h0 P a {B} (k : _ -> M B) R E :
  (forall h, preserved h0 h -> P h -> is_Some (forders h !! a)) ->
  (forall v, triple h0 P (k v) R E) ->
  triple h0 P (mbind (get_forder a) k) R E.
Proof.
  intros Ha Hk h Hh HP. unfold mbind, get_forder.
  destruct (Ha h Hh HP) as [v ->]. by apply Hk.
Qed.

Lemma triple_new_q_bind h0 P v {B} (k : _ -> M B) R E :
  stable P ->
  (forall a, qobjs h0 !! a = None ->
     triple h0 (fun h => is_Some (qobjs h !! a) /\ P h) (k a) R E) ->
  triple h0 P (mbind (new_q v) k) R E.
Proof.
  intros HP Hk. eapply triple_bind; [by apply triple_new_q|].
  intros a h Hh (Ha & Hv & HPh). apply Hk; [done|done|]. by rewrite Hv.
Qed.

Lemma triple_new_forder_bind h0 P v {B} (k : _ -> M B) R E :
  stable P ->
  (forall a, forders h0 !! a = None ->
     triple h0 (fun h => is_Some (forders h !! a) /\ P h) (k a) R E) ->
  triple h0 P (mbind (new_forder v) k) R E.
Proof.
  intros HP Hk. eapply triple_bind; [by apply triple_new_forder|].
  intros a h Hh (Ha & Hv & HPh). apply Hk; [done|done|]. by rewrite Hv.
Qed.

Lemma triple_new_qset_bind h0 P v {B} (k : _ -> M B) R E :
  qsets_free P ->
  (forall a, qsets h0 !! a = None ->
     triple h0 (fun h => qsets h !! a = Some v /\ P h) (k a) R E) ->
  triple h0 P (mbind (new_qset v) k) R E.
Proof.
  intros HP Hk h Hh HPh. unfold mbind.
  destruct (triple_new_qset h0 P P v E HP h Hh HPh) as [Hpres Hpost].
  destruct (new_qset v h) as [h' [a|e]]; simpl in *; [|done].
  destruct Hpost as (Ha & Hv & HPh'). by apply Hk.
Qed.

Lemma triple_set_qset_bind h0 P P' a v {B} (k : _ -> M B) R E :
  qsets h0 !! a = None ->
  qsets_free P' ->
  (forall h, P h -> P' h) ->
  triple h0 (fun h => qsets h !! a = Some v /\ P' h) (k tt) R E ->
  triple h0 P (mbind (set_qset a v) k) R E.
Proof.
  intros Ha HP' HPP' Hk h Hh HPh. unfold mbind.
  assert (forall h qs, P h -> P' (mkStore qs (qobjs h) (forders h))) as HP
    by (intros; by apply HP', HPP').
  destruct (triple_set_qset h0 P P' a v E Ha HP h Hh HPh) as [Hpres Hpost].
  destruct (set_qset a v h) as [h' [[]|e]]; simpl in *; [|done].
  by apply Hk.
Qed.

Lemma triple_ret' h0 P {A} (a : A) (Q : A -> store -> Prop) E :
  (forall h, P h -> Q a h) -> triple h0 P (ret a) Q E.
Proof. intros HQ h Hh HP. simpl. split; [done|]. by apply HQ. Qed.

(** Facts about objects survive the creation of objects. *)
Lemma stable_True : stable (fun _ : store => True).
Proof. intros h h' _ _. exact I. Qed.

Lemma stable_and P1 P2 : stable P1 -> stable P2 -> stable (fun h => P1 h /\ P2 h).
Proof. intros H1 H2 h h' [? ?] Hg. split; [by eapply H1 | by eapply H2]. Qed.

Lemma stable_qobj a : stable (fun h => is_Some (qobjs h !! a)).
Proof.
  intros h h' [v Hv] (_ & Hq & _). exists v. by eapply lookup_weaken.
Qed.

Lemma stable_forder a : stable (fun h => is_Some (forders h !! a)).
Proof.
  intros h h' [v Hv] (_ & _ & Hf). exists v. by eapply lookup_weaken.
Qed.

Lemma stable_forders (Φ : nat -> Prop) l :
  stable (fun h => Forall (fun a => Φ a /\ is_Some (forders h !! a)) l).
Proof.
  intros h h' Hl Hg. eapply Forall_impl; [exact Hl|].
  intros a [? Ha]. split; [done|]. by eapply (stable_forder a).
Qed.

Lemma stable_qset a v : stable (fun h => qsets h !! a = Some v).
Proof. intros h h' Hv (Hs & _ & _). by rewrite Hs. Qed.

Lemma qsets_free_True : qsets_free (fun _ : store => True).
Proof. intros h qs _. exact I. Qed.

Lemma qsets_free_and P1 P2 :
  qsets_free P1 -> qsets_free P2 -> qsets_free (fun h => P1 h /\ P2 h).
Proof. intros H1 H2 h qs [? ?]. split; [by apply H1 | by apply H2]. Qed.

Lemma qsets_free_qobj a : qsets_free (fun h => is_Some (qobjs h !! a)).
Proof. intros h qs Ha. exact Ha. Qed.

Lemma qsets_free_forders (Φ : nat -> Prop) l :
  qsets_free (fun h => Forall (fun a => Φ a /\ is_Some (forders h !! a)) l).
Proof. intros h qs Hl. exact Hl. Qed.

Create HintDb store_facts.
#[local] Hint Resolve stable_True stable_and stable_qobj stable_forder stable_forders
  stable_qset qsets_free_True qsets_free_and qsets_free_qobj qsets_free_forders
  : store_facts.

(** The copies and the new objects of [order_by] are new objects. *)
Lemma triple_copy_forder h0 P a :
  stable P ->
  is_Some (forders h0 !! a) ->
  triple h0 P (mbind (get_forder a) new_forder)
    (fun a' h => (forders h0 !! a' = None /\ is_Some (forders h !! a')) /\ P h)
    (fun _ => False).
Proof.
  intros HP [v Hv]. apply triple_get_forder_bind.
  { intros h (_ & _ & Hf) _. exists v. by eapply lookup_weaken. }
  intros v'. eapply triple_post; [by apply triple_new_forder|].
  intros a' h (Ha' & Hsome & HPh). by rewrite Hsome.
Qed.

Lemma triple_new_forder' h0 P v :
  stable P ->
  triple h0 P (new_forder v)
    (fun a' h => (forders h0 !! a' = None /\ is_Some (forders h !! a')) /\ P h)
    (fun _ => False).
Proof.
  intros HP. eapply triple_post; [by apply triple_new_forder|].
  intros a' h (Ha' & Hsome & HPh). by rewrite Hsome.
Qed.

Lemma triple_mapM_new h0 {A} (f : A -> M nat) (l : list A) P :
  stable P ->
  (forall x P', x ∈ l -> stable P' ->
     triple h0 P' (f x)
       (fun a' h => (forders h0 !! a' = None /\ is_Some (forders h !! a')) /\ P' h)
       (fun _ => False)) ->
  triple h0 P (mapM f l)
    (fun l' h => Forall (fun a => forders h0 !! a = None /\ is_Some (forders h !! a)) l'
                 /\ P h)
    (fun _ => False).
Proof.
  intros HP. revert P HP. induction l as [|x l IH]; intros P HP Hf.
  { apply triple_ret'. intros h HPh. by split. }
  change (mapM f (x :: l)) with
    (mbind (f x) (fun y => mbind (mapM f l) (fun ys => ret (y :: ys)))).
  eapply triple_bind; [apply Hf; [by left | exact HP]|].
  intros y. eapply triple_bind.
  { apply (IH (fun h => (forders h0 !! y = None /\ is_Some (forders h !! y)) /\ P h)).
    - apply stable_and; [|done].
      intros h h' [? Hy] Hg. split; [done|]. by eapply (stable_forder y).
    - intros x' P' Hx' HP'. apply Hf; [by right | done]. }
  intros ys. apply triple_ret'. intros h (Hys & Hy & HPh).
  split; [|done]. by constructor.
Qed.

Lemma triple_deepcopy_order_fields h0 P l :
  stable P ->
  Forall (fun a => is_Some (forders h0 !! a)) l ->
  triple h0 P (deepcopy_order_fields l)
    (fun l' h => Forall (fun a => forders h0 !! a = None /\ is_Some (forders h !! a)) l'
                 /\ P h)
    (fun _ => False).
Proof.
  intros HP Hl. apply triple_mapM_new; [done|].
  intros a P' Ha HP'. apply triple_copy_forder; [done|].
  rewrite Forall_forall in Hl. by apply Hl.
Qed.


Lemma triple_pre h0 P P' {A} (m : M A) (Q : A -> store -> Prop) E :
  triple h0 P m Q E ->
  (forall h, P' h -> P h) ->
  triple h0 P' m Q E.
Proof. intros Hm HP. by apply (triple_conseq h0 P P' m Q Q E E). Qed.

Lemma triple_exists h0 {X} (P : X -> store -> Prop) {A} (m : M A) Q E :
  (forall x, triple h0 (P x) m Q E) ->
  triple h0 (fun h => exists x, P x h) m Q E.
Proof. intros Hm h Hh [x HP]. by apply (Hm x). Qed.

Lemma triple_pure h0 (φ : Prop) P {A} (m : M A) Q E :
  (φ -> triple h0 P m Q E) ->
  triple h0 (fun h => φ /\ P h) m Q E.
Proof. intros Hm h Hh [Hφ HP]. by apply Hm. Qed.

Lemma triple_assoc h0 P {A B C} (m : M A) (f : A -> M B) (g : B -> M C) Q E :
  triple h0 P (mbind m (fun x => mbind (f x) g)) Q E ->
  triple h0 P (mbind (mbind m f) g) Q E.
Proof.
  intros Hm h Hh HP. specialize (Hm h Hh HP). unfold mbind in *.
  destruct (m h) as [h1 [a|e]]; simpl in *; [|done].
  by destruct (f a h1) as [h2 [b|e]].
Qed.

Lemma triple_ret_bind h0 P {A B} (a : A) (k : A -> M B) Q E :
  triple h0 P (k a) Q E ->
  triple h0 P (mbind (ret a) k) Q E.
Proof. intros Hk h Hh HP. by apply Hk. Qed.

Lemma triple_copy_self h0 self s P :
  receiver_ok h0 self s ->
  stable P -> qsets_free P ->
  triple h0 P (_copy_self Q_empty self)
    (fun new h => qsets h0 !! new = None /\ copied h0 s new h /\ P h)
    (fun _ => False).
Proof.
  intros (Hself & [vq Hvq] & Hord) HP HPf. unfold _copy_self.
  apply triple_get_qset_bind with (v := s).
  { intros h (Hs & _ & _) _. by eapply lookup_weaken. }
  unfold QuerySet_init. apply triple_assoc.
  apply triple_new_q_bind; [done|]. intros a1 Ha1.
  apply triple_new_qset_bind; [auto with store_facts|]. intros new Hnew.
  eapply triple_get_qset_bind.
  { intros h _ [Hv _]. exact Hv. }
  simpl. unfold deepcopy_q. apply triple_assoc.
  apply triple_get_q_bind.
  { intros h (_ & Hq & _) _. exists vq. by eapply lookup_weaken. }
  intros vq'. apply triple_new_q_bind; [auto with store_facts|]. intros qa Hqa.
  set (fresh_valid := fun (h : store) (oa : option (list nat)) =>
         forall l, oa = Some l ->
           Forall (fun a => forders h0 !! a = None /\ is_Some (forders h !! a)) l).
  apply triple_bind with
    (Q := fun oa h => fresh_valid h oa /\ is_Some (qobjs h !! qa) /\ P h).
  { destruct (order_fields s) as [l|] eqn:Hl.
    - eapply triple_bind.
      { apply triple_deepcopy_order_fields; [auto with store_facts|]. by apply Hord. }
      intros l'. apply triple_ret'.
      intros h (Hl' & Hqa' & _ & _ & HPh). split_and!; [|done|done].
      intros l'' [= <-]. done.
    - apply triple_ret'. intros h (Hqa' & _ & _ & HPh). split_and!; [|done|done].
      intros l'' [=]. }
  intros oa.
  apply triple_set_qset_bind with
    (P' := fun h => fresh_valid h oa /\ is_Some (qobjs h !! qa) /\ P h); [done| |done|].
  { intros h qs (Hfv & Hqa' & HPh). split_and!; [exact Hfv | exact Hqa' | by apply HPf]. }
  apply triple_ret'. intros h (Hv & Hfv & Hqa' & HPh).
  split_and!; [done| |done].
  exists qa, oa. split_and!; try done.
  - intros l ->. eapply Forall_impl; [by apply Hfv|]. by intros a [? ?].
  - intros l ->. eapply Forall_impl; [by apply Hfv|]. by intros a [? ?].
Qed.


Lemma triple_exn h0 P {A} (m : M A) Q E :
  triple h0 P m Q (fun _ => False) -> triple h0 P m Q E.
Proof. intros Hm. by apply (triple_conseq h0 P P m Q Q (fun _ => False) E). Qed.

Lemma stable_copied h0 s new : stable (copied h0 s new).
Proof.
  intros h h' (qa & oa & Hv & Hqa & Hoa & Hqa' & Hoa') Hg.
  exists qa, oa. split_and!; try done.
  - exact (stable_qset new _ h h' Hv Hg).
  - exact (stable_qobj qa h h' Hqa' Hg).
  - intros l Hl. eapply Forall_impl; [by apply Hoa'|].
    intros a Ha. exact (stable_forder a h h' Ha Hg).
Qed.

Lemma stable_fields_ok h0 n : stable (fun h => fields_ok h0 h n).
Proof.
  intros h h' [Hq Ho] Hg. split; [exact (stable_qobj (q n) h h' Hq Hg)|].
  intros l Hl. exact (stable_forders _ l h h' (Ho l Hl) Hg).
Qed.

Lemma qsets_free_fields_ok h0 n : qsets_free (fun h => fields_ok h0 h n).
Proof. intros h qs Hn. exact Hn. Qed.

Lemma triple_get_copied_bind h0 s new P {B} (k : _ -> M B) R E :
  (forall n, qobjs h0 !! q n = None ->
     triple h0 (fun h => fields_ok h0 h n /\ P h) (k n) R E) ->
  triple h0 (fun h => copied h0 s new h /\ P h) (mbind (get_qset new) k) R E.
Proof.
  intros Hk h Hh [(qa & oa & Hv & Hqa & Hoa & Hqa' & Hoa') HP].
  unfold mbind, get_qset. rewrite Hv. apply Hk; [done|done|].
  split; [|done]. split; [done|]. simpl. intros l ->.
  specialize (Hoa l eq_refl). specialize (Hoa' l eq_refl).
  rewrite Forall_forall in Hoa, Hoa'. rewrite Forall_forall.
  intros a Ha. split; [by apply Hoa | by apply Hoa'].
Qed.

(** Writing the changed copy back and returning its address. *)
Lemma triple_finish h0 new n P :
  qsets h0 !! new = None ->
  qobjs h0 !! q n = None ->
  (forall h, P h -> fields_ok h0 h n) ->
  qsets_free (fun h => fields_ok h0 h n) ->
  triple h0 P (mbind (set_qset new n) (fun _ => ret new))
    (fun a h => new_object h0 h a) (fun _ => False).
Proof.
  intros Hnew Hq Hn Hfree.
  apply triple_set_qset_bind with (P' := fun h => fields_ok h0 h n); [done|done|done|].
  apply triple_ret'. intros h [Hv [Hqn Hon]].
  split; [done|]. exists n. split_and!; done.
Qed.

#[local] Hint Resolve stable_copied stable_fields_ok qsets_free_fields_ok : store_facts.

Lemma resolve_all_raise {A} (args : list (result A)) e :
  resolve_all args = Raise e -> In (Raise e) args.
Proof.
  induction args as [|[a|e'] args IH]; simpl; [done| |].
  - destruct (resolve_all args); [done|]. intros [= ->]. right. by apply IH.
  - intros [= ->]. by left.
Qed.

Lemma triple_chain h0 self s c :
  receiver_ok h0 self s ->
  triple h0 (fun _ => True) (chain Q_empty Q_never Q_and Q_not c self)
    (fun new h => new_object h0 h new) (raised_by_args c).
Proof.
  intros Hs. destruct c as [args|args|args|args| |]; simpl.
  - (* filter *)
    unfold filter. eapply triple_bind.
    { apply triple_exn, (triple_copy_self h0 self s); auto with store_facts. }
    intros new. apply triple_pure. intros Hnew.
    destruct args as [v|e]; [|by apply triple_throw].
    apply triple_new_q_bind; [auto with store_facts|]. intros qa Hqa.
    apply triple_pre with
      (P := fun h => copied h0 s new h /\ is_Some (qobjs h !! qa)); [|tauto].
    apply triple_get_copied_bind. intros n Hqn.
    apply triple_get_q_bind; [by intros h _ [[? _] _]|]. intros v1.
    apply triple_get_q_bind; [by intros h _ [_ ?]|]. intros v2.
    apply triple_new_q_bind; [auto with store_facts|]. intros r Hr.
    apply triple_exn, triple_finish; simpl; try done.
    + intros h (Hr' & [_ Ho] & _). by split.
    + apply (qsets_free_fields_ok h0 (with_q r n)).
  - (* exclude *)
    unfold exclude. eapply triple_bind.
    { apply triple_exn, (triple_copy_self h0 self s); auto with store_facts. }
    intros new. apply triple_pure. intros Hnew.
    destruct args as [v|e]; [|by apply triple_throw].
    apply triple_new_q_bind; [auto with store_facts|]. intros qa0 Hqa0.
    apply triple_get_q_bind; [by intros h _ [? _]|]. intros v0.
    apply triple_new_q_bind; [auto with store_facts|]. intros qa Hqa.
    apply triple_pre with
      (P := fun h => copied h0 s new h /\ is_Some (qobjs h !! qa)); [|tauto].
    apply triple_get_copied_bind. intros n Hqn.
    apply triple_get_q_bind; [by intros h _ [[? _] _]|]. intros v1.
    apply triple_get_q_bind; [by intros h _ [_ ?]|]. intros v2.
    apply triple_new_q_bind; [auto with store_facts|]. intros r Hr.
    apply triple_exn, triple_finish; simpl; try done.
    + intros h (Hr' & [_ Ho] & _). by split.
    + apply (qsets_free_fields_ok h0 (with_q r n)).
  - (* only *)
    unfold only. destruct (resolve_all args) as [fields|e] eqn:Hargs;
      [|by apply triple_throw, resolve_all_raise].
    eapply triple_bind.
    { apply triple_exn, (triple_copy_self h0 self s); auto with store_facts. }
    intros new. apply triple_pure. intros Hnew.
    apply triple_get_copied_bind. intros n Hqn.
    apply triple_exn, triple_finish; simpl; try done.
    + by intros h [? _].
    + apply (qsets_free_fields_ok h0 (with_only_fields (Some fields) n)).
  - (* order_by *)
    unfold order_by. destruct (resolve_all args) as [fos|e] eqn:Hargs;
      [|by apply triple_throw, resolve_all_raise].
    eapply triple_bind.
    { apply triple_exn, triple_mapM_new; [auto with store_facts|].
      intros fo P' _ HP'. by apply triple_new_forder'. }
    intros addrs. simpl.
    eapply triple_bind.
    { apply triple_exn, (triple_copy_self h0 self s); [done| |].
      - apply stable_and; [apply stable_forders | apply stable_True].
      - apply qsets_free_and; [apply qsets_free_forders | apply qsets_free_True]. }
    intros new. apply triple_pure. intros Hnew.
    apply triple_get_copied_bind. intros n Hqn.
    apply triple_exn, triple_finish; simpl; try done.
    + intros h [[Hn _] [Haddrs _]]. split; [done|]. simpl. by intros l [= <-].
    + apply (qsets_free_fields_ok h0 (with_order_fields (Some addrs) n)).
  - (* none *)
    unfold none. eapply triple_bind.
    { apply triple_exn, (triple_copy_self h0 self s); auto with store_facts. }
    intros new. apply triple_pure. intros Hnew.
    apply triple_new_q_bind; [auto with store_facts|]. intros qa Hqa.
    apply triple_pre with
      (P := fun h => copied h0 s new h /\ is_Some (qobjs h !! qa)); [|tauto].
    apply triple_get_copied_bind. intros n Hqn.
    apply triple_exn, triple_finish; simpl; try done.
    + intros h ([_ Ho] & Hqa'). by split.
    + apply (qsets_free_fields_ok h0 (with_q qa n)).
  - (* all *)
    unfold all. eapply triple_post.
    { apply triple_exn, (triple_copy_self h0 self s); auto with store_facts. }
    intros new h (Hnew & (qa & oa & Hv & Hqa & Hoa & Hqa' & Hoa') & _).
    split; [done|]. eexists. split; [exact Hv|]. simpl. split_and!; try done.
    intros l ->. specialize (Hoa l eq_refl). specialize (Hoa' l eq_refl).
    rewrite Forall_forall in Hoa, Hoa'. rewrite Forall_forall.
    intros a Ha. split; [by apply Hoa | by apply Hoa'].
Qed.



End QuerySetFacts.



(** ** Paging and the item limit *)

Section PagingFacts.
Import Paging.
Context (py_int : string -> option Z) (py_lower : string -> string).

Lemma count_elems_app ys1 ys2 :
  count_elems (ys1 ++ ys2) = count_elems ys1 + count_elems ys2.
Proof. induction ys1 as [|y ys1 IH]; simpl; [done|]. rewrite IH. lia. Qed.

Lemma count_elems_map_Elem es : count_elems (map Elem es) = Z.of_nat (length es).
Proof. induction es as [|e es IH]; simpl length; simpl count_elems; [done|]. lia. Qed.

(** The counter [total_item_count] counts the elements yielded. *)
Lemma for_pages_total max_items zipped l :
  let r := for_pages max_items zipped l in
  total_item_count r.1.2 = total_item_count l + count_elems r.1.1.
Proof.
  revert l. induction zipped as [|[[pg next] f] zipped IH]; intros l; simpl; [lia|].
  destruct pg as [e| |c].
  - specialize (IH (mkLocals (dict_del f (set_next_offset f next (paging_infos l)))
                             (total_item_count l))).
    destruct (for_pages _ _ _) as [[ys l'] e']. simpl in *. lia.
  - match goal with
    | |- context [for_pages max_items zipped ?l0] => specialize (IH l0)
    end.
    destruct (for_pages _ _ _) as [[ys l'] e']. simpl in *.
    destruct (falsy next); simpl in *; lia.
  - destruct (_get_elems_from_page c max_items (total_item_count l)) as [es|e];
      simpl; [|lia].
    destruct (reached _ _); simpl; [rewrite count_elems_map_Elem; lia|].
    match goal with
    | |- context [for_pages max_items zipped ?l0] => specialize (IH l0)
    end.
    destruct (for_pages _ _ _) as [[ys l'] e']. simpl in *.
    rewrite count_elems_app, count_elems_map_Elem.
    destruct (falsy next); simpl in *; lia.
Qed.

(** While another page is about to be requested, the limit has not been
    reached. *)
Lemma while_loop_pending max_items responses offset l :
  let r := while_loop py_int py_lower max_items responses offset l in
  r.2 = Pending ->
  reached max_items (total_item_count l) = false ->
  reached max_items (total_item_count l + count_elems r.1.1) = false.
Proof.
  revert offset l. induction responses as [|response responses IH]; intros offset l; simpl.
  { destruct (paging_infos l); simpl; intros _ Hl; by rewrite Z.add_0_r. }
  destruct (paging_infos l) as [|i infos] eqn:Hinfos; [done|].
  destruct (_get_pages _ _ _ _) as [pages|e]; [|done].
  pose proof (for_pages_total max_items (combine pages (map fst (i :: infos))) l) as Htotal.
  destruct (for_pages _ _ _) as [[ys l'] e]. simpl in Htotal.
  destruct e as [| |e]; [| |done].
  - destruct (reached max_items (total_item_count l')) eqn:Hreached; [done|].
    destruct (_get_next_offset _) as [o|]; [|done].
    specialize (IH o l').
    destruct (while_loop _ _ _ _ _ _) as [[ys' rs] fin]. simpl in *.
    intros Hfin _. rewrite count_elems_app.
    replace (total_item_count l + (count_elems ys + count_elems ys'))
      with (total_item_count l' + count_elems ys') by lia.
    by apply IH.
  - destruct (reached max_items (total_item_count l')) eqn:Hreached; [done|].
    destruct (_get_next_offset _) as [o|]; [|done].
    specialize (IH o l').
    destruct (while_loop _ _ _ _ _ _) as [[ys' rs] fin]. simpl in *.
    intros Hfin _. rewrite count_elems_app.
    replace (total_item_count l + (count_elems ys + count_elems ys'))
      with (total_item_count l' + count_elems ys') by lia.
    by apply IH.
Qed.

(** Once [max_items] response elements have been yielded, [_paged_call]
    requests no further page: a run that is about to request a page has
    yielded fewer than [max_items] elements. *)
Theorem paged_call_stops_requesting (max_items : Z) (folders : list nat) (offset : Z)
    (responses : list (list message)) :
  0 < max_items ->
  let r := _paged_call py_int py_lower (Some max_items) folders offset responses in
  r.2 = Pending ->
  count_elems r.1.1 < max_items.
Proof.
  intros Hmax r Hpending.
  pose proof (while_loop_pending (Some max_items) responses offset
                (mkLocals (init_infos folders) 0) Hpending) as Hloop.
  fold r in Hloop. simpl in Hloop.
  destruct (Z.eqb_spec max_items 0); [lia|]. simpl in Hloop.
  destruct (Z.geb_spec 0 max_items); [lia|].
  specialize (Hloop eq_refl). unfold r, _paged_call.
  destruct (Z.geb_spec (0 + count_elems
              (while_loop py_int py_lower (Some max_items) responses offset
                 (mkLocals (init_infos folders) 0)).1.1) max_items); [done|lia].
Qed.

End PagingFacts.

(** [paged_call_stops_requesting] at a limit of two items and a first page
    of one item, after which the server's answers are used up. *)
Lemma paged_call_stops_requesting_witness :
  let r := Paging._paged_call Paging.example_int Paging.example_lower (Some 2) [5%nat] 0
             [[Paging.one_item_page]] in
  r.2 = Paging.Pending /\ Paging.count_elems r.1.1 < 2.
Proof.
  split; [reflexivity|].
  apply (paged_call_stops_requesting Paging.example_int Paging.example_lower 2 [5%nat] 0
           [[Paging.one_item_page]]); [lia | reflexivity].
Defined.

(** C8, where the code departs from it.  With [max_items = 1], one folder
    and a server whose first page holds two items, [_paged_call] yields both
    items and then stops: [_get_elems_from_page] tests the limit against the
    count it was called with, which does not move while the page is read. *)
Theorem paged_call_overshoots_max_items :
  let r := Paging._paged_call Paging.example_int Paging.example_lower (Some 1) [5%nat] 0
             [[Paging.two_item_page]] in
  r = ([Paging.Elem 11; Paging.Elem 12], [(0, [5%nat])], Paging.Finished)
  /\ Paging.count_elems r.1.1 = 2
  /\ ~ (Paging.count_elems r.1.1 <= 1).
Proof. split_and!; [reflexivity | reflexivity | simpl; lia]. Qed.

(** ** The two branches of [chunkify] *)

Section ChunkifyBranches.
Import Chunkify.
Context {A : Type}.
Implicit Types (xs chunk : list A) (n i fuel : nat).

(** The fuel of [range_from] does not matter once it covers the range. *)
Lemma range_from_fuel fuel fuel' start stop step :
  (1 <= step)%nat -> (stop - start <= fuel)%nat -> (stop - start <= fuel')%nat ->
  range_from fuel start stop step = range_from fuel' start stop step.
Proof.
  intros Hstep. revert fuel' start.
  induction fuel as [|fuel IH]; intros fuel' start Hf Hf'; simpl.
  - destruct fuel' as [|fuel']; simpl; [done|].
    destruct (Nat.ltb_spec start stop); [lia|done].
  - destruct fuel' as [|fuel']; simpl.
    + destruct (Nat.ltb_spec start stop); [lia|done].
    + destruct (Nat.ltb_spec start stop); [|done].
      f_equal. apply IH; lia.
Qed.

Lemma range_from_shift fuel k start stop step :
  range_from fuel (k + start) (k + stop) step = map (Nat.add k) (range_from fuel start stop step).
Proof.
  revert start. induction fuel as [|fuel IH]; intros start; simpl; [done|].
  destruct (Nat.ltb_spec start stop), (Nat.ltb_spec (k + start) (k + stop)); try lia; [|done].
  simpl. f_equal. rewrite <- IH. f_equal. lia.
Qed.

Lemma py_slice_app_r (p r : list A) j n :
  py_slice (p ++ r) (length p + j) (length p + j + n) = py_slice r j (j + n).
Proof.
  unfold py_slice. rewrite drop_app_add'; [|done]. f_equal. lia.
Qed.

(** The chunks that the sequence branch cuts from [xs]. *)
Lemma chunkify_gen_slices xs (c : Z) chunk :
  1 <= c -> (length chunk < Z.to_nat c)%nat ->
  chunkify_gen xs c chunk
  = map (fun i => py_slice (chunk ++ xs) i (i + Z.to_nat c))
        (range_from (length (chunk ++ xs)) 0 (length (chunk ++ xs)) (Z.to_nat c)).
Proof.
  intros Hc. revert chunk. induction xs as [|x xs IH]; intros chunk Hlen.
  - rewrite app_nil_r. simpl. destruct chunk as [|a chunk]; [done|].
    simpl. f_equal.
    + unfold py_slice. simpl. rewrite Nat.sub_0_r. simpl in Hlen.
      destruct (Z.to_nat c) as [|n] eqn:Hn; [lia|]. simpl. f_equal.
      symmetry. apply take_ge. lia.
    + destruct (length chunk) as [|m] eqn:Hm; [done|]. simpl.
      destruct (Nat.ltb_spec (Z.to_nat c) (S (S m))); [simpl in Hlen; lia|done].
  - simpl. destruct (Z.eqb_spec (Z.of_nat (length (chunk ++ [x]))) c) as [Heq|Hne].
    + rewrite (IH []) by (simpl; lia). simpl.
      assert (length (chunk ++ [x]) = Z.to_nat c) as Hn by lia.
      replace (chunk ++ x :: xs) with ((chunk ++ [x]) ++ xs) by (by rewrite <- app_assoc).
      rewrite length_app, Hn.
      replace (range_from (Z.to_nat c + length xs) 0 (Z.to_nat c + length xs) (Z.to_nat c))
        with (range_from (S (Z.to_nat c - 1 + length xs)) 0 (Z.to_nat c + length xs)
                (Z.to_nat c)) by (f_equal; lia).
      cbn [range_from]. destruct (Nat.ltb_spec 0 (Z.to_nat c + length xs)); [|lia].
      cbn [map]. f_equal.
      * unfold py_slice. rewrite Nat.sub_0_r, drop_0, <- Hn. simpl.
        by rewrite take_app_length.
      * rewrite (range_from_fuel (Z.to_nat c - 1 + length xs) (length xs)) by lia.
        replace (0 + Z.to_nat c)%nat with (Z.to_nat c + 0)%nat by lia.
        rewrite range_from_shift, map_map.
        apply map_ext. intros j. rewrite <- Hn.
        by rewrite <- (py_slice_app_r (chunk ++ [x]) xs j (length (chunk ++ [x]))).
    + rewrite IH.
      * by rewrite <- app_assoc.
      * rewrite length_app in *. simpl in *. lia.
Qed.

(** For a chunk size of at least one, the generator branch of [chunkify]
    yields the chunks that the sequence branch yields. *)
Theorem chunkify_branches_agree xs (c : Z) :
  1 <= c -> chunkify xs c = Ok (chunkify_gen xs c []).
Proof.
  intros Hc. unfold chunkify, py_range.
  destruct (Z.eqb_spec c 0) as [->|_]; [lia|].
  destruct (Z.ltb_spec c 0) as [?|_]; [lia|]. simpl.
  rewrite (chunkify_gen_slices xs c [] Hc); [done|]. simpl. lia.
Qed.

Lemma chunkify_gen_never_full xs (c : Z) chunk :
  c <= 0 ->
  chunkify_gen xs c chunk = match chunk ++ xs with [] => [] | _ => [chunk ++ xs] end.
Proof.
  intros Hc. revert chunk. induction xs as [|x xs IH]; intros chunk; simpl.
  - rewrite app_nil_r. by destruct chunk.
  - destruct (Z.eqb_spec (Z.of_nat (length (chunk ++ [x]))) c) as [Heq|_];
      [rewrite length_app in Heq; simpl in Heq; lia|].
    rewrite IH, <- app_assoc. simpl. by destruct chunk.
Qed.

(** A chunk size below one: the sequence branch raises [ValueError] for
    zero and yields nothing for a negative size, and the generator branch
    yields everything in one chunk. *)
Theorem chunkify_nonpositive_chunksize xs (c : Z) :
  c <= 0 ->
  chunkify xs c = (if c =? 0 then Raise ValueError else Ok [])
  /\ chunkify_gen xs c [] = match xs with [] => [] | _ => [xs] end.
Proof.
  intros Hc. split.
  - unfold chunkify, py_range. destruct (Z.eqb_spec c 0); [done|].
    destruct (Z.ltb_spec c 0); [done|lia].
  - by rewrite chunkify_gen_never_full.
Qed.

End ChunkifyBranches.

(** [chunkify_branches_agree] at five elements cut in chunks of two. *)
Lemma chunkify_branches_agree_witness :
  Chunkify.chunkify [1; 2; 3; 4; 5] 2 = Ok (Chunkify.chunkify_gen [1; 2; 3; 4; 5] 2 []).
Proof. apply (chunkify_branches_agree [1; 2; 3; 4; 5] 2). lia. Defined.

(** [chunkify_nonpositive_chunksize] at three elements and a chunk size of
    minus two. *)
Lemma chunkify_nonpositive_chunksize_witness :
  Chunkify.chunkify [1; 2; 3] (-2) = Ok []
  /\ Chunkify.chunkify_gen [1; 2; 3] (-2) [] = [[1; 2; 3]].
Proof. apply (chunkify_nonpositive_chunksize [1; 2; 3] (-2)). lia. Defined.

(** ** Using the session pool *)

Section SessionPoolUse.
Import SessionPool.
Implicit Types (p : BaseProtocol) (s : Session) (cs : result Session).

(** The sessions in the queue have been used less than [m] times. *)
Abbreviation queue_below m p := (Forall (fun s => usage_count s < m) (_session_pool p)).

Lemma increase_poolsize_queue m cs p :
  0 < m -> created cs -> queue_below m p -> queue_below m (increase_poolsize cs p).1.
Proof.
  intros Hm Hcs Hq. unfold increase_poolsize.
  destruct (_session_pool_size p >=? _session_pool_maxsize p); [done|].
  destruct cs as [s|e]; [|done]. simpl in *. constructor; [lia|done].
Qed.

Lemma get_session_queue m cs p :
  0 < m -> created cs -> queue_below m p ->
  queue_below m (get_session cs p).1
  /\ forall s, (get_session cs p).2 = Returns s -> usage_count s <= m.
Proof.
  intros Hm Hcs Hq. unfold get_session.
  pose proof (increase_poolsize_queue m cs p Hm Hcs Hq) as Hq'.
  destruct (_session_pool p) as [|s q] eqn:Hpool.
  - destruct (increase_poolsize cs p) as [p' o]. simpl in Hq'.
    assert (match _session_pool p' with
            | s :: q => queue_below m (set_pool q p')
                        /\ usage_count (use s) <= m
            | [] => True
            end) as Hnext.
    { destruct (_session_pool p') as [|s q]; [done|].
      inversion Hq'; subst. simpl. split; [done|lia]. }
    destruct o as [[]|e|]; simpl.
    + destruct (_session_pool p') as [|s q] eqn:Hp'; simpl.
      * rewrite Hp'. split; [constructor|done].
      * destruct Hnext as [Hq'' Hs]. split; [done|]. by intros s' [= <-].
    + destruct e; simpl; try (split; [done|done]).
      destruct (_session_pool p') as [|s q] eqn:Hp'; simpl.
      * rewrite Hp'. split; [constructor|done].
      * destruct Hnext as [Hq'' Hs]. split; [done|]. by intros s' [= <-].
    + done.
  - inversion Hq; subst. simpl. split; [done|].
    intros s' [= <-]. simpl. lia.
Qed.

Lemma decrease_poolsize_queue m cs p :
  0 < m -> created cs -> queue_below m p -> queue_below m (decrease_poolsize cs p).1.
Proof.
  intros Hm Hcs Hq. unfold decrease_poolsize.
  destruct (_session_pool_size p <=? 1); [done|].
  destruct (get_session_queue m cs p Hm Hcs Hq) as [Hq' _].
  by destruct (get_session cs p) as [p' [s|e|]].
Qed.

Lemma release_session_queue m cs s p :
  0 < m -> created cs -> queue_below m p ->
  queue_below m (release_session (Some m) cs s p).1.
Proof.
  intros Hm Hcs Hq. unfold release_session, usage_exceeded, renew_session.
  destruct (Z.eqb_spec m 0); [lia|]. simpl.
  destruct (Z.geb_spec (usage_count s) m).
  - destruct cs as [s'|e]; [|done]. simpl in *. constructor; [lia|done].
  - simpl. constructor; [lia|done].
Qed.

Lemma close_queue m p : queue_below m (close p).
Proof. constructor. Qed.

Lemma run_calls_usage_bounded (m : Z) (calls : list pool_call) p :
  0 < m ->
  Forall creates_new calls ->
  Forall (fun s => usage_count s < m) (_session_pool p) ->
  Forall (fun s => usage_count s <= m) (run_calls (Some m) calls p).2
  /\ Forall (fun s => usage_count s < m) (_session_pool (run_calls (Some m) calls p).1).
Proof.
  intros Hm Hcalls. revert p.
  induction Hcalls as [|c calls Hc _ IH]; intros p Hq; simpl; [by split|].
  destruct c as [cs|cs s|cs cs' s|cs|cs|]; simpl in Hc.
  - destruct (get_session_queue m cs p Hm Hc Hq) as [Hq' Hs].
    destruct (get_session cs p) as [p' [s|e|]]; simpl in *.
    + destruct (IH p' Hq') as [Hgot Hqueue].
      destruct (run_calls (Some m) calls p') as [p'' got]. simpl in *.
      split; [|done]. constructor; [by apply Hs|done].
    + by apply IH.
    + by split.
  - apply IH. by apply release_session_queue.
  - apply IH. unfold retire_session. destruct Hc as [Hc Hc'].
    destruct cs as [s'|e]; [|done]. by apply release_session_queue.
  - pose proof (increase_poolsize_queue m cs p Hm Hc Hq) as Hq'.
    destruct (increase_poolsize cs p) as [p' [[]|e|]]; simpl in *;
      [by apply IH|by apply IH|by split].
  - pose proof (decrease_poolsize_queue m cs p Hm Hc Hq) as Hq'.
    destruct (decrease_poolsize cs p) as [p' [[]|e|]]; simpl in *;
      [by apply IH|by apply IH|by split].
  - apply IH, close_queue.
Qed.

(** With [MAX_SESSION_USAGE_COUNT = m] set to a positive number, on a new
    pool whose user gives back only sessions it holds, each once: no call
    leaves a session in the queue that has been used [m] times, and
    [get_session] never hands out a session that has been used more than
    [m] times, its use by the caller included. *)
Theorem session_usage_bounded (m : Z) (mc : option Z) (calls : list pool_call) :
  0 < m ->
  Forall creates_new calls ->
  proper_use (Some m) calls (init mc) [] ->
  Forall (fun s => usage_count s <= m) (run_calls (Some m) calls (init mc)).2
  /\ Forall (fun s => usage_count s < m)
       (_session_pool (run_calls (Some m) calls (init mc)).1).
Proof.
  intros Hm Hcalls _. apply run_calls_usage_bounded; [done|done|constructor].
Qed.

Lemma get_sessions_grow ss p :
  _session_pool p = [] ->
  _session_pool_size p + Z.of_nat (length ss) <= _session_pool_maxsize p ->
  (get_sessions ss p).2 = map (fun s => Returns (use s)) ss
  /\ _session_pool_size (get_sessions ss p).1 = _session_pool_size p + Z.of_nat (length ss)
  /\ _session_pool_maxsize (get_sessions ss p).1 = _session_pool_maxsize p
  /\ _session_pool (get_sessions ss p).1 = [].
Proof.
  revert p. induction ss as [|s ss IH]; intros p Hempty Hroom; simpl.
  { split_and!; try done. lia. }
  unfold get_session, increase_poolsize. rewrite Hempty.
  destruct (Z.geb_spec (_session_pool_size p) (_session_pool_maxsize p)) as [Hge|Hlt];
    [simpl in Hroom; lia|].
  simpl.
  match goal with
  | |- context [get_sessions ss ?q] =>
      destruct (IH q) as (Hos & Hsize & Hmax & Hpool); [done|simpl in *; lia|];
      destruct (get_sessions ss q) as [p'' os]
  end.
  simpl in *. split_and!; [by rewrite Hos|lia|done|done].
Qed.

(** A fresh pool hands out a new session at each [get_session] until as
    many are out as the maximum allows; the next call waits, whatever
    [create_session] would do. *)
Theorem pool_hands_out_maximum (mc : option Z) (ss : list Session) :
  Z.of_nat (length ss) <= max_connections_or_default mc ->
  (get_sessions ss (init mc)).2 = map (fun s => Returns (use s)) ss
  /\ _session_pool_size (get_sessions ss (init mc)).1 = Z.of_nat (length ss)
  /\ (Z.of_nat (length ss) = max_connections_or_default mc ->
      forall cs, get_session cs (get_sessions ss (init mc)).1
                 = ((get_sessions ss (init mc)).1, Blocks)).
Proof.
  intros Hroom.
  destruct (get_sessions_grow ss (init mc)) as (Hos & Hsize & Hmax & Hpool);
    [done|simpl; lia|].
  simpl in *. split_and!; [done|lia|].
  intros Hfull cs. unfold get_session, increase_poolsize. rewrite Hpool, Hsize, Hmax.
  destruct (Z.geb_spec (0 + Z.of_nat (length ss)) (max_connections_or_default mc));
    [|lia].
  simpl. by rewrite Hpool.
Qed.

Lemma close_loop_length q size : close_loop q size = size - Z.of_nat (length q).
Proof.
  revert size. induction q as [|s q IH]; intros size; simpl; [lia|].
  rewrite IH. lia.
Qed.

(** [close] empties the queue and takes the sessions that were in it off
    the pool size; sessions that are out stay counted, and a second [close]
    changes nothing. *)
Theorem close_empties_pool p :
  _session_pool (close p) = []
  /\ _session_pool_size (close p) = _session_pool_size p - Z.of_nat (length (_session_pool p))
  /\ close (close p) = close p.
Proof.
  split; [done|]. split; [apply close_loop_length|done].
Qed.

(** The pool is a LIFO queue: the session released last is the one that
    the next [get_session] hands out, and the pool is then as it was
    before the release. *)
Theorem released_session_is_next (max_usage : option Z) cs cs' s p :
  usage_exceeded max_usage s = false ->
  get_session cs' (release_session max_usage cs s p).1 = (p, Returns (use s)).
Proof.
  intros Hok. unfold release_session. rewrite Hok. by destruct p.
Qed.

End SessionPoolUse.

(** [session_usage_bounded] with [MAX_SESSION_USAGE_COUNT = 2] on a fresh
    pool: a session is taken, released, taken again and released. *)
Lemma session_usage_bounded_witness :
  let s := SessionPool.mkSession 10001 0 in
  let calls := [SessionPool.GetSession (Ok s);
                SessionPool.ReleaseSession (Ok s) (SessionPool.use s);
                SessionPool.GetSession (Ok s);
                SessionPool.ReleaseSession (Ok s) (SessionPool.use (SessionPool.use s))] in
  Forall (fun s => SessionPool.usage_count s <= 2)
    (SessionPool.run_calls (Some 2) calls (SessionPool.init None)).2
  /\ Forall (fun s => SessionPool.usage_count s < 2)
       (SessionPool._session_pool
          (SessionPool.run_calls (Some 2) calls (SessionPool.init None)).1).
Proof.
  intros s calls.
  apply (session_usage_bounded 2 None calls).
  - lia.
  - repeat constructor.
  - simpl. exists [], []. split; [reflexivity|].
    simpl. exists [], []. split; [reflexivity|]. exact I.
Defined.

(** [pool_hands_out_maximum] at [max_connections = 2] and two sessions. *)
Lemma pool_hands_out_maximum_witness :
  let ss := [SessionPool.mkSession 10001 0; SessionPool.mkSession 10002 0] in
  (SessionPool.get_sessions ss (SessionPool.init (Some 2))).2
  = map (fun s => SessionPool.Returns (SessionPool.use s)) ss
  /\ SessionPool._session_pool_size (SessionPool.get_sessions ss (SessionPool.init (Some 2))).1
     = 2
  /\ (2 = 2 ->
      forall cs, SessionPool.get_session cs
                   (SessionPool.get_sessions ss (SessionPool.init (Some 2))).1
                 = ((SessionPool.get_sessions ss (SessionPool.init (Some 2))).1,
                    SessionPool.Blocks)).
Proof.
  intros ss. apply (pool_hands_out_maximum (Some 2) ss). simpl. lia.
Defined.

(** [released_session_is_next] without a usage limit. *)
Lemma released_session_is_next_witness :
  let s := SessionPool.mkSession 10001 1 in
  SessionPool.get_session (Raise ValueError)
    (SessionPool.release_session None (Raise ValueError) s (SessionPool.init None)).1
  = (SessionPool.init None, SessionPool.Returns (SessionPool.use s)).
Proof.
  intros s.
  apply (released_session_is_next None (Raise ValueError) (Raise ValueError) s
           (SessionPool.init None)).
  reflexivity.
Defined.

(** ** What the protocol cache keeps and forgets *)

Section ProtocolCacheMore.
Import ProtocolCache.
Context {Credentials : Type} `{Countable Credentials}.
Implicit Types (st : state Credentials) (c : Configuration Credentials).

Lemma construct_miss c io now st :
  endpoint_unset c = false ->
  _protocol_cache st !! _cache_key c = None ->
  construct (Some (AConfiguration c)) io now st
  = match io with
    | InitReturns =>
        (mkState (<[_cache_key c := (CachedProtocol (mkProtocol (next_id st) c), now)]>
                    (_protocol_cache st))
                 (S (next_id st)) (S (constructor_runs st)),
         Ok (mkProtocol (next_id st) c))
    | InitRaisesTransportError e =>
        (mkState (<[_cache_key c := (CachedException e, now)]> (_protocol_cache st))
                 (next_id st) (S (constructor_runs st)),
         Raise e)
    | InitRaisesOther e =>
        (mkState (_protocol_cache st) (next_id st) (S (constructor_runs st)), Raise e)
    end.
Proof.
  intros Hset Hmiss. unfold construct, lookup_cached. by rewrite Hset, Hmiss.
Qed.

Lemma construct_cached_protocol c io now st p t :
  endpoint_unset c = false ->
  _protocol_cache st !! _cache_key c = Some (CachedProtocol p, t) ->
  construct (Some (AConfiguration c)) io now st = (st, Ok p).
Proof.
  intros Hset Hhit. unfold construct, lookup_cached. by rewrite Hset, Hhit.
Qed.

(** An exception of the constructor that is no [TransportError] is raised
    and not cached: the cache stays as it was, and the next construction
    with the configuration runs the constructor again and returns the
    protocol it builds. *)
Theorem only_transport_errors_are_cached c e now1 now2 st :
  endpoint_unset c = false ->
  _protocol_cache st !! _cache_key c = None ->
  let r1 := construct (Some (AConfiguration c)) (InitRaisesOther e) now1 st in
  let r2 := construct (Some (AConfiguration c)) InitReturns now2 r1.1 in
  r1.2 = Raise e
  /\ _protocol_cache r1.1 = _protocol_cache st
  /\ r2.2 = Ok (mkProtocol (next_id st) c)
  /\ constructor_runs r2.1 = S (S (constructor_runs st)).
Proof.
  intros Hset Hmiss r1 r2.
  assert (r1 = (mkState (_protocol_cache st) (next_id st) (S (constructor_runs st)), Raise e))
    as Hr1 by (by apply construct_miss).
  unfold r2. rewrite Hr1. cbn [fst snd].
  by rewrite construct_miss.
Qed.

(** Configurations with different (service_endpoint, credentials) get
    protocols of their own: two constructions on cache misses return two
    objects, and afterwards each configuration is answered with its own. *)
Theorem distinct_keys_distinct_protocols c1 c2 now1 now2 st :
  endpoint_unset c1 = false ->
  endpoint_unset c2 = false ->
  _cache_key c1 <> _cache_key c2 ->
  _protocol_cache st !! _cache_key c1 = None ->
  _protocol_cache st !! _cache_key c2 = None ->
  let r1 := construct (Some (AConfiguration c1)) InitReturns now1 st in
  let r2 := construct (Some (AConfiguration c2)) InitReturns now2 r1.1 in
  exists p1 p2,
    r1.2 = Ok p1 /\ r2.2 = Ok p2
    /\ protocol_id p1 <> protocol_id p2
    /\ forall io now,
         construct (Some (AConfiguration c1)) io now r2.1 = (r2.1, Ok p1)
         /\ construct (Some (AConfiguration c2)) io now r2.1 = (r2.1, Ok p2).
Proof.
  intros Hset1 Hset2 Hne Hmiss1 Hmiss2 r1 r2.
  unfold r2, r1. rewrite (construct_miss c1) by done. cbn [fst snd].
  rewrite (construct_miss c2); [|done|by simpl; rewrite lookup_insert_ne].
  cbn [fst snd]. eexists _, _. split_and!; [done|done|simpl; lia|].
  intros io now. split.
  - eapply construct_cached_protocol; [done|]. simpl.
    rewrite lookup_insert_ne by done. apply lookup_insert_eq.
  - eapply construct_cached_protocol; [done|]. simpl. apply lookup_insert_eq.
Qed.

(** [del Protocol[config]] forgets the entry of the configuration and
    no other: afterwards [Protocol[config]] and a second [del] raise
    [KeyError], and a construction with the configuration runs the
    constructor. *)
Theorem delitem_forgets_one c ep v io now st :
  service_endpoint c = Some ep ->
  _protocol_cache st !! _cache_key c = Some v ->
  let st' := (delitem c st).1 in
  (delitem c st).2 = Ok tt
  /\ (forall k, k <> _cache_key c -> _protocol_cache st' !! k = _protocol_cache st !! k)
  /\ getitem c st' = Raise KeyError
  /\ delitem c st' = (st', Raise KeyError)
  /\ (endpoint_unset c = false ->
      constructor_runs (construct (Some (AConfiguration c)) io now st').1
      = S (constructor_runs st)).
Proof.
  intros Hep Hhit st'.
  assert (delitem c st
          = (mkState (delete (_cache_key c) (_protocol_cache st)) (next_id st)
                     (constructor_runs st), Ok tt)) as Hdel.
  { unfold delitem, getitem. by rewrite Hep, Hhit. }
  assert (getitem c st' = Raise KeyError) as Hget.
  { unfold st', getitem. rewrite Hdel, Hep. simpl. by rewrite lookup_delete_eq. }
  split_and!.
  - by rewrite Hdel.
  - intros k Hk. unfold st'. rewrite Hdel. simpl. by rewrite lookup_delete_ne.
  - exact Hget.
  - unfold delitem. by rewrite Hget.
  - intros Hset. rewrite construct_miss; [|done|].
    + unfold st'. rewrite Hdel. by destruct io.
    + unfold st'. rewrite Hdel. simpl. by rewrite lookup_delete_eq.
Qed.

End ProtocolCacheMore.

(** [only_transport_errors_are_cached] at [example_config] in a fresh
    process, the constructor raising [ValueError]. *)
Lemma only_transport_errors_are_cached_witness :
  let c := ProtocolCache.example_config in
  let r1 := ProtocolCache.construct (Some (ProtocolCache.AConfiguration c))
              (ProtocolCache.InitRaisesOther ValueError) 0 ProtocolCache.fresh_state in
  let r2 := ProtocolCache.construct (Some (ProtocolCache.AConfiguration c))
              ProtocolCache.InitReturns 1 r1.1 in
  r1.2 = Raise ValueError
  /\ ProtocolCache._protocol_cache r1.1 = ∅
  /\ r2.2 = Ok (ProtocolCache.mkProtocol 0 c)
  /\ ProtocolCache.constructor_runs r2.1 = 2%nat.
Proof.
  intros c.
  apply (only_transport_errors_are_cached c ValueError 0 1 ProtocolCache.fresh_state);
    reflexivity.
Defined.

(** [distinct_keys_distinct_protocols] at [example_config] and the same
    endpoint with other credentials. *)
Lemma distinct_keys_distinct_protocols_witness :
  let c1 := ProtocolCache.example_config in
  let c2 := ProtocolCache.mkConfiguration
              (Some "https://mail.example.com/EWS/Exchange.asmx"%string)
              (Some ("jane@example.com", "HER_SECRET")%string) in
  let r1 := ProtocolCache.construct (Some (ProtocolCache.AConfiguration c1))
              ProtocolCache.InitReturns 0 ProtocolCache.fresh_state in
  let r2 := ProtocolCache.construct (Some (ProtocolCache.AConfiguration c2))
              ProtocolCache.InitReturns 1 r1.1 in
  exists p1 p2,
    r1.2 = Ok p1 /\ r2.2 = Ok p2
    /\ ProtocolCache.protocol_id p1 <> ProtocolCache.protocol_id p2
    /\ forall io now,
         ProtocolCache.construct (Some (ProtocolCache.AConfiguration c1)) io now r2.1
         = (r2.1, Ok p1)
         /\ ProtocolCache.construct (Some (ProtocolCache.AConfiguration c2)) io now r2.1
            = (r2.1, Ok p2).
Proof.
  intros c1 c2.
  apply (distinct_keys_distinct_protocols c1 c2 0 1 ProtocolCache.fresh_state);
    try reflexivity.
  intros [= ?].
Defined.

(** [delitem_forgets_one] after one construction with [example_config]. *)
Lemma delitem_forgets_one_witness :
  let c := ProtocolCache.example_config in
  let st := (ProtocolCache.construct (Some (ProtocolCache.AConfiguration c))
               ProtocolCache.InitReturns 0 ProtocolCache.fresh_state).1 in
  let st' := (ProtocolCache.delitem c st).1 in
  (ProtocolCache.delitem c st).2 = Ok tt
  /\ (forall k, k <> ProtocolCache._cache_key c ->
        ProtocolCache._protocol_cache st' !! k = ProtocolCache._protocol_cache st !! k)
  /\ ProtocolCache.getitem c st' = Raise KeyError
  /\ ProtocolCache.delitem c st' = (st', Raise KeyError)
  /\ (ProtocolCache.endpoint_unset c = false ->
      ProtocolCache.constructor_runs
        (ProtocolCache.construct (Some (ProtocolCache.AConfiguration c))
           ProtocolCache.InitReturns 1 st').1
      = S (ProtocolCache.constructor_runs st)).
Proof.
  intros c st.
  apply (delitem_forgets_one c "https://mail.example.com/EWS/Exchange.asmx"%string
           (ProtocolCache.CachedProtocol (ProtocolCache.mkProtocol 0 c), 0)
           ProtocolCache.InitReturns 1 st).
  - reflexivity.
  - reflexivity.
Defined.

(** ** The contract of [post_ratelimited] *)

Section RetryContract.
Import Retry.
Context (py_int : string -> option Z).
Context (split_url : string -> bool * string * string).

(** [FaultTolerance.may_retry_on_error] allows a retry only for a status
    code it hopes to recover from and only while the total wait is within
    [max_wait]; the only exception it raises is [RateLimitError], and it
    raises it when the total wait of a recoverable response exceeds
    [max_wait]; 401 and 503 are always retried within [max_wait]. *)
Theorem fault_tolerance_retry_conditions (r : Response) (w : Z) (p : FaultTolerance) :
  (FaultTolerance_may_retry_on_error r w p = Ok true ->
   recoverable (status_code r) /\ w <= max_wait p)
  /\ (forall e, FaultTolerance_may_retry_on_error r w p = Raise e ->
        e = RateLimitError /\ recoverable (status_code r) /\ max_wait p < w)
  /\ (recoverable (status_code r) -> max_wait p < w ->
      FaultTolerance_may_retry_on_error r w p = Raise RateLimitError)
  /\ (status_code r = 401 \/ status_code r = 503 -> w <= max_wait p ->
      FaultTolerance_may_retry_on_error r w p = Ok true).
Proof.
  unfold FaultTolerance_may_retry_on_error, recoverable.
  set (sc := status_code r).
  destruct (Z.gtb_spec w (max_wait p)) as [Hgt|Hle].
  - destruct (Z.eqb_spec sc 301), (Z.eqb_spec sc 302), (Z.eqb_spec sc 401),
      (Z.eqb_spec sc 500), (Z.eqb_spec sc 503); simpl;
      (split_and!;
         [done
         |intros ex Hex; first [done|injection Hex as <-; split_and!; first [done|lia|tauto]]
         |intros; first [done|lia|tauto]..]).
  - destruct (Z.eqb_spec sc 301), (Z.eqb_spec sc 302), (Z.eqb_spec sc 401),
      (Z.eqb_spec sc 500), (Z.eqb_spec sc 503); simpl; try lia;
      repeat match goal with
             | |- context [if ?b then _ else _] => destruct b
             end;
      (split_and!; [intros; first [done|split; [tauto|lia]]|done
                   |intros; lia|intros; first [done|lia|tauto]]).
Qed.

Lemma count_is_retire_app tr1 tr2 :
  count is_retire (tr1 ++ tr2) = (count is_retire tr1 + count is_retire tr2)%nat.
Proof. induction tr1 as [|e tr1 IH]; simpl; [done|]. rewrite IH. lia. Qed.

Lemma count_is_redirect_app tr1 tr2 :
  count is_redirect (tr1 ++ tr2) = (count is_redirect tr1 + count is_redirect tr2)%nat.
Proof. induction tr1 as [|e tr1 IH]; simpl; [done|]. rewrite IH. lia. Qed.

Section AnyRetryPolicy.
Context {P : Type} `{RetryPolicy P}.

(** What the statements after the loop do with the response that left
    it. *)
Lemma after_loop_cases (p : P) (r : Response) :
  (after_loop p r = ([], Returned r) /\ useful r)
  \/ (exists e, after_loop p r = ([EvRetireSession], Raised e)).
Proof.
  unfold after_loop, useful.
  destruct (Z.eqb_spec (status_code r) 500) as [H500|H500]; simpl.
  - destruct (String.eqb_spec (content r) "") as [Hc|Hc]; simpl.
    + right. destruct (Z.eqb_spec (status_code r) 200); [lia|]. simpl. eauto.
    + destruct (is_xml (content r)) eqn:Hxml; [by left; auto|].
      right. destruct (Z.eqb_spec (status_code r) 200); [lia|]. simpl. eauto.
  - destruct (Z.eqb_spec (status_code r) 200); simpl; [by left; auto|]. right. eauto.
Qed.

(** One run of the loop: what it returns is useful, the session is
    retired when and only when it raises, and then at the very end; and
    the redirects it follows stay within [MAX_REDIRECTS]. *)
Lemma loop_contract allow turns (l : locals) :
  0 <= redirects l <= MAX_REDIRECTS ->
  let run := loop py_int split_url allow turns l in
  (forall r, run.2 = Returned r -> useful r)
  /\ count is_retire run.1 = match run.2 with Raised _ => 1%nat | _ => 0%nat end
  /\ (forall e, run.2 = Raised e -> last run.1 = Some EvRetireSession)
  /\ redirects l + Z.of_nat (count is_redirect run.1) <= MAX_REDIRECTS
  /\ (allow = false -> count is_redirect run.1 = 0%nat).
Proof.
  revert l. induction turns as [|t turns IH]; intros l Hred; simpl.
  { split_and!; try done. lia. }
  destruct (back_off_until (now_until t) (policy l)) as [p until].
  set (slept := match until with
                | Some u => if u - now_sleep t >? 0
                            then [EvSleep (u - now_sleep t); EvRenewSession] else []
                | None => []
                end).
  assert (count is_retire slept = 0%nat /\ count is_redirect slept = 0%nat) as [Hs1 Hs2].
  { unfold slept. destruct until as [u|]; [|done]. by destruct (u - now_sleep t >? 0). }
  assert (forall evs f,
            (forall r, f = Returned r -> useful r) ->
            count is_retire evs = match f with Raised _ => 1%nat | _ => 0%nat end ->
            (forall e, f = Raised e -> last (EvPost (cur_url l) :: evs) = Some EvRetireSession) ->
            forall n, count is_redirect evs = n ->
            redirects l + Z.of_nat n <= MAX_REDIRECTS ->
            (allow = false -> n = 0%nat) ->
            let run := (slept ++ EvPost (cur_url l) :: evs, f) in
            (forall r, run.2 = Returned r -> useful r)
            /\ count is_retire run.1 = match run.2 with Raised _ => 1%nat | _ => 0%nat end
            /\ (forall e, run.2 = Raised e -> last run.1 = Some EvRetireSession)
            /\ redirects l + Z.of_nat (count is_redirect run.1) <= MAX_REDIRECTS
            /\ (allow = false -> count is_redirect run.1 = 0%nat)) as Hwrap.
  { intros evs f Hu Hr Hl n Hn Hmax Hno. simpl.
    rewrite count_is_retire_app, count_is_redirect_app, Hs1, Hs2. simpl.
    split_and!; [done|done| |lia|intros Ha; rewrite Hn; by apply Hno].
    intros e He. rewrite last_app. by rewrite (Hl e He). }
  assert (forall e, let run := (slept ++ [EvPost (cur_url l); EvRetireSession], Raised e) in
            (forall r, run.2 = Returned r -> useful r)
            /\ count is_retire run.1 = match run.2 with Raised _ => 1%nat | _ => 0%nat end
            /\ (forall e, run.2 = Raised e -> last run.1 = Some EvRetireSession)
            /\ redirects l + Z.of_nat (count is_redirect run.1) <= MAX_REDIRECTS
            /\ (allow = false -> count is_redirect run.1 = 0%nat)) as Hstop.
  { intros e. apply (Hwrap [EvRetireSession] (Raised e)) with (n := 0%nat);
      try done; lia. }
  assert (forall evs0 (l' : locals),
            count is_retire evs0 = 0%nat -> evs0 <> [] ->
            redirects l + Z.of_nat (count is_redirect evs0) = redirects l' ->
            (allow = false -> count is_redirect evs0 = 0%nat) ->
            0 <= redirects l' <= MAX_REDIRECTS ->
            let run := (let '(tr, f) := loop py_int split_url allow turns l' in
                        (slept ++ EvPost (cur_url l) :: evs0 ++ tr, f)) in
            (forall r, run.2 = Returned r -> useful r)
            /\ count is_retire run.1 = match run.2 with Raised _ => 1%nat | _ => 0%nat end
            /\ (forall e, run.2 = Raised e -> last run.1 = Some EvRetireSession)
            /\ redirects l + Z.of_nat (count is_redirect run.1) <= MAX_REDIRECTS
            /\ (allow = false -> count is_redirect run.1 = 0%nat)) as Hcont.
  { intros evs0 l' Hr0 Hne Hd0 Hno0 Hred'.
    destruct (IH l' Hred') as (Hu & Hr & Hl & Hmax & Hno).
    destruct (loop py_int split_url allow turns l') as [tr f]. simpl in *.
    apply (Hwrap (evs0 ++ tr) f) with (n := (count is_redirect evs0 + count is_redirect tr)%nat).
    - done.
    - by rewrite count_is_retire_app, Hr0.
    - intros e He. specialize (Hl e He).
      change (EvPost (cur_url l) :: evs0 ++ tr) with ((EvPost (cur_url l) :: evs0) ++ tr).
      rewrite last_app, Hl. done.
    - by rewrite count_is_redirect_app.
    - lia.
    - intros Ha. rewrite (Hno0 Ha), (Hno Ha). done. }
  destruct (posted (cur_url l) (post t)) as [r|e]; [|apply Hstop].
  destruct (_need_new_credentials r).
  { apply (Hcont [EvRefreshCredentials]
             (mkLocals (wait l) (retry l) (redirects l) (cur_url l) p));
      try done; simpl; lia. }
  destruct (may_retry_on_error r (total_wait t) p) as [[|]|e]; [| |apply Hstop].
  - destruct (back_off (Some (_retry_after py_int r (wait l))) (now_back_off t) p)
      as [p'|e].
    + apply (Hcont [EvBackOff r (_retry_after py_int r (wait l))]
               (mkLocals (_retry_after py_int r (wait l) * 2) (retry l + 1)
                  (redirects l) (cur_url l) p'));
        try done; simpl; lia.
    + apply (Hwrap [EvBackOff r (_retry_after py_int r (wait l)); EvRetireSession]
               (Raised e)) with (n := 0%nat); try done; lia.
  - destruct ((status_code r =? 301) || (status_code r =? 302)).
    + unfold _redirect_or_fail.
      destruct (get_redirect_url split_url r false false) as [u|u|e]; [|apply Hstop..].
      destruct allow; simpl; [|apply Hstop].
      destruct (Z.gtb_spec (redirects l + 1) MAX_REDIRECTS) as [Hgt|Hle]; [apply Hstop|].
      apply (Hcont [EvRedirect u] (mkLocals (wait l) (retry l) (redirects l + 1) u p));
        try done; simpl; lia.
    + destruct (after_loop_cases p r) as [[-> Hu]|[e ->]]; [|apply Hstop].
      apply (Hwrap [] (Returned r)) with (n := 0%nat); try done; try lia.
      by intros r' [= <-].
Qed.

(** The response that [post_ratelimited] returns has status 200, or status
    500 with content that looks like XML. *)
Theorem post_ratelimited_returns_useful (p : P) (url : string) (allow_redirects : bool)
    (turns : list turn) (r : Response) :
  (post_ratelimited py_int split_url p url allow_redirects turns).2 = Returned r ->
  useful r.
Proof.
  intros Hr.
  destruct (loop_contract allow_redirects turns (mkLocals RETRY_WAIT 0 0 url p))
    as (Hu & _); [by unfold MAX_REDIRECTS|].
  by apply Hu.
Qed.

(** [post_ratelimited] retires the session when, and only when, it raises
    an exception, and it does so once, as the last thing before it
    raises. *)
Theorem session_retired_iff_raised (p : P) (url : string) (allow_redirects : bool)
    (turns : list turn) :
  let run := post_ratelimited py_int split_url p url allow_redirects turns in
  count is_retire run.1 = match run.2 with Raised _ => 1%nat | _ => 0%nat end
  /\ (forall e, run.2 = Raised e -> last run.1 = Some EvRetireSession).
Proof.
  destruct (loop_contract allow_redirects turns (mkLocals RETRY_WAIT 0 0 url p))
    as (_ & Hc & Hl & _); [by unfold MAX_REDIRECTS|].
  by split.
Qed.

(** Whatever the retry policy, [post_ratelimited] follows at most
    [MAX_REDIRECTS] redirects, and none unless [allow_redirects] is set. *)
Theorem redirects_bounded (p : P) (url : string) (allow_redirects : bool)
    (turns : list turn) :
  let run := post_ratelimited py_int split_url p url allow_redirects turns in
  Z.of_nat (count is_redirect run.1) <= MAX_REDIRECTS
  /\ (allow_redirects = false -> count is_redirect run.1 = 0%nat).
Proof.
  destruct (loop_contract allow_redirects turns (mkLocals RETRY_WAIT 0 0 url p))
    as (_ & _ & _ & Hmax & Hno); [by unfold MAX_REDIRECTS|].
  simpl in Hmax. split; [|done]. unfold post_ratelimited. lia.
Qed.

End AnyRetryPolicy.
End RetryContract.

(** [post_ratelimited_returns_useful] at a run under [FaultTolerance] that
    is answered 503 and then 200. *)
Lemma post_ratelimited_returns_useful_witness :
  let ok := Retry.mkResponse 200 [] "<?xml" "https://mail.example.com/EWS/Exchange.asmx" in
  let busy := Retry.mkResponse 503 [] "" "https://mail.example.com/EWS/Exchange.asmx" in
  let turns := [Retry.mkTurn 0 0 (Retry.PostReturns busy) 1 1;
                Retry.mkTurn 12 12 (Retry.PostReturns ok) 13 13] in
  (Retry.post_ratelimited (fun _ => None) (fun _ => (true, "", ""))%string
     (Retry.mkFaultTolerance 3600 None)
     "https://mail.example.com/EWS/Exchange.asmx" false turns).2 = Retry.Returned ok
  /\ Retry.useful ok.
Proof.
  intros ok busy turns. split; [reflexivity|].
  apply (post_ratelimited_returns_useful (fun _ => None) (fun _ => (true, "", ""))%string
           (Retry.mkFaultTolerance 3600 None)
           "https://mail.example.com/EWS/Exchange.asmx" false turns ok).
  reflexivity.
Defined.

(** ** Helpers of util.py *)

Section UtilFacts.
Import Util.

Lemma split_on_no_sep sep s : has_char sep s = false -> split_on sep s = [s].
Proof.
  induction s as [|c s IH]; simpl; [done|].
  destruct (Ascii.eqb c sep); [done|]. simpl. intros Hs. by rewrite IH.
Qed.

Lemma split_on_app sep a b :
  has_char sep a = false ->
  split_on sep (a ++ String sep b) = a :: split_on sep b.
Proof.
  induction a as [|c a IH]; simpl.
  - by rewrite Ascii.eqb_refl.
  - destruct (Ascii.eqb c sep); [done|]. simpl. intros Ha. by rewrite IH.
Qed.

(** [get_domain] returns the part after the "@" of an address that has
    one "@", lower-cased by [str.lower], and raises [ValueError] for a text
    without "@". *)
Theorem get_domain_of_address (py_lower : string -> string) (local domain : string) :
  has_char "@" local = false ->
  has_char "@" domain = false ->
  get_domain py_lower (local ++ "@" ++ domain) = Ok (py_lower domain)
  /\ get_domain py_lower local = Raise ValueError.
Proof.
  intros Hl Hd. unfold get_domain. split.
  - change ("@" ++ domain)%string with (String "@" domain).
    by rewrite split_on_app, (split_on_no_sep _ domain).
  - by rewrite split_on_no_sep.
Qed.

Lemma legal_question_mark : Metamodel.illegal_xml_char "?" = false.
Proof. reflexivity. Qed.

(** [safe_xml_value] returns a text of the same length without characters
    that are illegal in XML, and leaves such a text as it is. *)
Theorem safe_xml_value_safe (s : string) :
  legal_xml (Metamodel.safe_xml_value s)
  /\ String.length (Metamodel.safe_xml_value s) = String.length s
  /\ Metamodel.safe_xml_value (Metamodel.safe_xml_value s) = Metamodel.safe_xml_value s
  /\ (legal_xml s -> Metamodel.safe_xml_value s = s).
Proof.
  induction s as [|c s (IH1 & IH2 & IH3 & IH4)]; simpl; [done|].
  destruct (Metamodel.illegal_xml_char c) eqn:Hc; simpl.
  - rewrite legal_question_mark, IH2, IH3. split_and!; try done. by intros [? _].
  - rewrite Hc, IH2, IH3. split_and!; try done. intros [_ Hs]. by rewrite IH4.
Qed.

Lemma substring_prefix (p s : string) :
  String.eqb (substring 0 (String.length p) s) p = String.prefix p s.
Proof.
  revert s. induction p as [|a p IH]; intros s; simpl.
  - by destruct s.
  - destruct s as [|b s]; simpl; [done|].
    destruct (ascii_dec a b) as [->|Hne].
    + rewrite Ascii.eqb_refl. apply IH.
    + destruct (Ascii.eqb_spec b a); [by subst|done].
Qed.

Lemma prefix_app (p q s : string) :
  String.prefix (p ++ q) s
  = String.prefix p s && String.eqb (substring (String.length p) (String.length q) s) q.
Proof.
  revert s. induction p as [|a p IH]; intros s.
  - change ("" ++ q)%string with q. change (String.length "") with 0%nat.
    rewrite substring_prefix. by destruct s.
  - change (String a p ++ q)%string with (String a (p ++ q)).
    destruct s as [|b s]; simpl; [done|].
    destruct (ascii_dec a b); [apply IH|done].
Qed.

Lemma prefix_first (a b : ascii) (p q s : string) :
  a <> b -> String.prefix (String a p) s = true -> String.prefix (String b q) s = false.
Proof.
  intros Hne. destruct s as [|c s]; [done|].
  change (String.prefix (String a p) (String c s))
    with (if ascii_dec a c then String.prefix p s else false).
  change (String.prefix (String b q) (String c s))
    with (if ascii_dec b c then String.prefix q s else false).
  destruct (ascii_dec a c) as [<-|]; [|done]. intros _.
  by destruct (ascii_dec b a) as [->|].
Qed.

(** [is_xml] holds of the texts that start with "<?xml", and of those
    that start with a UTF-8 byte order mark followed by "<?xml", and of no
    others. *)
Theorem is_xml_prefix (text : string) :
  Retry.is_xml text
  = String.prefix "<?xml" text || String.prefix (Retry.BOM_UTF8 ++ "<?xml") text.
Proof.
  rewrite prefix_app. unfold Retry.is_xml.
  rewrite !substring_prefix.
  destruct (String.prefix Retry.BOM_UTF8 text) eqn:Hbom.
  - assert (ascii_of_nat 239 <> "<"%char) as Hne by (by intros [= ?]).
    rewrite (prefix_first _ "<" _ _ text Hne Hbom). cbn [andb orb]. reflexivity.
  - rewrite substring_prefix. cbn [andb]. by rewrite orb_false_r.
Qed.

End UtilFacts.

(** [get_domain_of_address] at "John@Example.COM", an address of ASCII
    letters, which [lower] lower-cases as [str.lower] does. *)
Lemma get_domain_of_address_witness :
  Util.get_domain lower "John@Example.COM" = Ok "example.com"%string
  /\ Util.get_domain lower "John" = Raise ValueError.
Proof. apply (get_domain_of_address lower "John" "Example.COM"); reflexivity. Defined.

(** ** Paging values, offsets and folders *)

Section PagingMore.
Import Paging.
Context (py_int : string -> option Z) (py_lower : string -> string).

Abbreviation _get_paging_values := (_get_paging_values py_int py_lower).
Abbreviation while_loop := (while_loop py_int py_lower).
Abbreviation _paged_call := (_paged_call py_int py_lower).
Abbreviation keys l := (map fst (paging_infos l)).

(** A next offset that [_get_paging_values] returns says that paging goes
    on: it is not 0, the view holds items, and the page is not the last
    one; it is the offset the server sent, or 1 when the server sent
    none. *)
Theorem paging_values_next_offset (c : container) (n k : Z) :
  _get_paging_values c = Ok (n, Some k) ->
  k <> 0 /\ n <> 0
  /\ (exists a, IncludesLastItemInRange c = Some a
                /\ String.eqb (py_lower a) "true" || String.eqb (py_lower a) "0" = false)
  /\ match IndexedPagingOffset c with
     | Some a => py_int a = Some k
     | None => k = 1
     end.
Proof.
  unfold Paging._get_paging_values.
  destruct (IndexedPagingOffset c) as [a|]; simpl.
  - destruct (py_int a) as [o|]; simpl; [|done].
    destruct (TotalItemsInView c) as [b|]; simpl; [|done].
    destruct (py_int b) as [m|]; simpl; [|done].
    destruct (IncludesLastItemInRange c) as [d|]; simpl; [|done].
    destruct (String.eqb (py_lower d) "true" || String.eqb (py_lower d) "0") eqn:Hlast;
      simpl.
    + by destruct (m =? 0).
    + destruct (Z.eqb_spec m 0); simpl; [done|].
      destruct o as [|q|q]; simpl; [done| |]; intros [= <- <-]; split_and!; eauto; done.
  - destruct (TotalItemsInView c) as [b|]; simpl; [|done].
    destruct (py_int b) as [m|]; simpl; [|done].
    destruct (IncludesLastItemInRange c) as [d|]; simpl; [|done].
    destruct (String.eqb (py_lower d) "true" || String.eqb (py_lower d) "0") eqn:Hlast;
      simpl.
    + by destruct (m =? 0).
    + destruct (Z.eqb_spec m 0); simpl; [done|].
      intros [= <- <-]. split_and!; eauto; done.
Qed.

Lemma _get_next_offset_fold (infos : list paging_info) (acc : option Z) :
  match fold_left (fun acc p =>
                     match next_offset p, acc with
                     | Some n, Some m => Some (Z.min m n)
                     | Some n, None => Some n
                     | None, _ => acc
                     end) infos acc with
  | None => acc = None /\ Forall (fun p => next_offset p = None) infos
  | Some m =>
      (acc = Some m \/ exists p, p ∈ infos /\ next_offset p = Some m)
      /\ (forall a, acc = Some a -> m <= a)
      /\ Forall (fun p => forall n, next_offset p = Some n -> m <= n) infos
  end.
Proof.
  revert acc. induction infos as [|p infos IH]; intros acc; simpl.
  - destruct acc as [a|]; [|done]. split_and!; [by left| |done]. by intros ? [= <-].
  - destruct (next_offset p) as [n|] eqn:Hp; [destruct acc as [a|]|].
    + specialize (IH (Some (Z.min a n))).
      destruct (fold_left _ infos _) as [m|].
      * destruct IH as (Hin & Hacc & Hall). specialize (Hacc _ eq_refl).
        split_and!.
        -- destruct Hin as [[= Hm]|(q & Hq & Hqm)].
           ++ destruct (Z.min_spec a n) as [[_ Hmin]|[_ Hmin]]; rewrite Hmin in Hm.
              ** left. by subst.
              ** right. exists p. split; [left|]. by subst.
           ++ right. exists q. split; [by right|done].
        -- intros ? [= <-]. lia.
        -- constructor; [|done]. intros ? Hn. rewrite Hp in Hn. injection Hn as <-. lia.
      * by destruct IH.
    + specialize (IH (Some n)).
      destruct (fold_left _ infos _) as [m|].
      * destruct IH as (Hin & Hacc & Hall). specialize (Hacc _ eq_refl).
        split_and!.
        -- right. destruct Hin as [[= Hm]|(q & Hq & Hqm)].
           ++ exists p. split; [left|]. by subst.
           ++ exists q. split; [by right|done].
        -- done.
        -- constructor; [|done]. intros ? Hn. rewrite Hp in Hn. injection Hn as <-. lia.
      * by destruct IH.
    + specialize (IH acc).
      destruct (fold_left _ infos _) as [m|].
      * destruct IH as (Hin & Hacc & Hall). split_and!; [|done|].
        -- destruct Hin as [?|(q & Hq & Hqm)]; [by left|]. right. exists q.
           split; [by right|done].
        -- constructor; [|done]. intros ? Hn. by rewrite Hp in Hn.
      * destruct IH as [Hacc Hall]. split; [done|]. by constructor.
Qed.

(** [_get_next_offset] returns [None] when no folder has a next offset,
    and otherwise the lowest of the next offsets, which is the next offset
    of one of the folders. *)
Theorem get_next_offset_lowest (infos : list paging_info) :
  match _get_next_offset infos with
  | None => Forall (fun p => next_offset p = None) infos
  | Some m =>
      (exists p, p ∈ infos /\ next_offset p = Some m)
      /\ Forall (fun p => forall n, next_offset p = Some n -> m <= n) infos
  end.
Proof.
  unfold _get_next_offset.
  pose proof (_get_next_offset_fold infos None) as Hfold.
  destruct (fold_left _ infos None) as [m|].
  - destruct Hfold as ([?|?] & _ & ?); [done|by split].
  - by destruct Hfold.
Qed.

(** *** [max_items = 0] *)

Lemma elems_loop_unlimited es max_items t :
  reached max_items t = false -> elems_loop es max_items t = es.
Proof.
  intros Hr. induction es as [|e es IH]; simpl; [done|]. by rewrite Hr, IH.
Qed.

Lemma for_pages_zero zipped l :
  for_pages (Some 0) zipped l = for_pages None zipped l.
Proof.
  revert l. induction zipped as [|[[pg next] f] zipped IH]; intros l; simpl; [done|].
  destruct pg as [e| |c].
  - by rewrite IH.
  - by rewrite IH.
  - unfold _get_elems_from_page. destruct (elements c) as [es|]; [|done].
    rewrite !elems_loop_unlimited by done. simpl. by rewrite IH.
Qed.

Lemma while_loop_zero responses offset l :
  while_loop (Some 0) responses offset l = while_loop None responses offset l.
Proof.
  revert offset l. induction responses as [|response responses IH]; intros offset l; simpl.
  { done. }
  destruct (paging_infos l) as [|i infos]; [done|].
  destruct (_get_pages _ _ _ _) as [pages|e]; [|done].
  rewrite for_pages_zero.
  destruct (for_pages None _ l) as [[ys l'] e].
  destruct e; try done; simpl.
  - destruct (_get_next_offset _) as [o|]; [|done]. by rewrite IH.
  - destruct (_get_next_offset _) as [o|]; [|done]. by rewrite IH.
Qed.

(** [max_items = 0] sets no limit: [_paged_call] does with it what it
    does with [max_items = None]. *)
Theorem max_items_zero_is_no_limit (folders : list nat) (offset : Z)
    (responses : list (list message)) :
  _paged_call (Some 0) folders offset responses = _paged_call None folders offset responses.
Proof. apply while_loop_zero. Qed.

(** *** The folders of the requests *)

Lemma keys_dict_set f v d :
  is_Some (dict_get f d) -> map fst (dict_set f v d) = map fst d.
Proof.
  induction d as [|[k w] d IH]; simpl; [by intros [? ?]|].
  destruct (Nat.eqb_spec k f) as [->|Hne]; [done|]. simpl. intros Hd. by rewrite IH.
Qed.

Lemma keys_set_next_offset f o d : map fst (set_next_offset f o d) = map fst d.
Proof.
  unfold set_next_offset. destruct (dict_get f d) as [i|] eqn:Hd; [|done].
  apply keys_dict_set. by rewrite Hd.
Qed.

Lemma keys_add_item_count f n d : map fst (add_item_count f n d) = map fst d.
Proof.
  unfold add_item_count. destruct (dict_get f d) as [i|] eqn:Hd; [|done].
  apply keys_dict_set. by rewrite Hd.
Qed.

Lemma keys_dict_del f d : sublist (map fst (dict_del f d)) (map fst d).
Proof.
  induction d as [|[k w] d IH]; simpl; [done|].
  destruct (Nat.eqb k f); simpl; [by apply sublist_cons|by apply sublist_skip].
Qed.

Lemma keys_dict_del_gone f d : NoDup (map fst d) -> f ∉ map fst (dict_del f d).
Proof.
  induction d as [|[k w] d IH]; simpl; intros Hnd; [by intros ?%elem_of_nil|].
  inversion Hnd as [|? ? Hk Hnd']; subst.
  destruct (Nat.eqb_spec k f) as [->|Hne]; [done|]. simpl.
  intros [?|?]%elem_of_cons; [done|]. by apply IH.
Qed.

Lemma dict_set_NoDup f v d : NoDup (map fst d) -> NoDup (map fst (dict_set f v d)).
Proof.
  induction d as [|[k w] d IH]; simpl; intros Hnd.
  - constructor; [by intros ?%elem_of_nil|constructor].
  - inversion Hnd as [|? ? Hk Hnd']; subst.
    destruct (Nat.eqb_spec k f) as [->|Hne]; simpl; [by constructor|].
    constructor; [|by apply IH].
    intros Hin. apply Hk. clear -Hin Hne.
    induction d as [|[k' w'] d IH]; simpl in *.
    + apply elem_of_cons in Hin as [?|?%elem_of_nil]; done.
    + destruct (Nat.eqb_spec k' f); simpl in *; [done|].
      apply elem_of_cons in Hin as [->|Hin]; [left|right; by apply IH].
Qed.

Lemma init_infos_NoDup folders : NoDup (map fst (init_infos folders)).
Proof.
  unfold init_infos.
  assert (forall d, NoDup (map fst d) ->
            NoDup (map fst (fold_left (fun d f => dict_set f (mkInfo 0 None) d) folders d)))
    as Hfold.
  { induction folders as [|f folders IH]; intros d Hd; simpl; [done|].
    by apply IH, dict_set_NoDup. }
  apply Hfold. constructor.
Qed.

(** The loop over the pages of one response only takes folders out, and
    when it runs to its end it has taken out every folder that is done. *)
Lemma for_pages_keys max_items zipped l :
  NoDup (keys l) ->
  sublist (keys (for_pages max_items zipped l).1.2) (keys l)
  /\ ((for_pages max_items zipped l).2 = ForDone ->
      forall p f, (p, f) ∈ zipped -> paging_done p = true ->
                  f ∉ keys (for_pages max_items zipped l).1.2).
Proof.
  revert l. induction zipped as [|[[pg next] f] zipped IH]; intros l Hnd; simpl.
  { split; [done|]. by intros _ p f ?%elem_of_nil. }
  assert (forall ys0 (l0 : locals),
            keys l0 = keys l ->
            let l'' := if falsy next
                       then mkLocals (dict_del f (paging_infos l0)) (total_item_count l0)
                       else l0 in
            let r := (let '(ys', l3, e) := for_pages max_items zipped l'' in
                      (ys0 ++ ys', l3, e)) in
            match pg with PageException _ => False | _ => True end ->
            sublist (keys r.1.2) (keys l)
            /\ (r.2 = ForDone ->
                forall p g, (p, g) ∈ ((pg, next), f) :: zipped -> paging_done p = true ->
                            g ∉ keys r.1.2)) as Hdone.
  { intros ys0 l0 Hkeys l'' r Hpg.
    assert (sublist (keys l'') (keys l) /\ (falsy next = true -> f ∉ keys l''))
      as [Hsub Hgone].
    { unfold l''. destruct (falsy next); simpl.
      - split; [rewrite <- Hkeys; apply keys_dict_del|].
        intros _. apply keys_dict_del_gone. by rewrite Hkeys.
      - by rewrite Hkeys. }
    destruct (IH l'') as [Hsub' Hgone']; [by eapply sublist_NoDup|].
    unfold r. destruct (for_pages max_items zipped l'') as [[ys' l3] e]. simpl in *.
    split; [by etrans|].
    intros He p g [[= -> ->]|Hin]%elem_of_cons Hp.
    - intros Hg. apply Hgone.
      + unfold paging_done in Hp. simpl in Hp. by destruct pg.
      + by eapply elem_of_sublist.
    - by eapply Hgone'. }
  destruct pg as [e| |c].
  - match goal with
    | |- context [Paging.for_pages max_items zipped ?l0] =>
        destruct (IH l0) as [Hsub' Hgone'];
        [simpl; eapply sublist_NoDup; [exact Hnd|];
         etrans; [apply keys_dict_del|by rewrite keys_set_next_offset]|];
        assert (f ∉ keys l0) as Hf
          by (simpl; apply keys_dict_del_gone; by rewrite keys_set_next_offset);
        assert (sublist (keys l0) (keys l)) as Hsub0
          by (simpl; etrans; [apply keys_dict_del|by rewrite keys_set_next_offset]);
        destruct (Paging.for_pages max_items zipped l0) as [[ys' l3] e']
    end.
    simpl in *. split; [by etrans|].
    intros He p g [[= -> ->]|Hin]%elem_of_cons Hp.
    + intros Hg. apply Hf. by eapply elem_of_sublist.
    + by eapply Hgone'.
  - apply (Hdone [] (mkLocals (set_next_offset f next (paging_infos l)) (total_item_count l)));
      [simpl; apply keys_set_next_offset|done].
  - destruct (_get_elems_from_page c max_items (total_item_count l)) as [es|e]; simpl.
    + destruct (reached max_items _); simpl.
      * split; [|done]. by rewrite keys_add_item_count, keys_set_next_offset.
      * apply (Hdone (map Elem es)
                 (mkLocals (add_item_count f (Z.of_nat (length es))
                              (set_next_offset f next (paging_infos l)))
                           (total_item_count l + Z.of_nat (length es))));
          [simpl; by rewrite keys_add_item_count, keys_set_next_offset|done].
    + split; [|done]. by rewrite keys_set_next_offset.
Qed.

Lemma while_loop_first_request max_items responses offset l req rs :
  (while_loop max_items responses offset l).1.2 = req :: rs ->
  req = (offset, keys l).
Proof.
  destruct responses as [|response responses]; simpl.
  { by destruct (paging_infos l). }
  destruct (paging_infos l) as [|i infos] eqn:Hinfos; [done|].
  destruct (_get_pages _ _ _ _) as [pages|e]; [|by intros [= <- _]].
  destruct (Paging.for_pages _ _ _) as [[ys l'] e].
  destruct e; simpl.
  - destruct (reached max_items _); [by intros [= <- _]|].
    destruct (_get_next_offset _) as [o|]; [|by intros [= <- _]].
    destruct (Paging.while_loop _ _ _ _ _ _) as [[ys' rs'] fin]. by intros [= <- _].
  - destruct (reached max_items _); [by intros [= <- _]|].
    destruct (_get_next_offset _) as [o|]; [|by intros [= <- _]].
    destruct (Paging.while_loop _ _ _ _ _ _) as [[ys' rs'] fin]. by intros [= <- _].
  - by intros [= <- _].
Qed.

Lemma lookup_combine_elem_of {A B} (xs : list A) (ys : list B) i x y :
  xs !! i = Some x -> ys !! i = Some y -> (x, y) ∈ combine xs ys.
Proof.
  revert ys i. induction xs as [|x' xs IH]; intros [|y' ys] [|i]; simpl; try done.
  - intros [= ->] [= ->]. left.
  - intros Hx Hy. right. by eapply IH.
Qed.

Lemma for_pages_break max_items zipped l :
  (Paging.for_pages max_items zipped l).2 = ForBreak ->
  reached max_items (total_item_count (Paging.for_pages max_items zipped l).1.2) = true.
Proof.
  revert l. induction zipped as [|[[pg next] f] zipped IH]; intros l; simpl; [done|].
  destruct pg as [e| |c].
  - match goal with
    | |- context [Paging.for_pages max_items zipped ?l0] =>
        specialize (IH l0); destruct (Paging.for_pages max_items zipped l0) as [[ys' l3] e']
    end. done.
  - match goal with
    | |- context [Paging.for_pages max_items zipped ?l0] =>
        specialize (IH l0); destruct (Paging.for_pages max_items zipped l0) as [[ys' l3] e']
    end. done.
  - destruct (_get_elems_from_page c max_items (total_item_count l)) as [es|e]; [|done].
    simpl. destruct (reached max_items _) eqn:Hr; [done|].
    match goal with
    | |- context [Paging.for_pages max_items zipped ?l0] =>
        specialize (IH l0); destruct (Paging.for_pages max_items zipped l0) as [[ys' l3] e']
    end. done.
Qed.

Lemma folders_retired_single responses req :
  folders_retired py_int py_lower responses [req].
Proof. destruct responses as [|? [|? ?]], req; done. Qed.

Lemma while_loop_retired max_items responses offset l :
  NoDup (keys l) ->
  folders_retired py_int py_lower responses (while_loop max_items responses offset l).1.2.
Proof.
  revert offset l. induction responses as [|response responses IH]; intros offset l Hnd.
  { simpl. by destruct (paging_infos l). }
  cbn [Paging.while_loop].
  destruct (paging_infos l) as [|i infos] eqn:Hinfos; [done|].
  unfold Paging._get_pages.
  destruct (get_all_pages py_int py_lower response) as [pages|e] eqn:Hpages;
    [|apply folders_retired_single].
  cbn [bind].
  destruct (negb _); [apply folders_retired_single|].
  rewrite <- Hinfos in Hnd.
  pose proof (for_pages_keys max_items (combine pages (map fst (i :: infos))) l Hnd)
    as [Hsub Hgone].
  pose proof (for_pages_break max_items (combine pages (map fst (i :: infos))) l) as Hbreak.
  destruct (Paging.for_pages _ _ _) as [[ys l'] e]. simpl in Hsub, Hgone, Hbreak.
  assert (NoDup (keys l')) as Hnd' by (by eapply sublist_NoDup).
  destruct e as [| |e]; [|rewrite (Hbreak eq_refl)|]; try apply folders_retired_single.
  destruct (reached max_items _); [apply folders_retired_single|].
  destruct (_get_next_offset _) as [o|]; [|apply folders_retired_single].
  pose proof (IH o l' Hnd') as Hrest.
  pose proof (while_loop_first_request max_items responses o l') as Hfirst.
  destruct (while_loop max_items responses o l') as [[ys' rs] fin].
  simpl in *. split; [|done].
  destruct rs as [|[o' fs'] rs]; [done|].
  specialize (Hfirst _ _ eq_refl). injection Hfirst as -> ->.
  rewrite Hinfos in Hsub. split; [done|].
  intros pages' j p f Hpg Hp Hf Hdone.
  assert (pages' = pages) as -> by congruence.
  apply (Hgone eq_refl p f); [by eapply lookup_combine_elem_of|done].
Qed.

(** A folder for which paging is done after a response (its page was an
    exception, or it came without a next offset) is left out of the next
    request of [_paged_call], and the folders of each request are among the
    folders of the request before it. *)
Theorem finished_folders_not_requested_again (max_items : option Z) (folders : list nat)
    (offset : Z) (responses : list (list message)) :
  folders_retired py_int py_lower responses
    (_paged_call max_items folders offset responses).1.2.
Proof. apply while_loop_retired. simpl. apply init_infos_NoDup. Qed.

End PagingMore.

(** Two folders, 5 and 6: the first response holds an error for folder 5
    and a first page of one item for folder 6; the second request asks for
    folder 6 only. *)
Example paged_call_drops_failed_folder :
  (Paging._paged_call Paging.example_int Paging.example_lower None [5%nat; 6%nat] 0
     [[Paging.MsgException MalformedResponseError; Paging.one_item_page];
      [Paging.two_item_page]]).1
  = ([Paging.Exc MalformedResponseError; Paging.Elem 11; Paging.Elem 11; Paging.Elem 12],
     [(0, [5%nat; 6%nat]); (1, [6%nat])]).
Proof. reflexivity. Qed.

(** [paging_values_next_offset] at the paging container of a first page
    of one item out of two. *)
Lemma paging_values_next_offset_witness :
  let c := Paging.mkContainer (Some "1") (Some "2") (Some "false") (Some [11%nat]) in
  Paging._get_paging_values Paging.example_int Paging.example_lower c = Ok (2, Some 1)
  /\ 1 <> 0 /\ 2 <> 0
  /\ (exists a, Paging.IncludesLastItemInRange c = Some a
                /\ String.eqb (Paging.example_lower a) "true"
                   || String.eqb (Paging.example_lower a) "0" = false)
  /\ Paging.example_int "1" = Some 1.
Proof.
  intros c. split; [reflexivity|].
  apply (paging_values_next_offset Paging.example_int Paging.example_lower c 2 1).
  reflexivity.
Defined.

(** ** What [clean] returns *)

Section CleanFacts.
Import Metamodel.
Context {Build : Type} (build_lt build_ge : Build -> Build -> bool).
Context (Build_str : Build -> result string)
        (Version_str : Metamodel.Version Build -> result string).

Abbreviation Field := (Field Build).
Abbreviation EWSClass := (EWSClass Build).
Abbreviation Version := (Version Build).
Abbreviation Field_clean := (Field_clean build_lt build_ge Build_str Version_str).
Abbreviation clean := (clean build_lt build_ge Build_str Version_str).
Abbreviation clean_fields := (clean_fields build_lt build_ge Build_str Version_str).
Abbreviation EWSElement_clean := (EWSElement_clean build_lt build_ge Build_str Version_str).

Implicit Types (f : Field) (fs : list Field) (self : gmap string value) (v : value).

Lemma Field_clean_given f v version v' :
  v <> VNone -> Field_clean f v version = Ok v' ->
  v' = v /\ isinstance v (value_cls f) = true.
Proof.
  intros Hv. unfold Metamodel.Field_clean.
  destruct (match version with Some ver => _ | None => false end);
    [by destruct (format_message _ _ _ _)|].
  destruct v; try done; unfold is_list;
    match goal with
    | |- context [isinstance ?x ?c] => destruct (isinstance x c) eqn:Hi
    end; try done; by intros [= <-].
Qed.

(** The value that [clean] returns for a value that is not [None] is that
    value, an instance of the value class of the field; and whatever
    [clean] returns, if it is not [None], is within the bounds of the
    field: no longer than [max_length] for a [CharField], and for an
    [IntegerField] a number that is not below [min] when [min] is set and
    not above [max] when [max] is set. *)
Theorem clean_enforces_bounds f v (version : option Version) v' :
  clean f v version = Ok v' ->
  (v <> VNone -> v' = v /\ isinstance v (value_cls f) = true)
  /\ (v' <> VNone ->
      match field_class_of f with
      | CharField max_length => exists k, py_len v' = Ok k /\ (k <= max_length)%nat
      | IntegerField min max =>
          (forall m, min = Some m -> exists z, as_int v' = Ok z /\ m <= z)
          /\ (forall m, max = Some m -> exists z, as_int v' = Ok z /\ z <= m)
      | TextField | BooleanField => True
      end).
Proof.
  unfold Metamodel.clean.
  destruct (Field_clean f v version) as [w|e] eqn:Hw; [|done]. simpl.
  assert (forall u, w = u -> (v <> VNone -> u = v /\ isinstance v (value_cls f) = true))
    as Hgiven.
  { intros u <- Hv. by apply (Field_clean_given f v version). }
  destruct (field_class_of f) as [|n| |lo hi].
  - intros [= <-]. split; [by apply Hgiven|done].
  - destruct (is_none w) eqn:Hnone.
    + intros [= <-]. split; [by apply Hgiven|]. by destruct w.
    + destruct (py_len w) as [k|] eqn:Hk; simpl; [|done].
      destruct (Nat.ltb_spec n k); [done|]. intros [= <-].
      split; [by apply Hgiven|]. intros _. exists k. split; [done|lia].
  - intros [= <-]. split; [by apply Hgiven|done].
  - destruct (is_none w) eqn:Hnone.
    + intros [= <-]. split; [by apply Hgiven|]. by destruct w.
    + destruct lo as [lo|], hi as [hi|]; simpl;
        destruct (as_int w) as [z|] eqn:Hz; simpl; try done;
        repeat match goal with
               | |- context [?a <? ?b] => destruct (Z.ltb_spec a b); simpl
               | |- context [?a >? ?b] => destruct (Z.gtb_spec a b); simpl
               end; try done; intros [= <-];
        (split; [by apply Hgiven|]); intros _;
        (split; intros ? [= <-]; exists z; (split; [exact Hz|lia])).
Qed.

Lemma Field_clean_again f v version v' :
  default_typed f ->
  Field_clean f v version = Ok v' -> Field_clean f v' version = Ok v'.
Proof.
  intros Hdef. unfold Metamodel.Field_clean.
  destruct (match version with Some ver => _ | None => false end);
    [by destruct (format_message _ _ _ _)|].
  destruct v; unfold is_list.
  - destruct (is_required f && is_none (default f)) eqn:Hreq; [done|]. intros [= <-].
    destruct Hdef as [Hd|Hd].
    + rewrite Hd in *. simpl in *. done.
    + destruct (default f); try done; by rewrite Hd.
  - destruct (isinstance (VStr s) _) eqn:Hi; [|done]. intros [= <-]. by rewrite Hi.
  - destruct (isinstance (VBool b) _) eqn:Hi; [|done]. intros [= <-]. by rewrite Hi.
  - destruct (isinstance (VInt z) _) eqn:Hi; [|done]. intros [= <-]. by rewrite Hi.
  - destruct (isinstance (VList l) _) eqn:Hi; [|done]. intros [= <-]. by rewrite Hi.
Qed.

(** What [clean] returns is what [Field.clean] has returned. *)
Lemma clean_Field_clean f v version v' :
  clean f v version = Ok v' -> Field_clean f v version = Ok v'.
Proof.
  unfold Metamodel.clean.
  destruct (Field_clean f v version) as [w|e]; [|done]. simpl.
  destruct (field_class_of f) as [|n| |lo hi]; try done.
  - destruct (is_none w); [done|].
    destruct (py_len w) as [k|]; simpl; [|done]. by destruct (n <? k)%nat.
  - destruct (is_none w); [done|].
    destruct lo as [lo|], hi as [hi|]; simpl; destruct (as_int w) as [z|]; simpl; try done;
      repeat match goal with
             | |- context [if ?c then _ else _] => destruct c; simpl; try done
             end.
Qed.

Lemma clean_again f v version v' :
  default_typed f ->
  clean f v version = Ok v' -> clean f v' version = Ok v'.
Proof.
  intros Hdef Hc.
  pose proof (clean_Field_clean f v version v' Hc) as Hw.
  pose proof (Field_clean_again f v version v' Hdef Hw) as Hagain.
  unfold Metamodel.clean in *. rewrite Hw in Hc. by rewrite Hagain.
Qed.

(** The fields that the loop of [EWSElement.clean] does not skip. *)
Abbreviation cleaned version f :=
  (negb match version with
        | Some ver => negb (supports_version build_lt build_ge f ver)
        | None => false
        end).

Lemma clean_fields_result fs version self self' :
  clean_fields fs version self = Ok self' ->
  NoDup (map name fs) ->
  (forall f, f ∈ fs -> cleaned version f = true ->
     exists v v', clean f v version = Ok v' /\ self' !! name f = Some v').
Proof.
  revert self. induction fs as [|f fs IH]; intros self Hclean Hnd; simpl in *.
  { by intros f ?%elem_of_nil. }
  inversion Hnd as [|? ? Hf Hnd']; subst.
  assert (forall m n, clean_fields fs version m = Ok self' -> n ∉ map name fs ->
            self' !! n = m !! n) as Hout.
  { clear. induction fs as [|g fs IH]; intros m n Hm Hn; simpl in *.
    - by injection Hm as <-.
    - destruct (match version with Some ver => _ | None => false end).
      + apply IH; [done|]. intros ?. apply Hn. by right.
      + destruct (m !! name g) as [val|]; [|done].
        destruct (clean g val version) as [val'|]; [|done]. simpl in Hm.
        rewrite (IH _ n Hm) by (intros ?; apply Hn; by right).
        apply lookup_insert_ne. intros <-. apply Hn. left. }
  destruct (match version with Some ver => _ | None => false end) eqn:Hguard.
  - intros g [->|Hg]%elem_of_cons Hc; [by rewrite Hguard in Hc|]. by eapply IH.
  - destruct (self !! name f) as [val|] eqn:Hval; [|done].
    destruct (clean f val version) as [val'|] eqn:Hval'; [|done]. simpl in Hclean.
    intros g [->|Hg]%elem_of_cons Hc; [|by eapply IH].
    exists val, val'. split; [done|].
    rewrite (Hout _ _ Hclean Hf). apply lookup_insert_eq.
Qed.

Lemma clean_fields_fixed fs version self :
  (forall f, f ∈ fs -> cleaned version f = true ->
     exists v', self !! name f = Some v' /\ clean f v' version = Ok v') ->
  clean_fields fs version self = Ok self.
Proof.
  induction fs as [|f fs IH]; intros Hfs; simpl; [done|].
  destruct (match version with Some ver => _ | None => false end) eqn:Hguard.
  - apply IH. intros g Hg. apply Hfs. by right.
  - destruct (Hfs f) as (v' & Hv' & Hc); [left|by rewrite Hguard|].
    rewrite Hv', Hc. simpl. rewrite insert_id by done.
    apply IH. intros g Hg. apply Hfs. by right.
Qed.

(** [EWSElement.clean] is idempotent: run on an object that it has
    cleaned, it succeeds and changes nothing. *)
Theorem EWSElement_clean_idempotent (c : EWSClass) (version : option Version) self self' :
  NoDup (map name (FIELDS c)) ->
  Forall default_typed (FIELDS c) ->
  EWSElement_clean c version self = Ok self' ->
  EWSElement_clean c version self' = Ok self'.
Proof.
  intros Hnd Hdef Hclean. unfold Metamodel.EWSElement_clean in *.
  apply clean_fields_fixed. intros f Hf Hc.
  destruct (clean_fields_result _ _ _ _ Hclean Hnd f Hf Hc) as (v & v' & Hv & Hv').
  exists v'. split; [done|].
  eapply clean_again; [|done]. by eapply (proj1 (Forall_forall _ _) Hdef).
Qed.

End CleanFacts.

(** [clean_enforces_bounds] at the field [error_code] of [FailedMailbox]
    with bounds 0 and 100, and the value 12. *)
Lemma clean_enforces_bounds_witness :
  let f := Metamodel.declare (Build := Z) (Metamodel.IntegerField (Some 0) (Some 100))
             "error_code" "ErrorCode" in
  Metamodel.clean Z.ltb Z.geb Metamodel.example_Build_str Metamodel.example_Version_str
    f (Metamodel.VInt 12) None = Ok (Metamodel.VInt 12)
  /\ (Metamodel.VInt 12 <> Metamodel.VNone ->
      Metamodel.VInt 12 = Metamodel.VInt 12
      /\ Metamodel.isinstance (Metamodel.VInt 12) (Metamodel.value_cls f) = true)
  /\ (Metamodel.VInt 12 <> Metamodel.VNone ->
      (forall m, Some 0 = Some m ->
         exists z, Metamodel.as_int (Metamodel.VInt 12) = Ok z /\ m <= z)
      /\ (forall m, Some 100 = Some m ->
            exists z, Metamodel.as_int (Metamodel.VInt 12) = Ok z /\ z <= m)).
Proof.
  intros f. split; [reflexivity|].
  apply (clean_enforces_bounds Z.ltb Z.geb Metamodel.example_Build_str
           Metamodel.example_Version_str f (Metamodel.VInt 12) None (Metamodel.VInt 12)).
  reflexivity.
Defined.

(** [EWSElement_clean_idempotent] at the [FailedMailbox] of the examples. *)
Lemma EWSElement_clean_idempotent_witness :
  Metamodel.EWSElement_clean Z.ltb Z.geb Metamodel.example_Build_str
    Metamodel.example_Version_str Metamodel.FailedMailbox Metamodel.example_version
    Metamodel.example_mailbox = Ok Metamodel.example_mailbox.
Proof.
  apply (EWSElement_clean_idempotent Z.ltb Z.geb Metamodel.example_Build_str
           Metamodel.example_Version_str Metamodel.FailedMailbox
           Metamodel.example_version Metamodel.example_mailbox Metamodel.example_mailbox).
  - apply (bool_decide_unpack _). vm_compute. exact I.
  - repeat apply Forall_cons_2; try apply Forall_nil_2; by left.
  - reflexivity.
Defined.

(** ** New instances, and the children that [to_xml] writes *)

Section ElementFacts.
Import Metamodel.
Context {Build : Type} (build_lt build_ge : Build -> Build -> bool).
Context (py_str : Z -> string).
Context (Build_str : Build -> result string)
        (Version_str : Metamodel.Version Build -> result string).

Abbreviation Field := (Field Build).
Abbreviation EWSClass := (EWSClass Build).
Abbreviation Version := (Version Build).
Abbreviation to_xml := (to_xml build_lt build_ge py_str Build_str Version_str).
Abbreviation supported_fields := (supported_fields build_lt build_ge).
Abbreviation supported_among := (supported_among build_lt build_ge).

Implicit Types (f : Field) (fs : list Field) (self : gmap string value) (v : value).

Lemma fold_init_lookup (g : string -> value) fs (m : gmap string value) n :
  fold_left (fun self f => <[name f := g (name f)]> self) fs m !! n
  = if decide (n ∈ map name fs) then Some (g n) else m !! n.
Proof.
  revert m. induction fs as [|f fs IH]; intros m; cbn [fold_left map].
  - rewrite decide_False; [done|]. by intros ?%elem_of_nil.
  - rewrite IH. destruct (decide (n ∈ map name fs)) as [Hin|Hout].
    + rewrite decide_True; [done|by right].
    + destruct (decide (n = name f)) as [->|Hne].
      * rewrite decide_True by left. apply lookup_insert_eq.
      * rewrite decide_False; [by apply lookup_insert_ne|].
        by intros [?|?]%elem_of_cons.
Qed.

(** [EWSElement.__init__] sets every field of the class: to the keyword
    argument of its name, or to [None] when there is none; a keyword
    argument that names no field is an [AttributeError]. *)
Theorem init_sets_every_field (c : EWSClass) (kwargs : gmap string value) :
  (dom kwargs ⊆ list_to_set (map name (FIELDS c)) ->
   exists self,
     EWSElement_init c kwargs = Ok self
     /\ forall f, f ∈ FIELDS c ->
          self !! name f = Some (from_option id VNone (kwargs !! name f)))
  /\ (~ dom kwargs ⊆ list_to_set (map name (FIELDS c)) ->
      EWSElement_init c kwargs = Raise AttributeError).
Proof.
  unfold EWSElement_init. split; intros Hdom.
  - rewrite decide_True by done. eexists. split; [done|].
    intros f Hf.
    rewrite (fold_init_lookup (fun n => from_option id VNone (kwargs !! n))).
    rewrite decide_True; [done|]. by apply list_elem_of_fmap_2.
  - by rewrite decide_False.
Qed.

(** *** The children that [to_xml] writes *)

Lemma split_colon_parts (u : string) :
  Forall (fun p => has_colon p = false) (split_colon u).
Proof.
  induction u as [|a u IH]; simpl; [by repeat constructor|].
  destruct (Ascii.eqb a ":") eqn:Ha; [by constructor|].
  destruct (split_colon u) as [|h t]; [by repeat constructor; simpl; rewrite Ha|].
  inversion IH; subst. constructor; [|done]. simpl. by rewrite Ha.
Qed.

Lemma field_uri_postfix_no_colon f p :
  field_uri_postfix f = Some p -> has_colon p = false.
Proof.
  unfold field_uri_postfix. destruct (field_uri f) as [u|]; [|done].
  destruct (has_colon u) eqn:Hu; [|by intros [= <-]].
  pose proof (split_colon_parts u) as Hparts.
  destruct (split_colon u) as [|a [|b l]]; try done.
  intros [= <-]. inversion Hparts as [|? ? _ Hrest]; subst. by inversion Hrest.
Qed.

Lemma set_xml_value_tag py v : forall e e',
  set_xml_value py e v = Ok e' -> tag_of e' = tag_of e.
Proof.
  revert v. fix IH 1. intros [|s|b|z|l] e e'; simpl; try done.
  - intros [= <-]. by destruct e.
  - intros [= <-]. by destruct e.
  - intros [= <-]. by destruct e.
  - revert e. induction l as [|x l IHl]; intros e; [by intros [= <-]|].
    destruct (set_xml_value py e x) as [e1|] eqn:H1; [|done]. simpl.
    intros Hrest. rewrite (IHl _ Hrest). by apply (IH x).
Qed.

Lemma Field_to_xml_tag f v child :
  Field_to_xml py_str f v = Ok child -> tag_of child = child_tag f.
Proof.
  unfold Field_to_xml, request_tag, child_tag.
  destruct (field_uri_postfix f) as [p|] eqn:Hp; [|done].
  destruct p as [|a p]; [done|]. simpl missing. cbn iota.
  pose proof (field_uri_postfix_no_colon f _ Hp) as Hcolon.
  simpl bind.
  set (q := String a p) in *.
  assert (create_element ("t:" ++ q) [] = Ok (Element ("{" ++ TNS ++ "}" ++ q) [] None []))
    as ->.
  { unfold create_element.
    change ("t:" ++ q)%string with (String "t" (String ":" q)).
    cbn [has_colon split_colon Ascii.eqb Bool.eqb orb].
    rewrite (split_colon_no_colon q Hcolon). reflexivity. }
  simpl. intros Hset. by rewrite (set_xml_value_tag _ _ _ _ Hset).
Qed.

Lemma add_elements_tags fs self e e' :
  add_elements py_str fs self e = Ok e' ->
  map tag_of (children_of e')
  = map tag_of (children_of e)
    ++ map child_tag (List.filter (fun f => negb (is_read_only f) && holds_value self f) fs).
Proof.
  revert e. induction fs as [|f fs IH]; intros e; simpl.
  { intros [= <-]. by rewrite app_nil_r. }
  unfold holds_value at 1.
  destruct (is_read_only f); simpl; [apply IH|].
  destruct (self !! name f) as [v|]; [|done].
  assert (forall v0, v = v0 -> v0 <> VNone ->
            (let* child := Field_to_xml py_str f v0 in
             add_elements py_str fs self (append_child e child)) = Ok e' ->
            map tag_of (children_of e')
            = map tag_of (children_of e)
              ++ child_tag f
                 :: map child_tag
                      (List.filter (fun f => negb (is_read_only f) && holds_value self f) fs))
    as Hwrite.
  { intros v0 _ _. destruct (Field_to_xml py_str f v0) as [child|] eqn:Hchild; [|done].
    simpl. intros Hrest. rewrite (IH _ Hrest).
    destruct e. simpl. rewrite map_app. simpl.
    rewrite (Field_to_xml_tag _ _ _ Hchild). by rewrite <- app_assoc. }
  destruct v; [apply IH|by apply Hwrite..].
Qed.

Lemma supported_among_sublist fs version sfs :
  supported_among fs version = Ok sfs -> sublist sfs fs.
Proof.
  revert sfs. induction fs as [|f fs IH]; intros sfs; simpl.
  { by intros [= <-]. }
  destruct (is_attribute f); [intros ?; by apply sublist_cons, IH|].
  destruct (supports_version_opt _ _ f version) as [b|]; [|done]. simpl.
  destruct (supported_among fs version) as [rest|]; [|done]. simpl.
  intros [= <-]. destruct b; [by apply sublist_skip, IH|by apply sublist_cons, IH].
Qed.

(** [to_xml] writes the child elements in the order of [FIELDS]: one for
    each field among the supported fields that is not read-only and holds
    a value after [clean], tagged with the field URI in the types
    namespace, and no others. *)
Theorem to_xml_children_in_field_order (c : EWSClass) (version : option Version)
    self elem self' :
  to_xml c version self = Ok (elem, self') ->
  exists sfs,
    supported_fields c version = Ok sfs
    /\ sublist sfs (FIELDS c)
    /\ map tag_of (children_of elem)
       = map child_tag
           (List.filter (fun f => negb (is_read_only f) && holds_value self' f) sfs).
Proof.
  unfold Metamodel.to_xml.
  destruct (EWSElement_clean _ _ _ _ c version self) as [s1|]; [|done]. simpl.
  destruct (collect_attrs py_str (attribute_fields c) s1 []) as [attrs|]; [|done]. simpl.
  destruct (class_request_tag c) as [t|]; [|done]. simpl.
  destruct (create_element t attrs) as [e0|] eqn:He0; [|done]. simpl.
  destruct (supported_fields c version) as [sfs|] eqn:Hsfs; [|done]. simpl.
  destruct (add_elements py_str sfs s1 e0) as [e1|] eqn:He1; [|done]. simpl.
  intros [= <- <-]. exists sfs. split; [done|].
  split; [by eapply supported_among_sublist|].
  rewrite (add_elements_tags _ _ _ _ He1).
  assert (children_of e0 = []) as ->; [|done].
  unfold create_element in He0.
  destruct (has_colon t); simpl in He0.
  - destruct (split_colon t) as [|ns [|n [|]]]; simpl in He0; try done.
    destruct (ns_translation ns); simpl in He0; [|done]. by injection He0 as <-.
  - by injection He0 as <-.
Qed.

End ElementFacts.

(** [to_xml_children_in_field_order] at the [FailedMailbox] of the
    examples: the archive flag holds no value and is not written. *)
Lemma to_xml_children_in_field_order_witness :
  Metamodel.to_xml Z.ltb Z.geb Metamodel.decimal_str Metamodel.example_Build_str
    Metamodel.example_Version_str Metamodel.FailedMailbox
    Metamodel.example_version Metamodel.example_mailbox
  = Ok (Metamodel.example_mailbox_xml, Metamodel.example_mailbox)
  /\ exists sfs,
       Metamodel.supported_fields Z.ltb Z.geb Metamodel.FailedMailbox
         Metamodel.example_version = Ok sfs
       /\ sublist sfs (Metamodel.FIELDS Metamodel.FailedMailbox)
       /\ map Metamodel.tag_of (Metamodel.children_of Metamodel.example_mailbox_xml)
          = map Metamodel.child_tag
              (List.filter
                 (fun f => negb (Metamodel.is_read_only f)
                           && Metamodel.holds_value Metamodel.example_mailbox f) sfs).
Proof.
  split; [reflexivity|].
  apply (to_xml_children_in_field_order Z.ltb Z.geb Metamodel.decimal_str
           Metamodel.example_Build_str Metamodel.example_Version_str
           Metamodel.FailedMailbox Metamodel.example_version Metamodel.example_mailbox).
  reflexivity.
Defined.

(** ** The collection [Fields] *)

Section FieldListFacts.
Import FieldList.
Context {F : Type} (fname : F -> string) (feq : F -> F -> bool).

Abbreviation Fields := (Fields F).
Abbreviation Fields_init := (Fields_init fname).
Abbreviation index_names := (index_names fname).
Abbreviation index_by_name := (index_by_name fname).
Abbreviation insert := (insert fname).
Abbreviation add_field := (add_field fname).
Abbreviation remove_field := (remove_field fname feq).
Abbreviation indexed := (indexed fname).

Implicit Types (f g field : F) (fs : list F) (d : gmap string F) (fl : Fields).

Lemma index_names_ok fs d d' :
  index_names fs d = Ok d' ->
  NoDup (map fname fs)
  /\ (forall f, f ∈ fs -> d !! fname f = None)
  /\ (forall n g, d' !! n = Some g <-> d !! n = Some g \/ (g ∈ fs /\ fname g = n)).
Proof.
  revert d. induction fs as [|f fs IH]; intros d; simpl.
  - intros [= <-]. split_and!; [constructor|by intros ? ?%elem_of_nil|].
    intros n g. split; [by left|]. by intros [?|[?%elem_of_nil _]].
  - destruct (decide (is_Some (d !! fname f))) as [|Hnone]; [done|].
    apply eq_None_not_Some in Hnone.
    intros (Hnd & Hfresh & Hd')%IH. split_and!.
    + constructor; [|done]. intros (g & Hg & Hin)%list_elem_of_fmap.
      specialize (Hfresh g Hin). rewrite <- Hg, lookup_insert_eq in Hfresh. done.
    + intros g [->|Hg]%elem_of_cons; [done|].
      specialize (Hfresh g Hg).
      destruct (decide (fname f = fname g)) as [Heq|Hne].
      * by rewrite Heq, lookup_insert_eq in Hfresh.
      * by rewrite lookup_insert_ne in Hfresh.
    + intros n g. rewrite Hd'. split.
      * intros [Hins|[Hg Hn]].
        -- destruct (decide (fname f = n)) as [<-|Hne].
           ++ rewrite lookup_insert_eq in Hins. injection Hins as <-. right. split; [left|done].
           ++ rewrite lookup_insert_ne in Hins by done. by left.
        -- right. split; [by right|done].
      * intros [Hd|[[->|Hg]%elem_of_cons Hn]].
        -- left. rewrite lookup_insert_ne; [done|]. intros Heq. by rewrite <- Heq, Hnone in Hd.
        -- left. by rewrite <- Hn, lookup_insert_eq.
        -- by right.
Qed.

Lemma index_names_complete fs d :
  NoDup (map fname fs) -> (forall f, f ∈ fs -> d !! fname f = None) ->
  exists d', index_names fs d = Ok d'.
Proof.
  revert d. induction fs as [|f fs IH]; intros d Hnd Hfresh; simpl; [by eexists|].
  inversion Hnd as [|? ? Hf Hnd']; subst.
  rewrite decide_False.
  2:{ rewrite (Hfresh f) by left. by intros [? ?]. }
  apply IH; [done|]. intros g Hg. rewrite lookup_insert_ne; [apply Hfresh; by right|].
  intros Heq. apply Hf. rewrite Heq. by apply list_elem_of_fmap_2.
Qed.

Lemma index_names_raises fs d e : index_names fs d = Raise e -> e = ValueError.
Proof.
  revert d. induction fs as [|f fs IH]; intros d; simpl; [done|].
  destruct (decide _); [by intros [= <-]|apply IH].
Qed.

Lemma Fields_init_indexed fs fl :
  Fields_init fs = Ok fl -> items fl = fs /\ indexed fl.
Proof.
  unfold FieldList.Fields_init.
  destruct (index_names fs ∅) as [d'|] eqn:Hd'; [|done]. simpl. intros [= <-].
  apply index_names_ok in Hd' as (Hnd & _ & Hlook).
  split; [done|]. split; [done|]. simpl. intros n g. rewrite Hlook.
  split; [by intros [?|?]|by right].
Qed.

(** [Fields] built from fields whose names differ is that list of fields,
    indexed by name: a field is found under its name and a name that no
    field has is a [KeyError]; fields with a name twice are a
    [ValueError]. *)
Theorem fields_init_indexes fs :
  (NoDup (map fname fs) ->
   exists fl, Fields_init fs = Ok fl /\ items fl = fs /\ indexed fl
             /\ (forall f, f ∈ fs -> getitem (fname f) fl = Ok f)
             /\ (forall n, n ∉ map fname fs -> getitem n fl = Raise KeyError))
  /\ (~ NoDup (map fname fs) -> Fields_init fs = Raise ValueError).
Proof.
  unfold FieldList.Fields_init. split.
  - intros Hnd.
    destruct (index_names_complete fs ∅ Hnd) as [d' Hd']; [done|].
    rewrite Hd'. simpl. eexists. split; [done|].
    apply index_names_ok in Hd' as (_ & _ & Hlook).
    assert (forall n g, d' !! n = Some g <-> g ∈ fs /\ fname g = n) as Hidx.
    { intros n g. rewrite Hlook. split; [by intros [?|?]|by right]. }
    split_and!; [done|by split| |].
    + intros f Hf. unfold getitem. simpl.
      by rewrite (proj2 (Hidx (fname f) f) (conj Hf eq_refl)).
    + intros n Hn. unfold getitem. simpl.
      destruct (d' !! n) as [g|] eqn:Hg; [|done].
      apply Hidx in Hg as [Hg <-]. exfalso. apply Hn. by apply list_elem_of_fmap_2.
  - intros Hdup. destruct (index_names fs ∅) as [d'|e] eqn:Hd'; simpl.
    + by apply index_names_ok in Hd' as (? & _).
    + by rewrite (index_names_raises _ _ _ Hd').
Qed.

Lemma index_from_found i l1 g l2 :
  fname g ∉ map fname l1 ->
  index_from fname i (l1 ++ g :: l2) (fname g) = Ok (i + length l1)%nat.
Proof.
  revert i. induction l1 as [|f l1 IH]; intros i Hg; simpl.
  - rewrite String.eqb_refl. f_equal. lia.
  - destruct (String.eqb_spec (fname f) (fname g)) as [Heq|_].
    + exfalso. apply Hg. rewrite <- Heq. left.
    + rewrite IH; [f_equal; lia|]. intros ?. apply Hg. by right.
Qed.

Lemma index_from_unknown i fs n :
  n ∉ map fname fs -> index_from fname i fs n = Raise ValueError.
Proof.
  revert i. induction fs as [|f fs IH]; intros i Hn; simpl; [done|].
  destruct (String.eqb_spec (fname f) n) as [<-|_].
  - exfalso. apply Hn. left.
  - apply IH. intros ?. apply Hn. by right.
Qed.

(** What [add_field] returns when it succeeds. *)
Abbreviation added field l1 g l2 fl :=
  (mkFields (l1 ++ g :: field :: l2) (<[fname field := field]> (_dict fl))).

Lemma add_field_new_name field l1 g l2 fl :
  indexed fl ->
  items fl = l1 ++ g :: l2 ->
  _dict fl !! fname field = None ->
  add_field field (fname g) fl = Ok (added field l1 g l2 fl).
Proof.
  intros [Hnd Hidx] Hitems Hnew.
  assert (fname g ∉ map fname l1) as Hg.
  { rewrite Hitems, map_app in Hnd. simpl in Hnd.
    apply NoDup_app in Hnd as (_ & Hdisj & _). intros Hin. apply (Hdisj _ Hin). left. }
  assert (index_by_name (fname g) fl = Ok (length l1)) as Hindex.
  { unfold FieldList.index_by_name. rewrite Hitems. by rewrite index_from_found. }
  unfold FieldList.add_field. rewrite Hindex. simpl.
  unfold FieldList.insert. rewrite decide_False by (rewrite Hnew; by intros [? ?]).
  rewrite Hitems. f_equal. f_equal.
  replace (length l1 + 1)%nat with (length (l1 ++ [g])) by (rewrite length_app; simpl; lia).
  replace (l1 ++ g :: l2) with ((l1 ++ [g]) ++ l2) by (by rewrite <- app_assoc).
  rewrite take_app_length, drop_app_length. by rewrite <- app_assoc.
Qed.

(** [add_field(field, insert_after)] puts a field with a new name right
    after the field named [insert_after], and the collection stays
    indexed; an unknown [insert_after] and a name that is taken are a
    [ValueError]. *)
Theorem add_field_places_after field l1 g l2 fl :
  indexed fl ->
  items fl = l1 ++ g :: l2 ->
  (_dict fl !! fname field = None ->
   add_field field (fname g) fl = Ok (added field l1 g l2 fl)
   /\ indexed (added field l1 g l2 fl)
   /\ getitem (fname field) (added field l1 g l2 fl) = Ok field)
  /\ (is_Some (_dict fl !! fname field) ->
      add_field field (fname g) fl = Raise ValueError)
  /\ (forall n, n ∉ map fname (items fl) -> add_field field n fl = Raise ValueError).
Proof.
  intros [Hnd Hidx] Hitems.
  assert (fname g ∉ map fname l1) as Hg.
  { rewrite Hitems, map_app in Hnd. simpl in Hnd.
    apply NoDup_app in Hnd as (_ & Hdisj & _). intros Hin. apply (Hdisj _ Hin). left. }
  assert (index_by_name (fname g) fl = Ok (length l1)) as Hindex.
  { unfold FieldList.index_by_name. rewrite Hitems. by rewrite index_from_found. }
  split_and!.
  - intros Hnew.
    assert (fname field ∉ map fname (items fl)) as Hfresh.
    { intros (f & Hf & Hin)%list_elem_of_fmap.
      by rewrite (proj2 (Hidx (fname field) f) (conj Hin (eq_sym Hf))) in Hnew. }
    split_and!.
    + by apply add_field_new_name.
    + split; simpl.
      * rewrite Hitems in Hnd, Hfresh.
        rewrite map_app in *. simpl in *.
        apply NoDup_app in Hnd as (Hnd1 & Hdisj & Hnd2).
        inversion Hnd2 as [|? ? Hg2 Hnd2']; subst.
        apply NoDup_app. split_and!; [done| |].
        -- intros n Hn [->|[->|Hin]%elem_of_cons]%elem_of_cons.
           ++ by apply (Hdisj _ Hn); left.
           ++ apply Hfresh. apply elem_of_app. by left.
           ++ apply (Hdisj _ Hn). by right.
        -- constructor.
           ++ intros [Heq|Hin]%elem_of_cons; [|done].
              apply Hfresh. apply elem_of_app. right. rewrite <- Heq. left.
           ++ constructor; [|done]. intros Hin. apply Hfresh.
              apply elem_of_app. right. by right.
      * intros n f. destruct (decide (fname field = n)) as [<-|Hne].
        -- rewrite lookup_insert_eq. split.
           ++ intros [= <-]. split; [|done]. apply elem_of_app. right. right. left.
           ++ intros [Hin Hn]. f_equal.
              apply elem_of_app in Hin as [Hin|[->|[->|Hin]%elem_of_cons]%elem_of_cons];
                try done; exfalso; apply Hfresh; rewrite <- Hn, Hitems;
                apply list_elem_of_fmap_2, elem_of_app; [by left|right; left|right; by right].
        -- rewrite lookup_insert_ne by done. rewrite Hidx, Hitems. split.
           ++ intros [Hin Hn]. split; [|done].
              apply elem_of_app in Hin as [Hin|[->|Hin]%elem_of_cons];
                apply elem_of_app; [by left|right; left|right; right; by right].
           ++ intros [Hin Hn]. split; [|done].
              apply elem_of_app in Hin as [Hin|[->|[->|Hin]%elem_of_cons]%elem_of_cons];
                try done; apply elem_of_app; [by left|right; left|right; by right].
    + unfold getitem. simpl. by rewrite lookup_insert_eq.
  - intros Htaken. unfold FieldList.add_field. rewrite Hindex. simpl.
    unfold FieldList.insert. by rewrite decide_True.
  - intros n Hn. unfold FieldList.add_field, FieldList.index_by_name.
    by rewrite index_from_unknown.
Qed.

Lemma list_remove_added field l1 g l2 :
  feq field field = true ->
  Forall (fun f => feq f field = false) (l1 ++ [g]) ->
  list_remove feq field (l1 ++ g :: field :: l2) = Some (l1 ++ g :: l2).
Proof.
  intros Hrefl. induction l1 as [|f l1 IH]; simpl; intros Hne.
  - inversion Hne as [|? ? Hg _]; subst. by rewrite Hg, Hrefl.
  - inversion Hne as [|? ? Hf Hne']; subst. rewrite Hf. by rewrite IH.
Qed.

(** [remove_field(field)] undoes [add_field(field, insert_after)]: when
    no field before the place of the new field is equal to it, the
    collection is again the one it was. *)
Theorem remove_field_undoes_add_field field l1 g l2 fl :
  indexed fl ->
  items fl = l1 ++ g :: l2 ->
  _dict fl !! fname field = None ->
  feq field field = true ->
  Forall (fun f => feq f field = false) (l1 ++ [g]) ->
  exists fl', add_field field (fname g) fl = Ok fl' /\ remove_field field fl' = (fl, Ok tt).
Proof.
  intros Hidx Hitems Hnew Hrefl Hne.
  eexists. split; [exact (add_field_new_name field l1 g l2 fl Hidx Hitems Hnew)|].
  unfold FieldList.remove_field, remove. simpl.
  rewrite (list_remove_added _ _ _ _ Hrefl Hne), lookup_insert_eq.
  rewrite delete_insert_eq, delete_id by done. rewrite <- Hitems. by destruct fl.
Qed.

End FieldListFacts.

Lemma example_fields_init :
  FieldList.Fields_init Metamodel.name (Metamodel.FIELDS Metamodel.FailedMailbox)
  = Ok FieldList.example_fields.
Proof. reflexivity. Qed.

(** [add_field_places_after] at the fields of [FailedMailbox]: a field
    named "reason" is added after "error_code". *)
Lemma add_field_places_after_witness :
  exists fl,
    FieldList.add_field Metamodel.name FieldList.example_new_field "error_code"
      FieldList.example_fields = Ok fl
    /\ map Metamodel.name (FieldList.items fl)
       = ["mailbox"; "error_code"; "reason"; "error_message"; "is_archive"]%string
    /\ FieldList.indexed Metamodel.name fl
    /\ FieldList.getitem "reason" fl = Ok FieldList.example_new_field.
Proof.
  destruct (Fields_init_indexed Metamodel.name _ _ example_fields_init) as [_ Hidx].
  pose proof (add_field_places_after Metamodel.name FieldList.example_new_field
                [Metamodel.declare (Metamodel.CharField 255) "mailbox" "Mailbox"]
                (Metamodel.declare (Metamodel.IntegerField None None) "error_code" "ErrorCode")
                [Metamodel.declare (Metamodel.CharField 255) "error_message" "ErrorMessage";
                 Metamodel.declare Metamodel.BooleanField "is_archive" "IsArchive"]
                FieldList.example_fields Hidx eq_refl) as (Hadd & _).
  destruct (Hadd eq_refl) as (Hfl & Hidx' & Hget).
  eexists. split; [exact Hfl|]. split; [reflexivity|]. split; [exact Hidx'|exact Hget].
Defined.

(** [remove_field_undoes_add_field] at the same fields. *)
Lemma remove_field_undoes_add_field_witness :
  exists fl,
    FieldList.add_field Metamodel.name FieldList.example_new_field "error_code"
      FieldList.example_fields = Ok fl
    /\ FieldList.remove_field Metamodel.name FieldList.Field_eq FieldList.example_new_field fl
       = (FieldList.example_fields, Ok tt).
Proof.
  destruct (Fields_init_indexed Metamodel.name _ _ example_fields_init) as [_ Hidx].
  apply (remove_field_undoes_add_field Metamodel.name FieldList.Field_eq
           FieldList.example_new_field
           [Metamodel.declare (Metamodel.CharField 255) "mailbox" "Mailbox"]
           (Metamodel.declare (Metamodel.IntegerField None None) "error_code" "ErrorCode")
           [Metamodel.declare (Metamodel.CharField 255) "error_message" "ErrorMessage";
            Metamodel.declare Metamodel.BooleanField "is_archive" "IsArchive"]
           FieldList.example_fields Hidx eq_refl eq_refl eq_refl).
  repeat constructor.
Defined.

(** ** What the chaining methods return *)

Section ChainingResults.
Import QuerySets.
Context {QVal FieldPath : Type}.
Context (Q_empty Q_never : QVal) (Q_and : QVal -> QVal -> QVal) (Q_not : QVal -> QVal).
Context (Q_is_never : QVal -> bool).

Abbreviation store := (store QVal FieldPath).
Abbreviation M := (@M QVal FieldPath).
Abbreviation QuerySet := (QuerySet FieldPath).
Abbreviation FieldOrder := (FieldOrder FieldPath).
Abbreviation _copy_self := (_copy_self Q_empty).
Abbreviation chain := (chain Q_empty Q_never Q_and Q_not).
Abbreviation chained_state := (chained_state Q_never Q_and Q_not).
Abbreviation QuerySet_reverse := (QuerySet_reverse Q_empty).

Implicit Types (h : store) (s : QuerySet) (l : list nat).

Lemma fresh_None {V} (m : gmap nat V) : m !! fresh (dom m) = None.
Proof. apply not_elem_of_dom, is_fresh. Qed.

Lemma fresh_ne {V} (m : gmap nat V) a : is_Some (m !! a) -> a <> fresh (dom m).
Proof. intros [v Hv] ->. by rewrite fresh_None in Hv. Qed.

(** [deepcopy] of the [FieldOrder] objects: the copies are new objects
    that hold what the originals hold. *)
Lemma deepcopy_order_fields_spec l h :
  Forall (fun a => is_Some (forders h !! a)) l ->
  exists l' fo',
    deepcopy_order_fields l h = (mkStore (qsets h) (qobjs h) fo', Ok l')
    /\ forders h ⊆ fo'
    /\ Forall (fun a' => forders h !! a' = None) l'
    /\ NoDup l'
    /\ map (fun a' => fo' !! a') l' = map (fun a => forders h !! a) l.
Proof.
  revert h. induction l as [|a l IH]; intros h Hl.
  { exists [], (forders h). split_and!; try done; [by destruct h|constructor]. }
  inversion Hl as [|? ? [v Hv] Hl']; subst.
  unfold deepcopy_order_fields. cbn [mapM]. unfold mbind at 1. unfold mbind at 1.
  unfold get_forder at 1. rewrite Hv. unfold new_forder at 1.
  set (a' := fresh (dom (forders h))).
  set (h1 := mkStore (qsets h) (qobjs h) (<[a' := v]> (forders h))).
  assert (forders h !! a' = None) as Ha' by apply fresh_None.
  assert (forders h ⊆ forders h1) as Hsub1 by (by apply insert_subseteq).
  destruct (IH h1) as (l' & fo' & Hcopy & Hsub & Hfresh & Hnd & Hmap).
  { eapply Forall_impl; [exact Hl'|]. intros b [w Hw]. exists w.
    by eapply lookup_weaken. }
  unfold deepcopy_order_fields in Hcopy. unfold mbind at 1. rewrite Hcopy.
  exists (a' :: l'), fo'. simpl. split_and!.
  - done.
  - by etrans.
  - constructor; [done|]. eapply Forall_impl; [exact Hfresh|]. intros b Hb. simpl in Hb.
    destruct (decide (a' = b)) as [<-|Hne]; [by rewrite lookup_insert_eq in Hb|].
    by rewrite lookup_insert_ne in Hb.
  - constructor; [|done]. intros Hin.
    apply (proj1 (Forall_forall _ _) Hfresh) in Hin. simpl in Hin.
    by rewrite lookup_insert_eq in Hin.
  - f_equal.
    + rewrite Hv. eapply lookup_weaken; [|exact Hsub]. simpl. apply lookup_insert_eq.
    + rewrite Hmap. apply map_ext_in. intros b Hb. simpl.
      apply lookup_insert_ne. intros <-.
      apply list_elem_of_In in Hb. apply (proj1 (Forall_forall _ _) Hl') in Hb.
      destruct Hb as [w Hw]. by rewrite Ha' in Hw.
Qed.

(** [_copy_self] returns a new query set with copies of the restriction
    and of the ordering of the receiver. *)
Lemma _copy_self_spec self s h :
  receiver_ok h self s ->
  exists new qa oa qo' fo',
    _copy_self self h
    = (mkStore (<[new := mkQuerySet (folder_collection s) (request_type s) qa (only_fields s)
                            oa (return_format s) (calendar_view s) (page_size s)
                            (chunk_size s) (max_items s) (offset s) (_depth s)]> (qsets h))
               qo' fo', Ok new)
    /\ qsets h !! new = None
    /\ qobjs h ⊆ qo' /\ forders h ⊆ fo'
    /\ qobjs h !! qa = None
    /\ qo' !! qa = qobjs h !! q s
    /\ order_copied h fo' (order_fields s) oa.
Proof.
  intros (Hself & [v0 Hq] & Horder).
  unfold QuerySets._copy_self.
  unfold mbind at 1. unfold get_qset at 1. rewrite Hself.
  unfold mbind at 1. unfold QuerySet_init. unfold mbind at 1. unfold new_q at 1.
  set (qa0 := fresh (dom (qobjs h))).
  unfold new_qset at 1. cbn [qsets qobjs forders].
  set (new := fresh (dom (qsets h))).
  assert (qsets h !! new = None) as Hnew by apply fresh_None.
  assert (qobjs h !! qa0 = None) as Hqa0 by apply fresh_None.
  unfold mbind at 1. unfold get_qset at 1. cbn [qsets]. rewrite lookup_insert_eq.
  unfold mbind at 1. unfold deepcopy_q. unfold mbind at 1. unfold get_q at 1.
  cbn [qobjs]. rewrite lookup_insert_ne by (intros Heq; by rewrite <- Heq, Hqa0 in Hq).
  rewrite Hq. unfold new_q at 1. cbn [qsets qobjs forders].
  set (qo1 := <[qa0 := Q_empty]> (qobjs h)).
  set (qa := fresh (dom qo1)).
  assert (qo1 !! qa = None) as Hqa by apply fresh_None.
  assert (qobjs h !! qa = None) as Hqa'.
  { destruct (qobjs h !! qa) as [w|] eqn:Hw; [|done].
    assert (qo1 !! qa = Some w) as Hw'; [|by rewrite Hqa in Hw'].
    unfold qo1. rewrite lookup_insert_ne; [done|]. intros Heq. by rewrite <- Heq, Hqa0 in Hw. }
  assert (qobjs h ⊆ <[qa := v0]> qo1) as Hqsub.
  { etrans; [apply (insert_subseteq _ qa0 Q_empty Hqa0)|]. by apply insert_subseteq. }
  unfold mbind at 1.
  destruct (order_fields s) as [l|] eqn:Hof.
  - set (h2 := mkStore (<[new := _]> (qsets h)) (<[qa := v0]> qo1) (forders h)).
    destruct (deepcopy_order_fields_spec l h2) as (l' & fo' & Hcopy & Hsub & Hfresh & Hnd & Hmap).
    { by apply Horder. }
    unfold mbind at 1. rewrite Hcopy. unfold ret at 1.
    unfold mbind at 1. unfold set_qset at 1. unfold h2. cbn [qsets qobjs forders].
    unfold ret. rewrite insert_insert_eq.
    exists new, qa, (Some l'), (<[qa := v0]> qo1), fo'.
    split_and!; try done.
    by rewrite lookup_insert_eq.
  - unfold ret at 1.
    unfold mbind at 1. unfold set_qset at 1. cbn [qsets qobjs forders]. unfold ret.
    rewrite insert_insert_eq.
    exists new, qa, None, (<[qa := v0]> qo1), (forders h).
    split_and!; try done.
    by rewrite lookup_insert_eq.
Qed.

Lemma query_state_receiver self s h qo' fo' new v :
  receiver_ok h self s ->
  qsets h !! new = None ->
  qobjs h ⊆ qo' -> forders h ⊆ fo' ->
  query_state (mkStore (<[new := v]> (qsets h)) qo' fo') self = query_state h self.
Proof.
  intros (Hself & [v0 Hq] & Horder) Hnew Hqsub Hfsub.
  unfold query_state. cbn [qsets qobjs forders].
  rewrite lookup_insert_ne by (intros ->; by rewrite Hnew in Hself).
  rewrite Hself. f_equal. f_equal; [f_equal|].
  - rewrite Hq. by eapply lookup_weaken.
  - destruct (order_fields s) as [l|] eqn:Hof; [|done]. simpl. f_equal.
    apply map_ext_in. intros a Ha.
    apply list_elem_of_In in Ha.
    apply (proj1 (Forall_forall _ _) (Horder l eq_refl)) in Ha as [w Hw].
    rewrite Hw. by eapply lookup_weaken.
Qed.

Lemma order_copied_state h fo' o o' :
  order_copied h fo' o o' ->
  option_map (map (fun a => fo' !! a)) o' = option_map (map (fun a => forders h !! a)) o.
Proof.
  unfold order_copied. destruct o as [l|], o' as [l'|]; try done.
  intros (_ & _ & Hmap). simpl. by rewrite Hmap.
Qed.


Lemma run_bind {A B} (m : M A) (k : A -> M B) h h1 a :
  m h = (h1, Ok a) -> mbind m k h = k a h1.
Proof. intros Hm. unfold mbind. by rewrite Hm. Qed.

Lemma run_get_qset a v h : qsets h !! a = Some v -> get_qset a h = (h, Ok v).
Proof. intros Hv. unfold get_qset. by rewrite Hv. Qed.

Lemma run_get_q a v h : qobjs h !! a = Some v -> get_q a h = (h, Ok v).
Proof. intros Hv. unfold get_q. by rewrite Hv. Qed.

(** The new [FieldOrder] objects of [order_by]. *)
Lemma mapM_new_forder_spec (fos : list FieldOrder) h :
  exists l fo',
    mapM new_forder fos h = (mkStore (qsets h) (qobjs h) fo', Ok l)
    /\ forders h ⊆ fo'
    /\ map (fun a => fo' !! a) l = map Some fos.
Proof.
  revert h. induction fos as [|v fos IH]; intros h.
  { exists [], (forders h). split_and!; try done. by destruct h. }
  cbn [mapM]. unfold mbind at 1. unfold new_forder at 1.
  set (a' := fresh (dom (forders h))).
  set (h1 := mkStore (qsets h) (qobjs h) (<[a' := v]> (forders h))).
  destruct (IH h1) as (l & fo' & Hl & Hsub & Hmap).
  unfold mbind at 1. rewrite Hl. unfold ret.
  exists (a' :: l), fo'. split_and!; [done| |].
  - etrans; [|exact Hsub]. apply insert_subseteq, fresh_None.
  - simpl. f_equal; [|done]. eapply lookup_weaken; [|exact Hsub]. apply lookup_insert_eq.
Qed.

Lemma receiver_ok_weaken self s h h' :
  receiver_ok h self s -> preserved h h' -> receiver_ok h' self s.
Proof.
  intros (Hself & [v0 Hq] & Horder) (Hqs & Hqo & Hfo). split_and!.
  - by eapply lookup_weaken.
  - exists v0. by eapply lookup_weaken.
  - intros l Hl. eapply Forall_impl; [exact (Horder l Hl)|]. intros a [w Hw].
    exists w. by eapply lookup_weaken.
Qed.

Lemma query_state_weaken self s h h' :
  receiver_ok h self s -> preserved h h' -> query_state h' self = query_state h self.
Proof.
  intros (Hself & [v0 Hq] & Horder) (Hqs & Hqo & Hfo). unfold query_state.
  rewrite Hself, (lookup_weaken _ _ _ _ Hself Hqs).
  rewrite Hq, (lookup_weaken _ _ _ _ Hq Hqo). f_equal. f_equal.
  destruct (order_fields s) as [l|] eqn:Hof; [|done]. simpl. f_equal.
  apply map_ext_in. intros a Ha. apply list_elem_of_In in Ha.
  apply (proj1 (Forall_forall _ _) (Horder l eq_refl)) in Ha as [w Hw].
  rewrite Hw. by eapply lookup_weaken.
Qed.

(** One statement of a method, run on the store. *)
Ltac run_new := erewrite run_bind by reflexivity; cbn [qsets qobjs forders].
Ltac run_get_new :=
  erewrite run_bind by (apply run_get_qset; cbn [qsets]; apply lookup_insert_eq).
Ltac run_get_q_by tac :=
  erewrite run_bind by (apply run_get_q; cbn [qobjs q with_q]; tac).

(** A chaining call returns a new query set whose restriction, fields
    and ordering are those of the receiver with the change of the call:
    [filter] and [exclude] conjoin the restriction of the receiver with
    their argument, or with its negation, [none] sets the restriction that
    never matches, [only] and [order_by] set the fields and the ordering,
    and [all] changes nothing. *)
Theorem chaining_result (c : chain_call) (self : nat) s h st st' :
  receiver_ok h self s ->
  query_state h self = Some st ->
  chained_state c st = Ok st' ->
  exists new,
    (chain c self h).2 = Ok new
    /\ query_state (chain c self h).1 new = Some st'.
Proof.
  intros Hok Hst Hch.
  assert (st = (qobjs h !! q s, only_fields s,
                option_map (map (fun a => forders h !! a)) (order_fields s))) as ->.
  { unfold query_state in Hst. destruct Hok as (Hself & _). rewrite Hself in Hst.
    by injection Hst as <-. }
  assert (exists v0, qobjs h !! q s = Some v0) as [v0 Hv0].
  { destruct Hok as (_ & [v0 Hv0] & _). by exists v0. }
  rewrite Hv0 in Hch.
  destruct c as [args|args|args|args| |]; simpl in Hch.
  - (* filter *)
    destruct args as [v|]; [|done]. injection Hch as <-.
    destruct (_copy_self_spec self s h Hok)
      as (new & qa & oa & qo' & fo' & Hcopy & Hnew & Hqsub & Hfsub & Hqa & Hqa' & Ho).
    rewrite Hv0 in Hqa'.
    assert (qa <> fresh (dom qo')) as Hne by (apply fresh_ne; by rewrite Hqa').
    eassert (chain (CallFilter (Ok v)) self h = (_, Ok new)) as Hrun.
    { unfold chain, filter. rewrite (run_bind _ _ _ _ _ Hcopy).
      run_new. run_get_new.
      run_get_q_by ltac:(rewrite lookup_insert_ne by done; exact Hqa').
      run_get_q_by ltac:(apply lookup_insert_eq).
      run_new. run_new. reflexivity. }
    exists new. rewrite Hrun. split; [done|]. cbn [fst]. unfold query_state.
    cbn [qsets qobjs forders]. rewrite lookup_insert_eq.
    cbn [with_q q only_fields order_fields].
    rewrite lookup_insert_eq. by rewrite (order_copied_state _ _ _ _ Ho).
  - (* exclude *)
    destruct args as [v|]; [|done]. injection Hch as <-.
    destruct (_copy_self_spec self s h Hok)
      as (new & qa & oa & qo' & fo' & Hcopy & Hnew & Hqsub & Hfsub & Hqa & Hqa' & Ho).
    rewrite Hv0 in Hqa'.
    assert (qa <> fresh (dom qo')) as Hne by (apply fresh_ne; by rewrite Hqa').
    assert (qa <> fresh (dom (<[fresh (dom qo') := v]> qo'))) as Hne2.
    { apply fresh_ne. rewrite lookup_insert_ne by done. by rewrite Hqa'. }
    eassert (chain (CallExclude (Ok v)) self h = (_, Ok new)) as Hrun.
    { unfold chain, exclude. rewrite (run_bind _ _ _ _ _ Hcopy).
      run_new.
      run_get_q_by ltac:(apply lookup_insert_eq).
      run_new. run_get_new.
      run_get_q_by ltac:(rewrite !lookup_insert_ne by done; exact Hqa').
      run_get_q_by ltac:(apply lookup_insert_eq).
      run_new. run_new. reflexivity. }
    exists new. rewrite Hrun. split; [done|]. cbn [fst]. unfold query_state.
    cbn [qsets qobjs forders]. rewrite lookup_insert_eq.
    cbn [with_q q only_fields order_fields].
    rewrite lookup_insert_eq. by rewrite (order_copied_state _ _ _ _ Ho).
  - (* only *)
    destruct (resolve_all args) as [fps|] eqn:Hargs; [|done]. injection Hch as <-.
    destruct (_copy_self_spec self s h Hok)
      as (new & qa & oa & qo' & fo' & Hcopy & Hnew & Hqsub & Hfsub & Hqa & Hqa' & Ho).
    rewrite Hv0 in Hqa'.
    eassert (chain (CallOnly args) self h = (_, Ok new)) as Hrun.
    { unfold chain, only. rewrite Hargs. rewrite (run_bind _ _ _ _ _ Hcopy).
      run_get_new. run_new. reflexivity. }
    exists new. rewrite Hrun. split; [done|]. cbn [fst]. unfold query_state.
    cbn [qsets qobjs forders]. rewrite lookup_insert_eq.
    cbn [with_only_fields q only_fields order_fields].
    by rewrite Hqa', (order_copied_state _ _ _ _ Ho).
  - (* order_by *)
    destruct (resolve_all args) as [fos|] eqn:Hargs; [|done]. injection Hch as <-.
    destruct (mapM_new_forder_spec fos h) as (l1 & fo1 & Hnewfo & Hsub1 & Hmap1).
    set (h1 := mkStore (qsets h) (qobjs h) fo1).
    assert (receiver_ok h1 self s) as Hok1.
    { eapply receiver_ok_weaken; [exact Hok|]. by split_and!. }
    destruct (_copy_self_spec self s h1 Hok1)
      as (new & qa & oa & qo' & fo' & Hcopy & Hnew & Hqsub & Hfsub & Hqa & Hqa' & Ho).
    change (qobjs h1) with (qobjs h) in Hqa'. rewrite Hv0 in Hqa'.
    eassert (chain (CallOrderBy args) self h = (_, Ok new)) as Hrun.
    { unfold chain, order_by. rewrite Hargs.
      rewrite (run_bind _ _ _ _ _ Hnewfo). fold h1.
      rewrite (run_bind _ _ _ _ _ Hcopy).
      run_get_new. run_new. reflexivity. }
    exists new. rewrite Hrun. split; [done|]. cbn [fst]. unfold query_state.
    cbn [qsets qobjs forders]. rewrite lookup_insert_eq.
    cbn [with_order_fields q only_fields order_fields].
    rewrite Hqa'. f_equal. f_equal. simpl. f_equal. rewrite <- Hmap1.
    apply map_ext_in. intros a Ha.
    assert (is_Some (fo1 !! a)) as [w Hw].
    { assert (In (fo1 !! a) (map Some fos)) as Hin
        by (rewrite <- Hmap1; by apply (in_map (fun a => fo1 !! a))).
      apply in_map_iff in Hin as (w & <- & _). by exists w. }
    rewrite Hw. by eapply lookup_weaken.
  - (* none *)
    injection Hch as <-.
    destruct (_copy_self_spec self s h Hok)
      as (new & qa & oa & qo' & fo' & Hcopy & Hnew & Hqsub & Hfsub & Hqa & Hqa' & Ho).
    eassert (chain CallNone self h = (_, Ok new)) as Hrun.
    { unfold chain, none. rewrite (run_bind _ _ _ _ _ Hcopy).
      run_new. run_get_new. run_new. reflexivity. }
    exists new. rewrite Hrun. split; [done|]. cbn [fst]. unfold query_state.
    cbn [qsets qobjs forders]. rewrite lookup_insert_eq.
    cbn [with_q q only_fields order_fields].
    rewrite lookup_insert_eq. by rewrite (order_copied_state _ _ _ _ Ho).
  - (* all *)
    injection Hch as <-.
    destruct (_copy_self_spec self s h Hok)
      as (new & qa & oa & qo' & fo' & Hcopy & Hnew & Hqsub & Hfsub & Hqa & Hqa' & Ho).
    rewrite Hv0 in Hqa'.
    exists new. unfold chain, all. rewrite Hcopy.
    split; [done|]. cbn [fst]. unfold query_state. cbn [qsets qobjs forders].
    rewrite lookup_insert_eq. cbn [q only_fields order_fields].
    by rewrite Hqa', (order_copied_state _ _ _ _ Ho).
Qed.

(** Flipping distinct [FieldOrder] objects changes each of them once and
    no other object. *)
Lemma mapM_flip_spec l (qs : gmap nat QuerySet) (qo : gmap nat QVal)
    (fo : gmap nat FieldOrder) :
  NoDup l ->
  Forall (fun a => is_Some (fo !! a)) l ->
  exists fo'' us,
    mapM flip l (mkStore qs qo fo) = (mkStore qs qo fo'', Ok us)
    /\ (forall a, a ∈ l -> fo'' !! a = flipped <$> fo !! a)
    /\ (forall a, a ∉ l -> fo'' !! a = fo !! a).
Proof.
  revert fo. induction l as [|a l IH]; intros fo Hnd Hall.
  { exists fo, []. split_and!; [done| |done]. intros a Ha. inversion Ha. }
  apply NoDup_cons in Hnd as [Hna Hnd].
  apply Forall_cons in Hall as [[v Hv] Hall].
  destruct (IH (<[a := flipped v]> fo) Hnd) as (fo'' & us & Hrun & Hin & Hout).
  { eapply Forall_impl; [exact Hall|]. intros b [w Hw]. simpl.
    destruct (decide (b = a)) as [->|Hne].
    - rewrite lookup_insert_eq. by eexists.
    - rewrite lookup_insert_ne by done. by exists w. }
  exists fo'', (tt :: us). split_and!.
  - cbn [mapM]. unfold mbind at 1. unfold flip at 1. cbn [forders qsets qobjs].
    rewrite Hv. unfold mbind at 1. rewrite Hrun. done.
  - intros b Hb. apply elem_of_cons in Hb as [->|Hb].
    + rewrite (Hout a Hna), lookup_insert_eq, Hv. done.
    + rewrite (Hin b Hb). rewrite lookup_insert_ne; [done|]. by intros ->.
  - intros b Hb. apply not_elem_of_cons in Hb as [Hne Hb].
    rewrite (Hout b Hb). by rewrite lookup_insert_ne.
Qed.

(** [reverse] on a query set without ordering raises [ValueError] and
    creates nothing.  On a query set with an ordering, whose [FieldOrder]
    objects are distinct objects as [order_by] makes them, it returns a new
    query set with the restriction and the fields of the receiver and with
    the ordering of the receiver, each direction turned round; the receiver
    keeps its ordering. *)
Theorem reverse_result (self : nat) s h :
  receiver_ok h self s ->
  (forall l, order_fields s = Some l -> NoDup l) ->
  if no_order s then QuerySet_reverse self h = (h, Raise ValueError)
  else
    exists new,
      (QuerySet_reverse self h).2 = Ok new
      /\ query_state (QuerySet_reverse self h).1 new
         = Some (qobjs h !! q s, only_fields s,
                 option_map (map (fun a => flipped <$> forders h !! a)) (order_fields s))
      /\ query_state (QuerySet_reverse self h).1 self = query_state h self.
Proof.
  intros Hok Hdistinct.
  pose proof Hok as (Hself & [v0 Hv0] & Horder).
  destruct (no_order s) eqn:Hno.
  { unfold QuerySet_reverse, mbind, get_qset. by rewrite Hself, Hno. }
  destruct (_copy_self_spec self s h Hok)
    as (new & qa & oa & qo' & fo' & Hcopy & Hnew & Hqsub & Hfsub & Hqa & Hqa' & Ho).
  destruct (order_fields s) as [l|] eqn:Hof; [|by unfold no_order in Hno; rewrite Hof in Hno].
  destruct oa as [l'|]; [|done]. destruct Ho as (Hfresh & Hnd & Hmap).
  specialize (Horder l eq_refl).
  assert (Forall (fun a' => is_Some (fo' !! a')) l') as Hall'.
  { apply Forall_forall. intros a' Ha'.
    assert (In (fo' !! a') (map (fun a => forders h !! a) l)) as Hin.
    { rewrite <- Hmap. apply (in_map (fun a' => fo' !! a')). by apply list_elem_of_In. }
    apply in_map_iff in Hin as (a & Heq & Ha). rewrite <- Heq.
    apply list_elem_of_In in Ha. by apply (proj1 (Forall_forall _ _) Horder). }
  destruct (mapM_flip_spec l'
              (<[new := mkQuerySet (folder_collection s) (request_type s) qa (only_fields s)
                          (Some l') (return_format s) (calendar_view s) (page_size s)
                          (chunk_size s) (max_items s) (offset s) (_depth s)]> (qsets h))
              qo' fo' Hnd Hall')
    as (fo'' & us & Hflip & Hin & Hout).
  eassert (QuerySet_reverse self h = (_, Ok new)) as Hrun.
  { unfold QuerySet_reverse. erewrite run_bind by (apply run_get_qset; exact Hself).
    rewrite Hno. rewrite (run_bind _ _ _ _ _ Hcopy).
    run_get_new. cbn [order_fields from_option id].
    rewrite (run_bind _ _ _ _ _ Hflip). reflexivity. }
  assert (new <> self) as Hns by (intros ->; by rewrite Hself in Hnew).
  exists new. rewrite Hrun. cbn [fst snd]. split_and!; [done| |].
  - unfold query_state. cbn [qsets qobjs forders]. rewrite lookup_insert_eq.
    cbn [q only_fields order_fields]. rewrite Hqa'. f_equal. f_equal. simpl. f_equal.
    rewrite <- (map_map (fun a => forders h !! a) (fmap flipped)), <- Hmap, map_map.
    apply map_ext_in. intros a' Ha'. apply Hin. by apply list_elem_of_In.
  - unfold query_state. cbn [qsets qobjs forders].
    rewrite lookup_insert_ne by done. rewrite Hself, Hof.
    rewrite Hv0, (lookup_weaken _ _ _ _ Hv0 Hqsub). f_equal. f_equal. simpl. f_equal.
    apply map_ext_in. intros a Ha. apply list_elem_of_In in Ha.
    apply (proj1 (Forall_forall _ _) Horder) in Ha as Hsome. destruct Hsome as [w Hw].
    rewrite Hout.
    + rewrite Hw. by eapply lookup_weaken.
    + intros Ha'. apply (proj1 (Forall_forall _ _) Hfresh) in Ha'. by rewrite Hw in Ha'.
Qed.

End ChainingResults.

(** [chaining_result] at [filter(subject='x')] on a fresh query set. *)
Lemma chaining_result_witness :
  exists new,
    (QuerySets.chain "Q()"%string "NEVER"%string QuerySets.text_and QuerySets.text_not
       (QuerySets.CallFilter (Ok "subject == 'x'"%string)) 0 QuerySets.example_store).2
    = Ok new
    /\ QuerySets.query_state
         (QuerySets.chain "Q()"%string "NEVER"%string QuerySets.text_and QuerySets.text_not
            (QuerySets.CallFilter (Ok "subject == 'x'"%string)) 0
            QuerySets.example_store).1 new
       = Some (Some "(Q() AND subject == 'x')"%string, None, None).
Proof.
  apply (chaining_result "Q()"%string "NEVER"%string QuerySets.text_and QuerySets.text_not
           (QuerySets.CallFilter (Ok "subject == 'x'"%string)) 0
           QuerySets.example_queryset QuerySets.example_store
           (Some "Q()"%string, None, None)).
  - split_and!; [reflexivity | by eexists | by intros l [=]].
  - reflexivity.
  - reflexivity.
Defined.

(** [reverse_result] at the query set that [order_by('subject')] has
    returned. *)
Lemma reverse_result_witness :
  exists new,
    (QuerySets.QuerySet_reverse "Q()"%string 1 QuerySets.example_ordered_store).2 = Ok new
    /\ QuerySets.query_state
         (QuerySets.QuerySet_reverse "Q()"%string 1 QuerySets.example_ordered_store).1 new
       = Some (Some "Q()"%string, None,
               Some [Some (QuerySets.mkFieldOrder "subject"%string true)])
    /\ QuerySets.query_state
         (QuerySets.QuerySet_reverse "Q()"%string 1 QuerySets.example_ordered_store).1 1
       = QuerySets.query_state QuerySets.example_ordered_store 1.
Proof.
  apply (reverse_result "Q()"%string 1 QuerySets.example_ordered_queryset
           QuerySets.example_ordered_store).
  - split_and!; [reflexivity | by eexists |].
    intros l [= <-]. apply Forall_cons_2; [by eexists | apply Forall_nil_2].
  - intros l [= <-]. apply NoDup_singleton.
Defined.
